(** * gdu: the stdout front end ([stdout/stdout.go])

    A shallow embedding of package [stdout] of gdu and the properties its
    specification states about it.

    - Go [int64] values are [Z] with the wrap-around of subtraction
      written out ([Int64.wrap64]).
    - Go strings are byte strings: [string] of the Standard Library, one
      [ascii] per byte.
    - [float64] arithmetic is IEEE 754 binary64, taken from the Standard
      Library's executable specification [SpecFloat] ([prec = 53],
      [emax = 1024], round to nearest even); [math.Round] and the verbs
      [%.f] and [%.1f] are defined on it.  The real numbers appear only
      in proofs, to bound rounding errors.
    - [map[string]struct{}] is [gmap string ()] of stdpp.
    - The goroutines of [AnalyzePath] are threads of a transition system
      whose state holds the [sync.WaitGroup] counter, the shared variable
      [dir], the analyzer's two channels and the writes made to the
      output sink; a schedule, a list of actions, runs it.
    - Packages [analyze] and [device], [sort.Sort], [filepath.Abs] and
      the colour package are outside this file's source: what the front
      end reads of them is a record field or a parameter. *)

From Stdlib Require Import ZArith Ascii String List Sorted Permutation Lia.
From Stdlib Require Import DecimalString SpecFloat Reals Lra.
From Stdlib Require DecimalZ.
From stdpp Require Import base option list gmap strings.
Import ListNotations.

Local Open Scope string_scope.
Local Open Scope Z_scope.

(* ===================================================================== *)
(** * Part I: definitions *)
(* ===================================================================== *)

(** ** Machine integers *)

Module Int64.

Definition min_int : Z := - 2 ^ 63.
Definition max_int : Z := 2 ^ 63 - 1.

Definition in_range (z : Z) : Prop := min_int <= z <= max_int.

(** Two's complement wrap-around of an [int64] result. *)
Definition wrap64 (z : Z) : Z := (z + 2 ^ 63) mod 2 ^ 64 - 2 ^ 63.

(** [a - b] on [int64]. *)
Definition sub (a b : Z) : Z := wrap64 (a - b).

End Int64.

(** ** Byte strings, UTF-8 and [fmt] verbs *)

Module Fmt.

Definition byte (n : nat) : string := String (ascii_of_nat n) EmptyString.

Definition CR : string := byte 13.   (* "\r" *)
Definition LF : string := byte 10.   (* "\n" *)
Definition ESC : string := byte 27.  (* "\x1b" *)

Fixpoint repeat_string (n : nat) (s : string) : string :=
  match n with
  | O => EmptyString
  | S k => s ++ repeat_string k s
  end.

Definition bytes_of (s : string) : list Z :=
  map (fun c => Z.of_nat (nat_of_ascii c)) (list_ascii_of_string s).

(** [utf8.RuneCountInString]: a valid encoding of [n] bytes counts as one
    rune, and every byte that starts no valid encoding counts as one
    rune of its own.  The case analysis is that of Go's tables [first]
    and [acceptRanges]: the length an encoding announces in its lead
    byte [c], with the range its second byte must lie in. *)
Definition lead (c : Z) : option (nat * Z * Z) :=
  if c <? 0xC2 then None
  else if c <=? 0xDF then Some (2%nat, 0x80, 0xBF)
  else if c =? 0xE0 then Some (3%nat, 0xA0, 0xBF)
  else if c <=? 0xEC then Some (3%nat, 0x80, 0xBF)
  else if c =? 0xED then Some (3%nat, 0x80, 0x9F)
  else if c <=? 0xEF then Some (3%nat, 0x80, 0xBF)
  else if c =? 0xF0 then Some (4%nat, 0x90, 0xBF)
  else if c <=? 0xF3 then Some (4%nat, 0x80, 0xBF)
  else if c =? 0xF4 then Some (4%nat, 0x80, 0x8F)
  else None.

Definition continuation (c : Z) : bool := (0x80 <=? c) && (c <=? 0xBF).

(** The number of bytes the rune at the head of [bs] takes. *)
Definition rune_size (bs : list Z) : nat :=
  match bs with
  | [] => 0%nat
  | c :: rest =>
      if c <? 0x80 then 1%nat
      else match lead c with
           | None => 1%nat
           | Some (size, lo, hi) =>
               if (length bs <? size)%nat then 1%nat
               else match rest with
                    | c1 :: rest1 =>
                        if negb ((lo <=? c1) && (c1 <=? hi)) then 1%nat
                        else if (size =? 2)%nat then 2%nat
                        else match rest1 with
                             | c2 :: rest2 =>
                                 if negb (continuation c2) then 1%nat
                                 else if (size =? 3)%nat then 3%nat
                                 else match rest2 with
                                      | c3 :: _ =>
                                          if negb (continuation c3) then 1%nat else 4%nat
                                      | [] => 1%nat
                                      end
                             | [] => 1%nat
                             end
                    | [] => 1%nat
                    end
           end
  end.

(** The loop of [RuneCountInString]; [fuel] bounds its iterations, and
    [length bs] of them are enough since every iteration consumes a byte. *)
Fixpoint rune_count_loop (fuel : nat) (bs : list Z) : nat :=
  match fuel with
  | O => 0%nat
  | S fuel' =>
      match bs with
      | [] => 0%nat
      | _ => S (rune_count_loop fuel' (skipn (rune_size bs) bs))
      end
  end.

Definition RuneCountInString (s : string) : nat :=
  let bs := bytes_of s in rune_count_loop (length bs) bs.

(** The verb [%<w>s]: [s] right-aligned in a field of [w] runes, padded
    with spaces on the left ([fmt] measures the operand in runes).  [w]
    is a width [fmt] accepts, which every width below is. *)
Definition pad (w : nat) (s : string) : string :=
  repeat_string (w - RuneCountInString s) " " ++ s.

(** The verb [%d] on an integer, and [fmt.Sprint] of an [int]. *)
Definition itoa (z : Z) : string := NilZero.string_of_int (Z.to_int z).

(** [count] decimal digits of [n], most significant first, zero filled. *)
Fixpoint fixed_digits (count : nat) (n : Z) : string :=
  match count with
  | O => EmptyString
  | S k => fixed_digits k (n / 10) ++ itoa (n mod 10)
  end.

End Fmt.

(** ** float64 *)

Module Float64.

Definition float64 : Type := spec_float.

Definition prec : Z := 53.
Definition emax : Z := 1024.

(** The conversion [float64(z)] of an integer: the nearest double, ties
    to even. *)
Definition of_int (z : Z) : float64 := binary_normalize prec emax z 0 false.

Definition div : float64 -> float64 -> float64 := SFdiv prec emax.
Definition mul : float64 -> float64 -> float64 := SFmul prec emax.

(** [math.Pow(2, k)] for a natural [k] below 1024: the power is a double. *)
Definition pow2 (k : Z) : float64 := of_int (2 ^ k).

(** [math.Round]: the nearest integer, halves away from zero; zeros,
    infinities and NaN are returned as they are, and the sign of a value
    that rounds to zero is kept. *)
Definition Round (x : float64) : float64 :=
  match x with
  | S754_finite s m e =>
      if 0 <=? e then x
      else
        let den := 2 ^ (- e) in
        let q := Z.pos m / den in
        let r := Z.pos m mod den in
        let q' := if den <=? 2 * r then q + 1 else q in
        if q' =? 0 then S754_zero s
        else binary_normalize prec emax (if s then - q' else q') 0 false
  | _ => x
  end.

(** The magnitude [m * 2^e] times [10^digs], rounded to an integer with
    halves to even: the digits [strconv] keeps for [%.<digs>f]. *)
Definition scaled (m : positive) (e : Z) (digs : nat) : Z :=
  let p := 10 ^ Z.of_nat digs in
  if 0 <=? e then Z.pos m * 2 ^ e * p
  else
    let den := 2 ^ (- e) in
    let num := Z.pos m * p in
    let q := num / den in
    let r := num mod den in
    if den <? 2 * r then q + 1
    else if (den =? 2 * r) && Z.odd q then q + 1
    else q.

Definition sign_string (s : bool) : string := if s then "-" else "".

Definition decimal (digs : nat) (n : Z) : string :=
  let p := 10 ^ Z.of_nat digs in
  Fmt.itoa (n / p) ++
  match digs with
  | O => ""
  | _ => "." ++ Fmt.fixed_digits digs (n mod p)
  end.

(** The verb [%.<digs>f]. *)
Definition format_f (digs : nat) (x : float64) : string :=
  match x with
  | S754_nan => "NaN"
  | S754_infinity s => if s then "-Inf" else "+Inf"
  | S754_zero s => sign_string s ++ decimal digs 0
  | S754_finite s m e => sign_string s ++ decimal digs (scaled m e digs)
  end.

End Float64.

(** ** Package [color] (github.com/fatih/color)

    A [Color] is a list of SGR attributes.  [Sprintf] and [Sprint] format
    their operands and then [wrap] the text in the escape sequences of
    the attributes, unless colours are switched off. *)

Module Color.

Record Color : Type := New_attrs { params : list Z }.

Definition FgRed : Z := 31.
Definition FgYellow : Z := 33.
Definition FgBlue : Z := 34.
Definition Bold : Z := 1.

Definition New (a : Z) : Color := {| params := [a] |}.
Definition Add (c : Color) (a : Z) : Color := {| params := (params c ++ [a])%list |}.

Fixpoint join (sep : string) (l : list string) : string :=
  match l with
  | [] => ""
  | [s] => s
  | s :: rest => s ++ sep ++ join sep rest
  end.

Definition sequence (c : Color) : string := join ";" (map Fmt.itoa (params c)).
Definition format (c : Color) : string := Fmt.ESC ++ "[" ++ sequence c ++ "m".
Definition unformat : string := Fmt.ESC ++ "[0m".

(** [NoColor] is the package's global switch. *)
Definition wrap (NoColor : bool) (c : Color) (s : string) : string :=
  if NoColor then s else format c ++ s ++ unformat.

End Color.

(** ** Packages [analyze] and [device]: the data the front end reads *)

Definition error : Type := string.

(** What the front end reads of an [analyze.Item], through its getters. *)
Record Item : Type := {
  GetName : string;
  GetSize : Z;        (* apparent size, int64 *)
  GetUsage : Z;       (* size on disk, int64 *)
  IsDir : bool;
  GetFlag : string;   (* string(file.GetFlag()): the flag rune, encoded *)
}.

Record Dir : Type := { Files : list Item }.

Record CurrentProgress : Type := {
  CurrentItemName : string;
  ItemCount : Z;
  TotalSize : Z;
}.

(** [analyze.Analyzer].  [AnalyzeDir] blocks and returns the tree; the
    two channels it hands out are part of the state of the transition
    system below. *)
Record Analyzer : Type := {
  AnalyzeDir : string -> (string -> bool) -> Dir;
}.

Record Device : Type := {
  Name : string;
  MountPoint : string;
  Size : Z;           (* int64 *)
  Free : Z;           (* int64 *)
}.

(** [device.DevicesInfoGetter]: the two results of [GetDevicesInfo]. *)
Record DevicesInfoGetter : Type := {
  GetDevicesInfo : list Device * option error;
}.

(** ** The UI struct *)

(** The sink [ui.output] is not a field here: every operation takes the
    writes made so far and returns them extended, one element per call of
    [Fprint] or [Fprintf].

    [NoColor] is no field of the Go struct either.  It is the variable
    [color.NoColor] of the colour package, one for the whole process,
    which every [Sprintf] of a colour reads when it runs.  An operation
    on a UI takes it with its receiver: [NoColor ui] is the value of
    [color.NoColor] at the time the operation runs ([with_NoColor] below
    gives the receiver for any such value). *)
Record UI : Type := {
  analyzer : Analyzer;
  ignoreDirPaths : gmap string ();
  useColors : bool;
  showProgress : bool;
  showApparentSize : bool;
  red : Color.Color;
  orange : Color.Color;
  blue : Color.Color;
  pathChecker : string -> option error;   (* the error of (fs.FileInfo, error) *)
  NoColor : bool;
}.

(** What [CreateStdoutUI] leaves in [color.NoColor], which was [NoColor0]
    when it was called: [if !useColors { color.NoColor = true }].  The
    constructor switches colours off or leaves the variable alone; it
    never switches them on. *)
Definition NoColor_after_CreateStdoutUI (NoColor0 useColors : bool) : bool :=
  if useColors then NoColor0 else true.

(** [CreateStdoutUI].  [an] is the analyzer [analyze.CreateAnalyzer]
    returns, [stat] is [os.Stat], and [NoColor0] is the value of
    [color.NoColor] when the constructor runs.  The UI returned is the
    receiver as an operation finds it when nothing has assigned
    [color.NoColor] since. *)
Definition CreateStdoutUI (an : Analyzer) (stat : string -> option error)
    (NoColor0 : bool) (useColors showProgress showApparentSize : bool) : UI :=
  {| analyzer := an;
     ignoreDirPaths := ∅;
     useColors := useColors;
     showProgress := showProgress;
     showApparentSize := showApparentSize;
     red := Color.Add (Color.New Color.FgRed) Color.Bold;
     orange := Color.Add (Color.New Color.FgYellow) Color.Bold;
     blue := Color.Add (Color.New Color.FgBlue) Color.Bold;
     pathChecker := stat;
     NoColor := NoColor_after_CreateStdoutUI NoColor0 useColors |}.

(** The receiver [ui] as an operation finds it when [color.NoColor] is
    [nc] at the time of the call: the struct is the same, the variable of
    the colour package is whatever was assigned to it last. *)
Definition with_NoColor (ui : UI) (nc : bool) : UI :=
  {| analyzer := analyzer ui;
     ignoreDirPaths := ignoreDirPaths ui;
     useColors := useColors ui;
     showProgress := showProgress ui;
     showApparentSize := showApparentSize ui;
     red := red ui;
     orange := orange ui;
     blue := blue ui;
     pathChecker := pathChecker ui;
     NoColor := nc |}.

(** [color.NoColor] after a sequence of calls of [CreateStdoutUI], each
    given by its argument [useColors], in a process where the variable
    was [NoColor0] before the first of them. *)
Definition NoColor_after (NoColor0 : bool) (constructed : list bool) : bool :=
  fold_left NoColor_after_CreateStdoutUI constructed NoColor0.

(** ** formatSize *)

Definition formatSize (ui : UI) (size : Z) : string :=
  if 10 ^ 12 <? size then
    Color.wrap (NoColor ui) (orange ui)
      (Float64.format_f 1 (Float64.div (Float64.of_int size) (Float64.pow2 40))) ++ " TiB"
  else if 10 ^ 9 <? size then
    Color.wrap (NoColor ui) (orange ui)
      (Float64.format_f 1 (Float64.div (Float64.of_int size) (Float64.pow2 30))) ++ " GiB"
  else if 10 ^ 6 <? size then
    Color.wrap (NoColor ui) (orange ui)
      (Float64.format_f 1 (Float64.div (Float64.of_int size) (Float64.pow2 20))) ++ " MiB"
  else if 10 ^ 3 <? size then
    Color.wrap (NoColor ui) (orange ui)
      (Float64.format_f 1 (Float64.div (Float64.of_int size) (Float64.pow2 10))) ++ " KiB"
  else
    Color.wrap (NoColor ui) (orange ui) (Fmt.itoa size) ++ " B".

(** ** maxLength, maxInt and ListDevices *)

Definition len (s : string) : Z := Z.of_nat (String.length s).

Definition maxLength (list : list Device) (keyGetter : Device -> string) : Z :=
  fold_left
    (fun maxLen item =>
       let s := keyGetter item in
       if maxLen <? len s then len s else maxLen)
    list 0.

Definition maxInt (x y : Z) : Z := if y <? x then x else y.

Definition maxDeviceNameLenght (devices : list Device) : Z :=
  maxInt (maxLength devices Name) (len "Devices").

(** The value of [usedPercent] for one device. *)
Definition usedPercent (d : Device) : Float64.float64 :=
  Float64.Round
    (Float64.mul
       (Float64.div (Float64.of_int (Int64.sub (Size d) (Free d)))
                    (Float64.of_int (Size d)))
       (Float64.of_int 100)).

(** The text of the Used% cell: [ui.red.Sprintf("%.f%%", usedPercent)]. *)
Definition usedPercentCell (ui : UI) (d : Device) : string :=
  Color.wrap (NoColor ui) (red ui) (Float64.format_f 0 (usedPercent d) ++ "%").

Definition sizeLength (ui : UI) : nat := if useColors ui then 20%nat else 9%nat.
Definition percentLength (ui : UI) : nat := if useColors ui then 16%nat else 5%nat.

(** The header line: the format built for width [w], applied to the six
    labels. *)
Definition deviceHeader (w : Z) : string :=
  Fmt.pad (Z.to_nat w) "Device" ++ " " ++ Fmt.pad 9 "Size" ++ " " ++
  Fmt.pad 9 "Used" ++ " " ++ Fmt.pad 9 "Free" ++ " " ++
  Fmt.pad 5 "Used%" ++ " " ++ "Mount point" ++ Fmt.LF.

(** One line of the table: [lineFormat] applied to a device. *)
Definition deviceLine (ui : UI) (w : Z) (d : Device) : string :=
  Fmt.pad (Z.to_nat w) (Name d) ++ " " ++
  Fmt.pad (sizeLength ui) (formatSize ui (Size d)) ++ " " ++
  Fmt.pad (sizeLength ui) (formatSize ui (Int64.sub (Size d) (Free d))) ++ " " ++
  Fmt.pad (sizeLength ui) (formatSize ui (Free d)) ++ " " ++
  Fmt.pad (percentLength ui) (usedPercentCell ui d) ++ " " ++
  MountPoint d ++ Fmt.LF.

(** [ListDevices]: the writes after the call, and the error returned. *)
Definition ListDevices (ui : UI) (getter : DevicesInfoGetter) (out : list string)
    : list string * option error :=
  let '(devices, err) := GetDevicesInfo getter in
  match err with
  | Some e => (out, Some e)
  | None =>
      let w := maxDeviceNameLenght devices in
      let out := (out ++ [deviceHeader w])%list in
      (fold_left (fun out device => (out ++ [deviceLine ui w device])%list) devices out, None)
  end.

(** ** The ignore set *)

Definition SetIgnoreDirPaths (ui : UI) (paths : list string) : UI :=
  let m := fold_left (fun (m : gmap string ()) path => <[path := ()]> m) paths ∅ in
  {| analyzer := analyzer ui;
     ignoreDirPaths := m;
     useColors := useColors ui;
     showProgress := showProgress ui;
     showApparentSize := showApparentSize ui;
     red := red ui;
     orange := orange ui;
     blue := blue ui;
     pathChecker := pathChecker ui;
     NoColor := NoColor ui |}.

Definition ShouldDirBeIgnored (ui : UI) (path : string) : bool :=
  match ignoreDirPaths ui !! path with
  | Some _ => true
  | None => false
  end.

(** The two methods as calls on a UI: the state after the call and what
    the call returns.  [ShouldDirBeIgnored] assigns nothing. *)
Inductive IgnoreCall : Type :=
| CallSet (paths : list string)
| CallShould (path : string).

Definition call (ui : UI) (c : IgnoreCall) : UI * option bool :=
  match c with
  | CallSet paths => (SetIgnoreDirPaths ui paths, None)
  | CallShould path => (ui, Some (ShouldDirBeIgnored ui path))
  end.

Definition calls (ui : UI) (cs : list IgnoreCall) : UI :=
  fold_left (fun ui c => fst (call ui c)) cs ui.

(** ** What the front end calls outside the package

    [filepath.Abs] (its error is discarded), [fmt.Sprintf] of a format
    with no operands (the directory name [AnalyzePath] passes as a
    format), [sort.Sort], and the order [analyze.Files] implements for it
    ([Files_Less a b] is [Less(i, j)] for the items [a] and [b] at the
    indices [i] and [j]).  [sort.Sort] only swaps elements and calls
    [Less], so what it leaves in the slice is a function of the order and
    of the slice it was given. *)
Record Extern : Type := {
  filepath_Abs : string -> string;
  fmt_Sprintf : string -> string;
  sort_Sort : (Item -> Item -> bool) -> list Item -> list Item;
  Files_Less : Item -> Item -> bool;
}.

(** ** The listing AnalyzePath prints *)

(** The size the loop selects for an entry. *)
Definition entrySize (ui : UI) (file : Item) : Z :=
  if showApparentSize ui then GetSize file else GetUsage file.

(** One line of the listing: [lineFormat] applied to an entry. *)
Definition entryLine (ext : Extern) (ui : UI) (file : Item) : string :=
  GetFlag file ++ " " ++
  Fmt.pad (if useColors ui then 20%nat else 9%nat) (formatSize ui (entrySize ui file)) ++ " " ++
  (if IsDir file
   then Color.wrap (NoColor ui) (blue ui) (fmt_Sprintf ext ("/" ++ GetName file))
   else GetName file) ++ Fmt.LF.

(** [dir.Files] after [sort.Sort(dir.Files)]: the entries in the order
    the loop visits them. *)
Definition displayed (ext : Extern) (ui : UI) (d : Dir) : list Item :=
  sort_Sort ext (Files_Less ext) (Files d).

Definition listing (ext : Extern) (ui : UI) (d : Dir) : list string :=
  map (entryLine ext ui) (displayed ext ui d).

(** ** updateProgress *)

Definition emptyRow : string := Fmt.CR ++ Fmt.repeat_string 100 " ".

Definition progressRunes : list string :=
  ["⠇"; "⠏"; "⠋"; "⠙"; "⠹"; "⠸"; "⠼"; "⠴"; "⠦"; "⠧"].

(** [fmt.Fprintf(ui.output, "\r %s ", string(progressRunes[i]))]. *)
Definition spinnerText (i : Z) : string :=
  Fmt.CR ++ " " ++ nth (Z.to_nat i) progressRunes "" ++ " ".

Definition statusText (ui : UI) (progress : CurrentProgress) : string :=
  "Scanning... Total items: " ++
  Color.wrap (NoColor ui) (red ui) (Fmt.itoa (ItemCount progress)) ++
  " size: " ++
  formatSize ui (TotalSize progress).

(** ** AnalyzePath as a transition system *)

(** Where the calling goroutine is. *)
Inductive main_pc : Type :=
| MainCheck                        (* before [ui.pathChecker(abspath)] *)
| MainProgress                     (* at [if ui.showProgress] *)
| MainScan                         (* at the second [wait.Add(1)] *)
| MainWait                         (* in [wait.Wait()] *)
| MainRender                       (* past the barrier, before [sort.Sort(dir.Files)] *)
| MainReturned (err : option error)
| MainPanic.                       (* [dir] read while nil *)

(** Where the goroutine that scans is. *)
Inductive scan_pc : Type :=
| ScanNotStarted
| ScanRunning                      (* inside [AnalyzeDir] *)
| ScanAssigned                     (* [dir] assigned, the deferred [wait.Done()] pending *)
| ScanDone.

(** Where the goroutine that runs [updateProgress] is. *)
Inductive poll_pc : Type :=
| PollNotStarted
| PollErase (i : Z)                                (* before [Fprint(emptyRow)] *)
| PollSelect (i : Z)                               (* in [select] *)
| PollSpinner (i : Z) (progress : CurrentProgress) (* before the spinner is written *)
| PollStatus (i : Z) (progress : CurrentProgress)  (* before the status is written *)
| PollSleep (i : Z)                                (* sleeping, then [i++; i %= 10] *)
| PollReturned                                     (* returned, [wait.Done()] pending *)
| PollDone.

Inductive writer : Type := ByPoller | ByMain.

Record state : Type := {
  main : main_pc;
  scan : scan_pc;
  poll : poll_pc;
  wait : Z;                                (* the counter of the WaitGroup *)
  dir : option Dir;                        (* the variable [dir]; [None] is nil *)
  progressChan : option CurrentProgress;   (* a snapshot ready to be received *)
  doneChan : bool;                         (* a completion signal ready to be received *)
  output : list (writer * string);         (* the writes to [ui.output], oldest first *)
}.

Definition set_main (s : state) (pc : main_pc) : state :=
  {| main := pc; scan := scan s; poll := poll s; wait := wait s; dir := dir s;
     progressChan := progressChan s; doneChan := doneChan s; output := output s |}.
Definition set_scan (s : state) (pc : scan_pc) : state :=
  {| main := main s; scan := pc; poll := poll s; wait := wait s; dir := dir s;
     progressChan := progressChan s; doneChan := doneChan s; output := output s |}.
Definition set_poll (s : state) (pc : poll_pc) : state :=
  {| main := main s; scan := scan s; poll := pc; wait := wait s; dir := dir s;
     progressChan := progressChan s; doneChan := doneChan s; output := output s |}.
Definition set_wait (s : state) (n : Z) : state :=
  {| main := main s; scan := scan s; poll := poll s; wait := n; dir := dir s;
     progressChan := progressChan s; doneChan := doneChan s; output := output s |}.
Definition set_dir (s : state) (d : option Dir) : state :=
  {| main := main s; scan := scan s; poll := poll s; wait := wait s; dir := d;
     progressChan := progressChan s; doneChan := doneChan s; output := output s |}.
Definition set_progressChan (s : state) (c : option CurrentProgress) : state :=
  {| main := main s; scan := scan s; poll := poll s; wait := wait s; dir := dir s;
     progressChan := c; doneChan := doneChan s; output := output s |}.
Definition set_doneChan (s : state) (c : bool) : state :=
  {| main := main s; scan := scan s; poll := poll s; wait := wait s; dir := dir s;
     progressChan := progressChan s; doneChan := c; output := output s |}.
Definition write (s : state) (w : writer) (texts : list string) : state :=
  {| main := main s; scan := scan s; poll := poll s; wait := wait s; dir := dir s;
     progressChan := progressChan s; doneChan := doneChan s;
     output := (output s ++ map (fun t => (w, t)) texts)%list |}.

(** What can happen next: a goroutine takes its next step, or the analyzer
    makes a snapshot or the completion signal ready.  When the poller is
    in [select], [PollerTakesProgress] and [PollerTakesDone] are the two
    cases of the statement; Go picks one of the cases that can proceed,
    so each is possible whenever its channel is ready. *)
Inductive action : Type :=
| MainStep
| ScanStep
| PollerStep
| PollerTakesProgress
| PollerTakesDone
| AnalyzerOffers (progress : CurrentProgress)
| AnalyzerSignalsDone.

(** The state [AnalyzePath(path, _)] starts in.  The second argument is
    the blank parameter of the method. *)
Definition AnalyzePath_init (ui : UI) (path : string) (_ : option Dir) : state :=
  {| main := MainCheck; scan := ScanNotStarted; poll := PollNotStarted;
     wait := 0; dir := None; progressChan := None; doneChan := false;
     output := [] |}.

Definition main_step (ext : Extern) (ui : UI) (path : string) (s : state) : option state :=
  match main s with
  | MainCheck =>
      match pathChecker ui (filepath_Abs ext path) with
      | Some err => Some (set_main s (MainReturned (Some err)))
      | None => Some (set_main s MainProgress)
      end
  | MainProgress =>
      if showProgress ui
      then Some (set_main (set_poll (set_wait s (wait s + 1)) (PollErase 0)) MainScan)
      else Some (set_main s MainScan)
  | MainScan =>
      Some (set_main (set_scan (set_wait s (wait s + 1)) ScanRunning) MainWait)
  | MainWait =>
      if wait s =? 0 then Some (set_main s MainRender) else None
  | MainRender =>
      match dir s with
      | None => Some (set_main s MainPanic)
      | Some d => Some (set_main (write s ByMain (listing ext ui d)) (MainReturned None))
      end
  | MainReturned _ => None
  | MainPanic => None
  end.

Definition scan_step (ext : Extern) (ui : UI) (path : string) (s : state) : option state :=
  match scan s with
  | ScanNotStarted => None
  | ScanRunning =>
      let d := AnalyzeDir (analyzer ui) (filepath_Abs ext path) (ShouldDirBeIgnored ui) in
      Some (set_scan (set_dir s (Some d)) ScanAssigned)
  | ScanAssigned => Some (set_scan (set_wait s (wait s - 1)) ScanDone)
  | ScanDone => None
  end.

(** The steps of [updateProgress] other than the [select]. *)
Definition poller_step (ui : UI) (s : state) : option state :=
  match poll s with
  | PollErase i => Some (set_poll (write s ByPoller [emptyRow]) (PollSelect i))
  | PollSpinner i progress =>
      Some (set_poll (write s ByPoller [spinnerText i]) (PollStatus i progress))
  | PollStatus i progress =>
      Some (set_poll (write s ByPoller [statusText ui progress]) (PollSleep i))
  | PollSleep i => Some (set_poll s (PollErase ((i + 1) mod 10)))
  | PollReturned => Some (set_poll (set_wait s (wait s - 1)) PollDone)
  | PollNotStarted | PollSelect _ | PollDone => None
  end.

(** [case progress = <-progressChan]. *)
Definition poller_takes_progress (s : state) : option state :=
  match poll s, progressChan s with
  | PollSelect i, Some progress =>
      Some (set_poll (set_progressChan s None) (PollSpinner i progress))
  | _, _ => None
  end.

(** [case <-doneChan]: write "\r" and return. *)
Definition poller_takes_done (s : state) : option state :=
  match poll s, doneChan s with
  | PollSelect i, true =>
      Some (set_poll (write (set_doneChan s false) ByPoller [Fmt.CR]) PollReturned)
  | _, _ => None
  end.

Definition step (ext : Extern) (ui : UI) (path : string) (a : action) (s : state)
    : option state :=
  match a with
  | MainStep => main_step ext ui path s
  | ScanStep => scan_step ext ui path s
  | PollerStep => poller_step ui s
  | PollerTakesProgress => poller_takes_progress s
  | PollerTakesDone => poller_takes_done s
  | AnalyzerOffers progress => Some (set_progressChan s (Some progress))
  | AnalyzerSignalsDone => Some (set_doneChan s true)
  end.

(** A schedule is a list of actions; it runs as long as each action is
    enabled in the state it meets. *)
Fixpoint run (ext : Extern) (ui : UI) (path : string) (sched : list action) (s : state)
    : option state :=
  match sched with
  | [] => Some s
  | a :: rest =>
      match step ext ui path a s with
      | Some s' => run ext ui path rest s'
      | None => None
      end
  end.

(** The states an execution of [AnalyzePath(path, arg)] passes through. *)
Definition reachable (ext : Extern) (ui : UI) (path : string) (arg : option Dir)
    (s : state) : Prop :=
  exists sched, run ext ui path sched (AnalyzePath_init ui path arg) = Some s.

(** What the poller, or the caller, has written. *)
Definition writer_eqb (a b : writer) : bool :=
  match a, b with
  | ByPoller, ByPoller | ByMain, ByMain => true
  | _, _ => false
  end.

Definition written_by (w : writer) (s : state) : list string :=
  map snd (List.filter (fun e => writer_eqb (fst e) w) (output s)).

Arguments written_by : simpl never.

(** ** Go's insertion sort

    [insertionSort] of package [sort], which [sort.Sort] runs on short
    slices: each element in turn is swapped leftwards while it is [Less]
    than its left neighbour.  [sorted_rev] is the sorted prefix, last
    element first. *)
Fixpoint insert_leftwards (less : Item -> Item -> bool) (x : Item) (sorted_rev : list Item)
    : list Item :=
  match sorted_rev with
  | [] => [x]
  | y :: rest =>
      if less x y then y :: insert_leftwards less x rest
      else x :: sorted_rev
  end.

Definition insertionSort (less : Item -> Item -> bool) (l : list Item) : list Item :=
  rev (fold_left (fun sorted_rev x => insert_leftwards less x sorted_rev) l []).

(** An order for [Files.Less]: larger usage first, the order upstream gdu
    gives [analyze.Files]. *)
Definition Less_by_usage (a b : Item) : bool := GetUsage b <? GetUsage a.

(** ** The barrier: what holds in every state of an execution *)

(** How much a goroutine contributes to the WaitGroup counter: one from
    the [wait.Add(1)] before it starts until its [wait.Done()]. *)
Definition scan_active (pc : scan_pc) : Z :=
  match pc with
  | ScanRunning | ScanAssigned => 1
  | ScanNotStarted | ScanDone => 0
  end.

Definition poll_active (pc : poll_pc) : Z :=
  match pc with
  | PollNotStarted | PollDone => 0
  | _ => 1
  end.

Definition poll_started (pc : poll_pc) : bool :=
  match pc with
  | PollNotStarted => false
  | _ => true
  end.

Definition scan_started (pc : scan_pc) : bool :=
  match pc with
  | ScanNotStarted => false
  | _ => true
  end.

(** The tree the scan goroutine assigns to [dir]. *)
Definition scanned (ext : Extern) (ui : UI) (path : string) : Dir :=
  AnalyzeDir (analyzer ui) (filepath_Abs ext path) (ShouldDirBeIgnored ui).

Definition barrier_inv (ext : Extern) (ui : UI) (path : string) (s : state) : Prop :=
  wait s = scan_active (scan s) + poll_active (poll s)
  /\ poll_started (poll s)
     = match main s with
       | MainCheck | MainProgress => false
       | _ => showProgress ui
       end
  /\ scan_started (scan s)
     = match main s with
       | MainCheck | MainProgress | MainScan => false
       | _ => true
       end
  /\ dir s
     = match scan s with
       | ScanAssigned | ScanDone => Some (scanned ext ui path)
       | ScanNotStarted | ScanRunning => None
       end
  /\ match main s with
     | MainRender => wait s = 0 /\ written_by ByMain s = []
     | MainReturned None =>
         wait s = 0 /\ written_by ByMain s = listing ext ui (scanned ext ui path)
     | MainReturned (Some _) | MainPanic => False
     | _ => written_by ByMain s = []
     end.

(** When the path check fails: nothing was started and nothing written. *)
Definition failed_inv (err : error) (s : state) : Prop :=
  (main s = MainCheck \/ main s = MainReturned (Some err))
  /\ scan s = ScanNotStarted
  /\ poll s = PollNotStarted
  /\ wait s = 0
  /\ dir s = None
  /\ output s = [].

(** ** Concrete inputs for the examples *)

Definition entry (name : string) (size usage : Z) (is_dir : bool) : Item :=
  {| GetName := name; GetSize := size; GetUsage := usage; IsDir := is_dir; GetFlag := " " |}.

Definition example_analyzer : Analyzer :=
  {| AnalyzeDir := fun _ _ =>
       {| Files := [entry "a" 100 100 false; entry "b" 300 300 true] |} |}.

(** A UI without colours, for paths that exist ([stat] never fails). *)
Definition example_ui (showProgress showApparentSize : bool) : UI :=
  CreateStdoutUI example_analyzer (fun _ => None) true false showProgress showApparentSize.

(** A UI whose path check fails. *)
Definition example_ui_no_path : UI :=
  CreateStdoutUI example_analyzer (fun _ => Some "no such file or directory")
                 true false true false.

(** The outside world of the examples, right for the inputs they use and
    for no more: absolute paths are given as they are, a format without
    a verb is printed as it is, and the slices sorted have fewer than
    twelve entries, on which [sort.Sort] runs its insertion sort.  No
    general theorem below depends on it. *)
Definition example_ext : Extern :=
  {| filepath_Abs := fun p => p;
     fmt_Sprintf := fun format => format;
     sort_Sort := insertionSort;
     Files_Less := Less_by_usage |}.

Definition example_progress : CurrentProgress :=
  {| CurrentItemName := "a"; ItemCount := 12; TotalSize := 123456 |}.

(** A complete execution with the poller: one snapshot is rendered, then
    completion is taken, both goroutines finish and the caller prints. *)
Definition example_schedule : list action :=
  [MainStep; MainStep; MainStep; PollerStep; AnalyzerOffers example_progress;
   PollerTakesProgress; PollerStep; PollerStep; PollerStep; PollerStep;
   ScanStep; AnalyzerSignalsDone; PollerTakesDone; PollerStep; ScanStep;
   MainStep; MainStep].

(** ** The poller *)

(** [updateProgress] has returned. *)
Definition poller_returned (s : state) : Prop :=
  poll s = PollReturned \/ poll s = PollDone.

(** The poller exists only once the caller is past the statement that
    starts it. *)
Definition spawn_inv (s : state) : Prop :=
  poll_started (poll s) = true ->
  match main s with
  | MainCheck | MainProgress => False
  | _ => True
  end.

(** The poller is in [select] with a snapshot and the completion signal
    both ready: the prefix of [example_schedule] up to the first
    [select], with both channels made ready. *)
Definition example_race_schedule : list action :=
  [MainStep; MainStep; MainStep; PollerStep;
   AnalyzerOffers example_progress; AnalyzerSignalsDone].

(** ** Orders and what [sort.Sort] promises *)

Definition non_increasing (sizes : list Z) : Prop := Sorted Z.ge sizes.

(** What [sort.Interface] asks of [Less]: a strict weak order. *)
Record strict_weak_order (less : Item -> Item -> bool) : Prop := {
  swo_irrefl : forall a, less a a = false;
  swo_trans : forall a b c, less a b = true -> less b c = true -> less a c = true;
  swo_neg_trans : forall a b c, less a b = false -> less b c = false -> less a c = false;
}.

(** [sort.Sort] moves elements only by [Swap]. *)
Definition sort_permutes (sort : (Item -> Item -> bool) -> list Item -> list Item) : Prop :=
  forall less l, Permutation (sort less l) l.

(** [sort.Sort] leaves the slice in ascending order as [Less] determines
    it: no element is [Less] than one before it. *)
Definition sort_orders (sort : (Item -> Item -> bool) -> list Item -> list Item) : Prop :=
  forall less l, strict_weak_order less ->
                 StronglySorted (fun a b => less b a = false) (sort less l).

(** Equal elements, as [less] sees them, and a stable rearrangement: the
    elements equal to any given one keep their order. *)
Definition equivalent (less : Item -> Item -> bool) (a b : Item) : bool :=
  negb (less a b) && negb (less b a).

Definition stable (less : Item -> Item -> bool) (input output : list Item) : Prop :=
  forall x, List.filter (equivalent less x) output = List.filter (equivalent less x) input.

(** Two entries whose apparent sizes and usages are in opposite orders. *)
Definition example_crossed : Dir :=
  {| Files := [entry "a" 1 2 false; entry "b" 2 1 false] |}.

(** ** The unit buckets, as the specification words them *)

Inductive unit_bucket : Type := UnitB | UnitKiB | UnitMiB | UnitGiB | UnitTiB.

(** Exclusive lower bounds, powers of ten. *)
Definition bucket (b : Z) : unit_bucket :=
  if 10 ^ 12 <? b then UnitTiB
  else if 10 ^ 9 <? b then UnitGiB
  else if 10 ^ 6 <? b then UnitMiB
  else if 10 ^ 3 <? b then UnitKiB
  else UnitB.

Definition unit_label (u : unit_bucket) : string :=
  match u with
  | UnitB => " B"
  | UnitKiB => " KiB"
  | UnitMiB => " MiB"
  | UnitGiB => " GiB"
  | UnitTiB => " TiB"
  end.

(** The divisor of a bucket is two to this power. *)
Definition unit_shift (u : unit_bucket) : Z :=
  match u with
  | UnitB => 0
  | UnitKiB => 10
  | UnitMiB => 20
  | UnitGiB => 30
  | UnitTiB => 40
  end.

(** The number printed for [b] in bucket [u]: the integer itself, or the
    quotient by the bucket's divisor with one decimal. *)
Definition bucket_number (b : Z) (u : unit_bucket) : string :=
  match u with
  | UnitB => Fmt.itoa b
  | _ => Float64.format_f 1 (Float64.div (Float64.of_int b) (Float64.pow2 (unit_shift u)))
  end.

(** ** Exact rounding, as the specification words it *)

(** The integer nearest to [num / den], halves to even ([den] positive). *)
Definition round_half_even (num den : Z) : Z :=
  let q := num / den in
  let r := num mod den in
  if den <? 2 * r then q + 1
  else if (den =? 2 * r) && Z.odd q then q + 1
  else q.

(** The integer nearest to [num / den], halves away from zero. *)
Definition round_half_away (num den : Z) : Z :=
  Z.sgn num * Z.sgn den * ((2 * Z.abs num + Z.abs den) / (2 * Z.abs den)).

(** [num / den] with one decimal. *)
Definition one_decimal (num den : Z) : string :=
  Float64.decimal 1 (round_half_even (10 * num) den).

(** The numeral of [t] tenths, for [t] not negative: the integer part, a
    point and one digit, written with the decimal numerals of the
    Standard Library and with nothing of the printer of [%.1f] above. *)
Definition tenths_text (t : Z) : string :=
  NilZero.string_of_int (Z.to_int (t / 10)) ++ "." ++
  NilZero.string_of_int (Z.to_int (t mod 10)).

(** [num / den] rounded to one decimal place, as a text. *)
Definition quotient_one_decimal (num den : Z) : string :=
  tenths_text (round_half_even (10 * num) den).

(** A byte count above 2^53 that is no double: [float64] of it is the
    even neighbour below, and the quotients by 2^40 of the two lie on
    either side of 8192.05. *)
Definition example_large_count : Z := 9007254230322381.

(** The longest device name, in bytes. *)
Definition longest_name (devices : list Device) : Z :=
  fold_right (fun d longest => Z.max (len (Name d)) longest) 0 devices.

(** ** Devices for the examples *)

Definition example_sda1 : Device :=
  {| Name := "sda1"; MountPoint := "/"; Size := 1000; Free := 400 |}.


(** 23 of 40 used: 57.5 percent. *)
Definition example_half_device : Device :=
  {| Name := "sdb1"; MountPoint := "/mnt"; Size := 40; Free := 17 |}.

(** ** Rounding, for the proofs about float64 *)

(** Where a remainder [R] of a division by [D] lies: it is zero, or it is
    below, at or above one half of [D].  [SpecFloat] calls this the
    location of the exact result between two consecutive mantissas. *)
Definition location_of (R D : Z) : location :=
  if R =? 0 then loc_Exact else loc_Inexact (2 * R ?= D).

(** A mantissa with its rounding bits stands for the quotient [N / D]. *)
Definition represents (N D : Z) (mrs : shr_record) : Prop :=
  shr_m mrs = N / D /\ loc_of_shr_record mrs = location_of (N mod D) D.

(** The real number a positive finite double with mantissa [m] and
    exponent [e] stands for. *)
Definition double_value (m : positive) (e : Z) : R := (IZR (Z.pos m) * powerRZ 2 e)%R.

(** A sort that keeps the promise of [sort.Sort] and is not stable:
    insertion sort by the opposite order, reversed.  It stands for no
    code of the program; it shows what the promise leaves open. *)
Definition reversing_sort (less : Item -> Item -> bool) (l : list Item) : list Item :=
  rev (insertionSort (fun a b => less b a) l).

(** Two entries of equal usage. *)
Definition example_ties : list Item :=
  [entry "a" 1 5 false; entry "c" 2 5 false].

(** ** Vocabulary of the further properties *)

(** A write that ends a line. *)
Definition ends_with_newline (s : string) : Prop := exists t, s = t ++ Fmt.LF.

(** [P] holds of every integer from 0 up to [n], [n] excluded. *)
Definition all_below (n : Z) (P : Z -> bool) : bool :=
  forallb (fun k => P (Z.of_nat k)) (seq 0 (Z.to_nat n)).

(** The text contains the byte ESC, with which every SGR sequence starts. *)
Definition has_escape (s : string) : bool :=
  existsb (Ascii.eqb (ascii_of_nat 27)) (list_ascii_of_string s).

(** Every byte of the text is below 0x80: each is a rune of its own. *)
Definition is_ascii (s : string) : bool := forallb (fun c => c <? 0x80) (Fmt.bytes_of s).

(** The number of spaces [%<w>s] puts before its operand. *)
Definition padding (w : nat) (s : string) : nat := (w - Fmt.RuneCountInString s)%nat.

(** ** What updateProgress draws *)

(** The index [i] of the loop, where the poller is inside the loop. *)
Definition poll_index (pc : poll_pc) : option Z :=
  match pc with
  | PollErase i | PollSelect i | PollSpinner i _ | PollStatus i _ | PollSleep i => Some i
  | PollNotStarted | PollReturned | PollDone => None
  end.

(** The writes of complete iterations, one per snapshot received, the
    first of them being iteration number [k]: the erasing row, the glyph
    of the iteration and the status of the snapshot. *)
Fixpoint frames (ui : UI) (k : Z) (snapshots : list CurrentProgress) : list string :=
  match snapshots with
  | [] => []
  | progress :: rest =>
      emptyRow :: spinnerText (k mod 10) :: statusText ui progress :: frames ui (k + 1) rest
  end.

(** The writes of the iteration the poller is in, or of its last one. *)
Definition pending_frame (pc : poll_pc) : list string :=
  match pc with
  | PollNotStarted | PollErase _ | PollSleep _ => []
  | PollSelect _ | PollSpinner _ _ => [emptyRow]
  | PollStatus i _ => [emptyRow; spinnerText i]
  | PollReturned | PollDone => [emptyRow; Fmt.CR]
  end.

(** The index agrees with the number [n] of snapshots drawn so far. *)
Definition index_agrees (pc : poll_pc) (n : Z) : Prop :=
  match pc with
  | PollErase i | PollSelect i | PollSpinner i _ | PollStatus i _ => i = n mod 10
  | PollSleep i => 0 < n /\ i = (n - 1) mod 10
  | PollNotStarted => n = 0
  | PollReturned | PollDone => True
  end.

(** The snapshots the analyzer offers along a schedule, in order. *)
Definition offered (sched : list action) : list CurrentProgress :=
  flat_map (fun a => match a with AnalyzerOffers progress => [progress] | _ => [] end) sched.

(** The snapshot the poller has received and not yet drawn in full. *)
Definition in_hand (pc : poll_pc) : list CurrentProgress :=
  match pc with
  | PollSpinner _ progress | PollStatus _ progress => [progress]
  | _ => []
  end.

(** The snapshot ready on the channel. *)
Definition ready (c : option CurrentProgress) : list CurrentProgress :=
  match c with
  | Some progress => [progress]
  | None => []
  end.

(** The snapshots drawn in full are [snapshots]; with the one in hand and
    the one ready they were offered in this order. *)
Definition snapshots_inv (ui : UI) (history : list action) (s : state) : Prop :=
  exists snapshots,
    written_by ByPoller s = (frames ui 0 snapshots ++ pending_frame (poll s))%list
    /\ index_agrees (poll s) (Z.of_nat (length snapshots))
    /\ sublist (snapshots ++ in_hand (poll s) ++ ready (progressChan s))%list (offered history).

(** The sink holds the writes of the poller, then those of the caller. *)
Definition poller_first (s : state) : Prop :=
  output s = (map (fun t => (ByPoller, t)) (written_by ByPoller s)
              ++ map (fun t => (ByMain, t)) (written_by ByMain s))%list.

(** The analyzer makes its completion signal ready. *)
Definition is_done_signal (a : action) : bool :=
  match a with
  | AnalyzerSignalsDone => true
  | _ => false
  end.

(** The shortest complete execution: with the poller, the completion
    signal is taken at the first [select]. *)
Definition shortest_schedule (ui : UI) : list action :=
  if showProgress ui
  then [MainStep; MainStep; MainStep; PollerStep; AnalyzerSignalsDone; PollerTakesDone;
        PollerStep; ScanStep; ScanStep; MainStep; MainStep]
  else [MainStep; MainStep; MainStep; ScanStep; ScanStep; MainStep; MainStep].

(** The steps that bring the poller to its end, given that the analyzer
    signals completion when the poller is next in [select]. *)
Definition finish_poller (pc : poll_pc) : list action :=
  match pc with
  | PollNotStarted | PollDone => []
  | PollErase _ => [PollerStep; AnalyzerSignalsDone; PollerTakesDone; PollerStep]
  | PollSelect _ => [AnalyzerSignalsDone; PollerTakesDone; PollerStep]
  | PollSpinner _ _ =>
      [PollerStep; PollerStep; PollerStep; PollerStep; AnalyzerSignalsDone;
       PollerTakesDone; PollerStep]
  | PollStatus _ _ =>
      [PollerStep; PollerStep; PollerStep; AnalyzerSignalsDone; PollerTakesDone; PollerStep]
  | PollSleep _ => [PollerStep; PollerStep; AnalyzerSignalsDone; PollerTakesDone; PollerStep]
  | PollReturned => [PollerStep]
  end.

(** The steps that bring the scan goroutine to its end. *)
Definition finish_scan (pc : scan_pc) : list action :=
  match pc with
  | ScanNotStarted | ScanDone => []
  | ScanRunning => [ScanStep; ScanStep]
  | ScanAssigned => [ScanStep]
  end.

(* ===================================================================== *)
(** * Part II: properties *)
(* ===================================================================== *)

(** ** The ignore set *)

Section IgnoreSet.

Implicit Types (ui : UI) (paths : list string) (m : gmap string ()).

Lemma insert_all_lookup paths m p :
  fold_left (fun (m : gmap string ()) path => <[path := ()]> m) paths m !! p = Some ()
  <-> In p paths \/ m !! p = Some ().
Proof.
  revert m. induction paths as [|q paths IH]; intros m; simpl.
  - tauto.
  - rewrite IH. destruct (decide (q = p)) as [->|Hne].
    + rewrite lookup_insert_eq. tauto.
    + rewrite lookup_insert_ne by done. split; intros [H|H]; auto.
      destruct H as [H|H]; [congruence|auto].
Qed.

Lemma ShouldDirBeIgnored_after_set ui paths p :
  ShouldDirBeIgnored (SetIgnoreDirPaths ui paths) p = true <-> In p paths.
Proof.
  unfold ShouldDirBeIgnored, SetIgnoreDirPaths; simpl.
  pose proof (insert_all_lookup paths ∅ p) as H.
  rewrite lookup_empty in H.
  destruct (fold_left _ paths ∅ !! p) as [[]|] eqn:E.
  - split; [intros _|done]. destruct H as [H _]. destruct H; [done|done|discriminate].
  - split; [discriminate|]. intros Hin. destruct H as [_ H].
    specialize (H (or_introl Hin)). discriminate.
Qed.

Lemma calls_app ui cs1 cs2 : calls ui (cs1 ++ cs2) = calls (calls ui cs1) cs2.
Proof. unfold calls. apply fold_left_app. Qed.

Lemma calls_lookups ui qs : calls ui (map CallShould qs) = ui.
Proof. induction qs as [|q qs IH]; [done|]. exact IH. Qed.

(** C9.  After any earlier calls, a call of [SetIgnoreDirPaths] with
    [paths] and any number of lookups, [ShouldDirBeIgnored p] is true
    exactly when [p] is one of [paths]: the earlier paths are gone, and
    a lookup leaves the UI, and with it the set, as it was. *)
Theorem ShouldDirBeIgnored_most_recent_set ui (earlier : list IgnoreCall) paths
    (lookups : list string) p :
  let ui' := calls ui (earlier ++ [CallSet paths] ++ map CallShould lookups) in
  (ShouldDirBeIgnored ui' p = true <-> In p paths)
  /\ call ui' (CallShould p) = (ui', Some (ShouldDirBeIgnored ui' p))
  /\ ignoreDirPaths ui' = ignoreDirPaths (SetIgnoreDirPaths ui paths).
Proof.
  intros ui'. subst ui'.
  rewrite !calls_app, calls_lookups. simpl.
  split; [apply ShouldDirBeIgnored_after_set|]. split; reflexivity.
Qed.

End IgnoreSet.

(** ** Executions of AnalyzePath *)

Section Executions.

Context (ext : Extern) (ui : UI) (path : string).

(** A property that holds initially and is kept by every step holds in
    every state a schedule reaches. *)
Lemma run_invariant (P : state -> Prop) :
  (forall a s s', P s -> step ext ui path a s = Some s' -> P s') ->
  forall sched s s', P s -> run ext ui path sched s = Some s' -> P s'.
Proof.
  intros Hstep. induction sched as [|a sched IH]; intros s s' HP Hrun; simpl in Hrun.
  - congruence.
  - destruct (step ext ui path a s) as [s1|] eqn:E; [|discriminate].
    eapply IH; [|exact Hrun]. eapply Hstep; eauto.
Qed.

Lemma reachable_invariant (P : state -> Prop) arg :
  P (AnalyzePath_init ui path arg) ->
  (forall a s s', P s -> step ext ui path a s = Some s' -> P s') ->
  forall s, reachable ext ui path arg s -> P s.
Proof.
  intros Hinit Hstep s [sched Hrun]. eapply run_invariant; eauto.
Qed.

End Executions.

(** ** C10: the blank parameter *)

(** C10.  The second argument of [AnalyzePath] is discarded: whatever it
    is, every schedule leads from the initial state to the same state, so
    the writes and the result are the same. *)
Theorem AnalyzePath_second_argument_irrelevant (ext : Extern) (ui : UI) (path : string)
    (arg1 arg2 : option Dir) (sched : list action) :
  run ext ui path sched (AnalyzePath_init ui path arg1)
  = run ext ui path sched (AnalyzePath_init ui path arg2)
  /\ forall s, reachable ext ui path arg1 s <-> reachable ext ui path arg2 s.
Proof.
  split; [reflexivity|]. intros s. unfold reachable. reflexivity.
Qed.

(** ** What each side has written *)

Lemma written_by_write_same (w : writer) (s : state) (texts : list string) :
  written_by w (write s w texts) = (written_by w s ++ texts)%list.
Proof.
  unfold written_by, write; simpl.
  rewrite List.filter_app, map_app. f_equal.
  induction texts as [|t texts IH]; simpl; [done|].
  destruct w; simpl; f_equal; exact IH.
Qed.

Lemma written_by_write_other (w w' : writer) (s : state) (texts : list string) :
  writer_eqb w' w = false ->
  written_by w (write s w' texts) = written_by w s.
Proof.
  intros Hne. unfold written_by, write; simpl.
  rewrite List.filter_app, map_app.
  replace (List.filter _ (map (fun t => (w', t)) texts)) with (@nil (writer * string)).
  - simpl. apply app_nil_r.
  - induction texts as [|t texts IH]; simpl; [done|]. rewrite Hne. exact IH.
Qed.

Lemma written_by_set_main (w : writer) (s : state) (pc : main_pc) :
  written_by w (set_main s pc) = written_by w s.
Proof. reflexivity. Qed.

Lemma written_by_set_scan (w : writer) (s : state) (pc : scan_pc) :
  written_by w (set_scan s pc) = written_by w s.
Proof. reflexivity. Qed.

Lemma written_by_set_poll (w : writer) (s : state) (pc : poll_pc) :
  written_by w (set_poll s pc) = written_by w s.
Proof. reflexivity. Qed.

Lemma written_by_set_wait (w : writer) (s : state) (n : Z) :
  written_by w (set_wait s n) = written_by w s.
Proof. reflexivity. Qed.

Lemma written_by_set_dir (w : writer) (s : state) (d : option Dir) :
  written_by w (set_dir s d) = written_by w s.
Proof. reflexivity. Qed.

Lemma written_by_set_progressChan (w : writer) (s : state) (c : option CurrentProgress) :
  written_by w (set_progressChan s c) = written_by w s.
Proof. reflexivity. Qed.

Lemma written_by_set_doneChan (w : writer) (s : state) (c : bool) :
  written_by w (set_doneChan s c) = written_by w s.
Proof. reflexivity. Qed.

Create Rewrite HintDb written.

#[local] Hint Rewrite written_by_set_main written_by_set_scan written_by_set_poll
  written_by_set_wait written_by_set_dir written_by_set_progressChan
  written_by_set_doneChan written_by_write_same : written.

(** ** C5: a failed path check *)

Lemma failed_inv_step (ext : Extern) (ui : UI) (path : string) (err : error) :
  pathChecker ui (filepath_Abs ext path) = Some err ->
  forall a s s', failed_inv err s -> step ext ui path a s = Some s' -> failed_inv err s'.
Proof.
  intros Hfail a s s' (Hmain & Hscan & Hpoll & Hwait & Hdir & Hout) Hstep.
  unfold failed_inv.
  destruct a; simpl in Hstep.
  - unfold main_step in Hstep. destruct Hmain as [Hm|Hm]; rewrite Hm in Hstep.
    + rewrite Hfail in Hstep. injection Hstep as <-. simpl. tauto.
    + discriminate.
  - unfold scan_step in Hstep. rewrite Hscan in Hstep. discriminate.
  - unfold poller_step in Hstep. rewrite Hpoll in Hstep. discriminate.
  - unfold poller_takes_progress in Hstep. rewrite Hpoll in Hstep. discriminate.
  - unfold poller_takes_done in Hstep. rewrite Hpoll in Hstep. discriminate.
  - injection Hstep as <-. simpl. tauto.
  - injection Hstep as <-. simpl. tauto.
Qed.

(** C5.  If the path check fails with [err], the first step of the call
    returns [err], and in every state of the execution neither goroutine
    has been started and nothing has been written to the sink. *)
Theorem AnalyzePath_path_check_fails (ext : Extern) (ui : UI) (path : string)
    (arg : option Dir) (err : error) :
  pathChecker ui (filepath_Abs ext path) = Some err ->
  (exists s, step ext ui path MainStep (AnalyzePath_init ui path arg) = Some s
             /\ main s = MainReturned (Some err))
  /\ forall s, reachable ext ui path arg s ->
       (main s = MainCheck \/ main s = MainReturned (Some err))
       /\ scan s = ScanNotStarted
       /\ poll s = PollNotStarted
       /\ output s = [].
Proof.
  intros Hfail. split.
  - eexists. split.
    + simpl. unfold main_step. simpl. rewrite Hfail. reflexivity.
    + reflexivity.
  - intros s Hreach.
    assert (failed_inv err s) as (Hmain & Hscan & Hpoll & _ & _ & Hout).
    { eapply reachable_invariant; [| apply failed_inv_step; exact Hfail | exact Hreach].
      unfold failed_inv; simpl. tauto. }
    tauto.
Qed.

Lemma AnalyzePath_path_check_fails_witness :
  pathChecker example_ui_no_path (filepath_Abs example_ext "/nowhere")
  = Some "no such file or directory"
  /\ ((exists s, step example_ext example_ui_no_path "/nowhere" MainStep
                   (AnalyzePath_init example_ui_no_path "/nowhere" None) = Some s
                 /\ main s = MainReturned (Some "no such file or directory"))
      /\ forall s, reachable example_ext example_ui_no_path "/nowhere" None s ->
           (main s = MainCheck \/ main s = MainReturned (Some "no such file or directory"))
           /\ scan s = ScanNotStarted
           /\ poll s = PollNotStarted
           /\ output s = []).
Proof.
  split; [reflexivity|].
  apply (AnalyzePath_path_check_fails example_ext example_ui_no_path "/nowhere" None
           "no such file or directory").
  reflexivity.
Defined.

(** ** C1: the barrier *)

Lemma barrier_inv_init (ext : Extern) (ui : UI) (path : string) (arg : option Dir) :
  barrier_inv ext ui path (AnalyzePath_init ui path arg).
Proof. unfold barrier_inv; simpl. tauto. Qed.

Ltac barrier_step :=
  unfold barrier_inv; simpl;
  autorewrite with written;
  rewrite ?written_by_write_other by reflexivity;
  autorewrite with written;
  repeat match goal with
         | H : main _ = _ |- _ => rewrite H in *
         | H : scan _ = _ |- _ => rewrite H in *
         | H : poll _ = _ |- _ => rewrite H in *
         | H : showProgress _ = _ |- _ => rewrite H in *
         | H : dir _ = _ |- _ => rewrite H in *
         end;
  simpl in *.

(** Closes the conjuncts of the invariant by cases on where the three
    goroutines are. *)
Ltac barrier_close s :=
  repeat split; try tauto; try lia;
  destruct (main s) as [| | | | |[?|]|]; simpl in *;
  try tauto; try discriminate; try lia;
  destruct (scan s); simpl in *; try discriminate; try tauto; try lia;
  destruct (poll s); simpl in *; try discriminate; try tauto; lia.

Lemma barrier_inv_step (ext : Extern) (ui : UI) (path : string) :
  pathChecker ui (filepath_Abs ext path) = None ->
  forall a s s', barrier_inv ext ui path s -> step ext ui path a s = Some s' ->
                 barrier_inv ext ui path s'.
Proof.
  intros Hok a s s' (Hwait & Hpoll & Hscan & Hdir & Hmain) Hstep.
  destruct a; simpl in Hstep.
  - (* the caller *)
    unfold main_step in Hstep.
    destruct (main s) eqn:Em; try discriminate.
    + rewrite Hok in Hstep. injection Hstep as <-. barrier_step. barrier_close s.
    + destruct (showProgress ui) eqn:Ep; injection Hstep as <-; barrier_step;
        barrier_close s.
    + injection Hstep as <-. barrier_step. barrier_close s.
    + destruct (wait s =? 0) eqn:Ew; [|discriminate]. injection Hstep as <-.
      apply Z.eqb_eq in Ew. barrier_step. barrier_close s.
    + destruct Hmain as [Hw Hwr].
      assert (scan s = ScanDone) as Es.
      { destruct (scan s), (poll s); simpl in *; try discriminate; try lia; reflexivity. }
      rewrite Es in Hdir. rewrite Hdir in Hstep. injection Hstep as <-.
      barrier_step. rewrite Hwr. simpl. tauto.
  - (* the scan goroutine *)
    unfold scan_step in Hstep.
    destruct (scan s) eqn:Es; try discriminate; injection Hstep as <-; barrier_step;
      barrier_close s.
  - (* the poller, outside select *)
    unfold poller_step in Hstep.
    destruct (poll s) eqn:Ep; try discriminate; injection Hstep as <-; barrier_step;
      barrier_close s.
  - (* select takes a snapshot *)
    unfold poller_takes_progress in Hstep.
    destruct (poll s) eqn:Ep; try discriminate.
    destruct (progressChan s); try discriminate.
    injection Hstep as <-. barrier_step. barrier_close s.
  - (* select takes completion *)
    unfold poller_takes_done in Hstep.
    destruct (poll s) eqn:Ep; try discriminate.
    destruct (doneChan s); try discriminate.
    injection Hstep as <-. barrier_step. barrier_close s.
  - injection Hstep as <-. exact (conj Hwait (conj Hpoll (conj Hscan (conj Hdir Hmain)))).
  - injection Hstep as <-. exact (conj Hwait (conj Hpoll (conj Hscan (conj Hdir Hmain)))).
Qed.

Lemma barrier_inv_reachable (ext : Extern) (ui : UI) (path : string) (arg : option Dir)
    (s : state) :
  pathChecker ui (filepath_Abs ext path) = None ->
  reachable ext ui path arg s ->
  barrier_inv ext ui path s.
Proof.
  intros Hok Hreach.
  eapply reachable_invariant;
    [apply barrier_inv_init | apply barrier_inv_step; exact Hok | exact Hreach].
Qed.

(** C1.  In an execution of [AnalyzePath] whose path check succeeds:
    - once the caller is past [wait.Wait()], and so when it has returned,
      the scan goroutine has run its [wait.Done()], and so has the poller
      when [showProgress] is set; [dir] then holds the analyzer's tree;
    - when [showProgress] is not set the poller is never started, and
      the scan goroutine alone is awaited;
    - the caller never reads [dir] while it is nil, and whatever it has
      written, it wrote after the barrier: its writes are the listing of
      the scanned tree, present only once it has returned. *)
Theorem AnalyzePath_barrier (ext : Extern) (ui : UI) (path : string) (arg : option Dir)
    (s : state) :
  pathChecker ui (filepath_Abs ext path) = None ->
  reachable ext ui path arg s ->
  (main s = MainRender \/ main s = MainReturned None ->
     scan s = ScanDone
     /\ poll s = (if showProgress ui then PollDone else PollNotStarted)
     /\ wait s = 0
     /\ dir s = Some (scanned ext ui path))
  /\ (showProgress ui = false -> poll s = PollNotStarted)
  /\ main s <> MainPanic
  /\ (forall err, main s <> MainReturned (Some err))
  /\ written_by ByMain s
     = match main s with
       | MainReturned None => listing ext ui (scanned ext ui path)
       | _ => []
       end.
Proof.
  intros Hok Hreach.
  destruct (barrier_inv_reachable ext ui path arg s Hok Hreach)
    as (Hwait & Hpoll & Hscan & Hdir & Hmain).
  repeat split.
  - destruct H as [H|H]; rewrite H in *; destruct Hmain as [Hw _];
      destruct (scan s), (poll s); simpl in *; try discriminate; try lia; reflexivity.
  - destruct H as [H|H]; rewrite H in *; destruct Hmain as [Hw _];
      destruct (poll s), (showProgress ui); simpl in *; try discriminate;
      try reflexivity; destruct (scan s); simpl in *; lia.
  - destruct H as [H|H]; rewrite H in *; tauto.
  - destruct H as [H|H]; rewrite H in *; destruct Hmain as [Hw _];
      destruct (scan s), (poll s); simpl in *; try discriminate; try lia; exact Hdir.
  - intros Hp. rewrite Hp in Hpoll.
    destruct (poll s); simpl in *; try reflexivity;
      destruct (main s); discriminate.
  - intros Hm. rewrite Hm in Hmain. exact Hmain.
  - intros err Hm. rewrite Hm in Hmain. exact Hmain.
  - destruct (main s) as [| | | | |[e|]|]; tauto.
Qed.

Lemma AnalyzePath_barrier_witness :
  exists s,
    pathChecker (example_ui true false) (filepath_Abs example_ext "/data") = None
    /\ reachable example_ext (example_ui true false) "/data" None s
    /\ main s = MainReturned None
    /\ scan s = ScanDone
    /\ poll s = PollDone
    /\ written_by ByMain s = listing example_ext (example_ui true false)
                               (scanned example_ext (example_ui true false) "/data").
Proof.
  destruct (run example_ext (example_ui true false) "/data" example_schedule
              (AnalyzePath_init (example_ui true false) "/data" None)) as [s|] eqn:Hrun;
    [|vm_compute in Hrun; discriminate].
  exists s.
  assert (pathChecker (example_ui true false) (filepath_Abs example_ext "/data") = None)
    as Hok by reflexivity.
  assert (reachable example_ext (example_ui true false) "/data" None s) as Hreach
    by (exists example_schedule; exact Hrun).
  assert (main s = MainReturned None) as Hmain
    by (vm_compute in Hrun; injection Hrun as <-; reflexivity).
  destruct (AnalyzePath_barrier example_ext (example_ui true false) "/data" None s
              Hok Hreach) as (Hbar & _ & _ & _ & Hwritten).
  destruct (Hbar (or_intror Hmain)) as (Hscan & Hpoll & _ & _).
  rewrite Hmain in Hwritten.
  repeat split; assumption.
Defined.

(** ** C2: the select of the poller *)

Lemma spawn_inv_step (ext : Extern) (ui : UI) (path : string) (a : action) (s s' : state) :
  spawn_inv s -> step ext ui path a s = Some s' -> spawn_inv s'.
Proof.
  unfold spawn_inv. intros Hinv Hstep.
  destruct a; simpl in Hstep;
    unfold main_step, scan_step, poller_step, poller_takes_progress, poller_takes_done
      in Hstep.
  - destruct (main s) eqn:Em; try discriminate.
    + destruct (pathChecker ui _); injection Hstep as <-; simpl; auto.
    + destruct (showProgress ui); injection Hstep as <-; simpl; auto.
    + injection Hstep as <-; simpl; auto.
    + destruct (wait s =? 0); [|discriminate]. injection Hstep as <-; simpl; auto.
    + destruct (dir s); injection Hstep as <-; simpl; auto.
  - destruct (scan s); try discriminate; injection Hstep as <-; simpl; exact Hinv.
  - destruct (poll s) eqn:Ep; try discriminate; injection Hstep as <-; simpl; intros _;
      apply Hinv; reflexivity.
  - destruct (poll s) eqn:Ep; try discriminate.
    destruct (progressChan s); try discriminate.
    injection Hstep as <-; simpl. intros _. apply Hinv; reflexivity.
  - destruct (poll s) eqn:Ep; try discriminate.
    destruct (doneChan s); try discriminate.
    injection Hstep as <-; simpl. intros _. apply Hinv; reflexivity.
  - injection Hstep as <-; simpl; exact Hinv.
  - injection Hstep as <-; simpl; exact Hinv.
Qed.

Lemma spawn_inv_reachable (ext : Extern) (ui : UI) (path : string) (arg : option Dir)
    (s : state) :
  reachable ext ui path arg s -> spawn_inv s.
Proof.
  intros Hreach.
  eapply reachable_invariant; [| intros a s1 s2; apply spawn_inv_step | exact Hreach].
  unfold spawn_inv; simpl. discriminate.
Qed.

(** Once [updateProgress] has returned, no step changes what the poller
    has written, and the poller stays returned. *)
Lemma poller_returned_step (ext : Extern) (ui : UI) (path : string) (a : action)
    (s s' : state) :
  spawn_inv s -> poller_returned s -> step ext ui path a s = Some s' ->
  poller_returned s' /\ written_by ByPoller s' = written_by ByPoller s.
Proof.
  unfold spawn_inv, poller_returned. intros Hinv Hret Hstep.
  assert (poll_started (poll s) = true) as Hstarted
    by (destruct Hret as [-> | ->]; reflexivity).
  specialize (Hinv Hstarted).
  destruct a; simpl in Hstep;
    unfold main_step, scan_step, poller_step, poller_takes_progress, poller_takes_done
      in Hstep.
  - destruct (main s) eqn:Em; try discriminate; try contradiction.
    + injection Hstep as <-; simpl; auto.
    + destruct (wait s =? 0); [|discriminate]. injection Hstep as <-; simpl; auto.
    + destruct (dir s); injection Hstep as <-; simpl; autorewrite with written;
        rewrite ?written_by_write_other by reflexivity; auto.
  - destruct (scan s); try discriminate; injection Hstep as <-; simpl; auto.
  - destruct Hret as [Hp|Hp]; rewrite Hp in Hstep; [|discriminate].
    injection Hstep as <-; simpl; auto.
  - destruct Hret as [Hp|Hp]; rewrite Hp in Hstep; discriminate.
  - destruct Hret as [Hp|Hp]; rewrite Hp in Hstep; discriminate.
  - injection Hstep as <-; simpl; auto.
  - injection Hstep as <-; simpl; auto.
Qed.

Lemma poller_returned_run (ext : Extern) (ui : UI) (path : string) (sched : list action)
    (s s' : state) :
  spawn_inv s -> poller_returned s -> run ext ui path sched s = Some s' ->
  poller_returned s' /\ written_by ByPoller s' = written_by ByPoller s.
Proof.
  intros Hinv Hret Hrun.
  assert (spawn_inv s' /\ poller_returned s'
          /\ written_by ByPoller s' = written_by ByPoller s) as (_ & H1 & H2); [|auto].
  eapply (run_invariant ext ui path
            (fun t => spawn_inv t /\ poller_returned t
                      /\ written_by ByPoller t = written_by ByPoller s));
    [| | exact Hrun]; [|auto].
  intros a t t' (Hi & Hr & Hw) Hstep. split; [eapply spawn_inv_step; eauto|].
  destruct (poller_returned_step ext ui path a t t' Hi Hr Hstep) as [Hr' Hw'].
  split; [exact Hr'|congruence].
Qed.

(** The claim C2 as it is stated fails: with a snapshot and the
    completion signal both ready, [select] may take the snapshot, and the
    poller goes on to render it. *)
Lemma select_completion_has_no_priority :
  ~ (forall (ext : Extern) (ui : UI) (path : string) (arg : option Dir)
            (s s' : state) (a : action) (i : Z) (progress : CurrentProgress),
       reachable ext ui path arg s ->
       poll s = PollSelect i ->
       progressChan s = Some progress ->
       doneChan s = true ->
       a = PollerTakesProgress \/ a = PollerTakesDone ->
       step ext ui path a s = Some s' ->
       poll s' = PollReturned).
Proof.
  intros Hclaim.
  destruct (run example_ext (example_ui true false) "/data" example_race_schedule
              (AnalyzePath_init (example_ui true false) "/data" None)) as [s|] eqn:Hrun;
    [|vm_compute in Hrun; discriminate].
  assert (reachable example_ext (example_ui true false) "/data" None s) as Hreach
    by (exists example_race_schedule; exact Hrun).
  vm_compute in Hrun. injection Hrun as Hs.
  specialize (Hclaim example_ext (example_ui true false) "/data" None s
                (set_poll (set_progressChan s None) (PollSpinner 0 example_progress))
                PollerTakesProgress 0 example_progress Hreach).
  subst s. simpl in Hclaim.
  specialize (Hclaim eq_refl eq_refl eq_refl (or_introl eq_refl) eq_refl).
  discriminate.
Qed.

(** C2, amended.  In an execution, when the poller is in [select]:
    - each case that is taken has its channel ready: either completion is
      taken, and the poller writes "\r" and returns without rendering, or
      a snapshot is taken, and the poller goes on to render it;
    - completion can be taken whenever it is ready, whether or not a
      snapshot is ready too;
    - once completion has been taken the poller never writes again. *)
Theorem poller_select (ext : Extern) (ui : UI) (path : string) (arg : option Dir)
    (s : state) (i : Z) :
  reachable ext ui path arg s ->
  poll s = PollSelect i ->
  (forall a s',
      a = PollerStep \/ a = PollerTakesProgress \/ a = PollerTakesDone ->
      step ext ui path a s = Some s' ->
      (a = PollerTakesDone /\ doneChan s = true /\ poll s' = PollReturned
       /\ written_by ByPoller s' = (written_by ByPoller s ++ [Fmt.CR])%list)
      \/ (a = PollerTakesProgress
          /\ exists progress, progressChan s = Some progress
                              /\ poll s' = PollSpinner i progress
                              /\ written_by ByPoller s' = written_by ByPoller s))
  /\ (doneChan s = true ->
      exists s', step ext ui path PollerTakesDone s = Some s'
                 /\ forall sched s'', run ext ui path sched s' = Some s'' ->
                      poller_returned s''
                      /\ written_by ByPoller s''
                         = (written_by ByPoller s ++ [Fmt.CR])%list).
Proof.
  intros Hreach Hsel. split.
  - intros a s' Ha Hstep.
    destruct Ha as [-> | [-> | ->]]; simpl in Hstep.
    + unfold poller_step in Hstep. rewrite Hsel in Hstep. discriminate.
    + right. split; [reflexivity|].
      unfold poller_takes_progress in Hstep. rewrite Hsel in Hstep.
      destruct (progressChan s) as [progress|]; [|discriminate].
      injection Hstep as <-. exists progress. auto.
    + left. split; [reflexivity|].
      unfold poller_takes_done in Hstep. rewrite Hsel in Hstep.
      destruct (doneChan s); [|discriminate].
      injection Hstep as <-. simpl. autorewrite with written. auto.
  - intros Hdone.
    assert (step ext ui path PollerTakesDone s
            = Some (set_poll (write (set_doneChan s false) ByPoller [Fmt.CR]) PollReturned))
      as Hstep by (simpl; unfold poller_takes_done; rewrite Hsel, Hdone; reflexivity).
    eexists. split; [exact Hstep|].
    intros sched s'' Hrun.
    assert (spawn_inv (set_poll (write (set_doneChan s false) ByPoller [Fmt.CR]) PollReturned))
      as Hinv by (eapply spawn_inv_step; [eapply spawn_inv_reachable; exact Hreach | exact Hstep]).
    destruct (poller_returned_run ext ui path sched _ s'' Hinv (or_introl eq_refl) Hrun)
      as [Hret Hw].
    split; [exact Hret|]. rewrite Hw. autorewrite with written. reflexivity.
Qed.

Lemma poller_select_witness :
  exists s,
    reachable example_ext (example_ui true false) "/data" None s
    /\ poll s = PollSelect 0
    /\ progressChan s = Some example_progress
    /\ doneChan s = true
    /\ exists s', step example_ext (example_ui true false) "/data" PollerTakesDone s = Some s'
                  /\ forall sched s'',
                       run example_ext (example_ui true false) "/data" sched s' = Some s'' ->
                       poller_returned s''
                       /\ written_by ByPoller s''
                          = (written_by ByPoller s ++ [Fmt.CR])%list.
Proof.
  destruct (run example_ext (example_ui true false) "/data" example_race_schedule
              (AnalyzePath_init (example_ui true false) "/data" None)) as [s|] eqn:Hrun;
    [|vm_compute in Hrun; discriminate].
  exists s.
  assert (reachable example_ext (example_ui true false) "/data" None s) as Hreach
    by (exists example_race_schedule; exact Hrun).
  assert (poll s = PollSelect 0 /\ progressChan s = Some example_progress
          /\ doneChan s = true) as (Hsel & Hprogress & Hdone)
    by (vm_compute in Hrun; injection Hrun as <-; repeat split; reflexivity).
  destruct (poller_select example_ext (example_ui true false) "/data" None s 0
              Hreach Hsel) as [_ Htake].
  repeat split; try assumption. exact (Htake Hdone).
Defined.

(** ** C3: the order of the listing *)

Section InsertionSort.

Context (less : Item -> Item -> bool).

Lemma insert_leftwards_perm (x : Item) (acc : list Item) :
  Permutation (insert_leftwards less x acc) (x :: acc).
Proof.
  induction acc as [|y acc IH]; simpl; [reflexivity|].
  destruct (less x y); [|reflexivity].
  rewrite IH. apply perm_swap.
Qed.

Lemma insertion_loop_perm (l acc : list Item) :
  Permutation (fold_left (fun acc x => insert_leftwards less x acc) l acc)
              (rev l ++ acc).
Proof.
  revert acc. induction l as [|x l IH]; intros acc; simpl; [reflexivity|].
  rewrite IH, insert_leftwards_perm, <- app_assoc. simpl.
  apply Permutation_app_head. reflexivity.
Qed.

Lemma insertionSort_perm (l : list Item) : Permutation (insertionSort less l) l.
Proof.
  unfold insertionSort. rewrite <- Permutation_rev, insertion_loop_perm, app_nil_r.
  symmetry. apply Permutation_rev.
Qed.

Hypothesis Hless : strict_weak_order less.

Lemma less_asym (a b : Item) : less a b = true -> less b a = false.
Proof.
  intros Hab. destruct (less b a) eqn:Hba; [|reflexivity].
  pose proof (swo_trans less Hless a b a Hab Hba) as Haa.
  rewrite (swo_irrefl less Hless) in Haa. discriminate.
Qed.

(** The sorted prefix, last element first: nothing is less than an
    element that follows it there. *)
Lemma insert_leftwards_sorted (x : Item) (acc : list Item) :
  StronglySorted (fun a b => less a b = false) acc ->
  StronglySorted (fun a b => less a b = false) (insert_leftwards less x acc).
Proof.
  induction acc as [|y acc IH]; intros Hs; simpl.
  - constructor; constructor.
  - inversion Hs as [|? ? Hs' Hall]; subst.
    destruct (less x y) eqn:Hxy.
    + constructor; [apply IH; exact Hs'|].
      eapply Permutation_Forall; [symmetry; apply insert_leftwards_perm|].
      constructor; [apply less_asym; exact Hxy | exact Hall].
    + constructor; [exact Hs|].
      constructor; [exact Hxy|].
      eapply Forall_impl; [exact Hall|].
      intros z Hyz. exact (swo_neg_trans less Hless x y z Hxy Hyz).
Qed.

Lemma insertion_loop_sorted (l acc : list Item) :
  StronglySorted (fun a b => less a b = false) acc ->
  StronglySorted (fun a b => less a b = false)
                 (fold_left (fun acc x => insert_leftwards less x acc) l acc).
Proof.
  revert acc. induction l as [|x l IH]; intros acc Hs; simpl; [exact Hs|].
  apply IH, insert_leftwards_sorted, Hs.
Qed.

Lemma insertionSort_sorted_rev (l : list Item) :
  StronglySorted (fun a b => less a b = false)
                 (fold_left (fun acc x => insert_leftwards less x acc) l []).
Proof. apply insertion_loop_sorted. constructor. Qed.

End InsertionSort.

Lemma StronglySorted_snoc (R : Item -> Item -> Prop) (l : list Item) (a : Item) :
  StronglySorted R l -> Forall (fun z => R z a) l -> StronglySorted R (l ++ [a]).
Proof.
  induction 1 as [|b l Hs IH Hall]; intros Hfa; simpl.
  - constructor; constructor.
  - inversion Hfa as [|? ? Hba Hfa']; subst.
    constructor; [apply IH; exact Hfa'|].
    apply Forall_app. split; [exact Hall|]. constructor; [exact Hba|constructor].
Qed.

Lemma StronglySorted_rev (R : Item -> Item -> Prop) (l : list Item) :
  StronglySorted R l -> StronglySorted (fun a b => R b a) (rev l).
Proof.
  induction 1 as [|a l Hs IH Hall]; simpl; [constructor|].
  apply StronglySorted_snoc; [exact IH|].
  apply Forall_rev. exact Hall.
Qed.

Lemma insertionSort_permutes : sort_permutes insertionSort.
Proof. intros less l. apply insertionSort_perm. Qed.

Lemma insertionSort_orders : sort_orders insertionSort.
Proof.
  intros less l Hless. unfold insertionSort.
  apply (StronglySorted_rev (fun a b => less a b = false)).
  apply insertionSort_sorted_rev. exact Hless.
Qed.

(** Larger first by an integer key is a strict weak order. *)
Lemma larger_first_swo (metric : Item -> Z) :
  strict_weak_order (fun a b => metric b <? metric a).
Proof.
  split.
  - intros a. apply Z.ltb_irrefl.
  - intros a b c Hab Hbc. apply Z.ltb_lt in Hab, Hbc. apply Z.ltb_lt. lia.
  - intros a b c Hab Hbc. apply Z.ltb_ge in Hab, Hbc. apply Z.ltb_ge. lia.
Qed.

Lemma sorted_larger_first (metric : Item -> Z) (l : list Item) :
  StronglySorted (fun a b => (metric a <? metric b) = false) l ->
  non_increasing (map metric l).
Proof.
  intros Hs. apply StronglySorted_Sorted.
  induction Hs as [|a l Hs IH Hall]; simpl; constructor; [exact IH|].
  apply Forall_map. eapply Forall_impl; [exact Hall|].
  intros b Hab. simpl. apply Z.ltb_ge in Hab. lia.
Qed.

Lemma strict_weak_order_ext (less less' : Item -> Item -> bool) :
  (forall a b, less a b = less' a b) -> strict_weak_order less' -> strict_weak_order less.
Proof.
  intros Heq [Hi Ht Hn]. split.
  - intros a. rewrite Heq. apply Hi.
  - intros a b c. rewrite !Heq. apply Ht.
  - intros a b c. rewrite !Heq. apply Hn.
Qed.

Lemma strict_weak_order_flip (less : Item -> Item -> bool) :
  strict_weak_order less -> strict_weak_order (fun a b => less b a).
Proof.
  intros [Hi Ht Hn]. split.
  - intros a. apply Hi.
  - intros a b c Hab Hbc. exact (Ht c b a Hbc Hab).
  - intros a b c Hab Hbc. exact (Hn c b a Hbc Hab).
Qed.

(** The promise of [sort.Sort] does not cover entries that compare
    equal: a sort can keep it and still exchange them. *)
Lemma sort_promise_allows_unstable :
  sort_permutes reversing_sort
  /\ sort_orders reversing_sort
  /\ ~ stable Less_by_usage example_ties (reversing_sort Less_by_usage example_ties).
Proof.
  split; [|split].
  - intros less l. unfold reversing_sort.
    rewrite <- Permutation_rev. apply insertionSort_permutes.
  - intros less l Hless. unfold reversing_sort.
    apply (StronglySorted_rev (fun a b => less a b = false)).
    apply (insertionSort_orders (fun a b => less b a)).
    apply strict_weak_order_flip. exact Hless.
  - intros Hstable. specialize (Hstable (entry "a" 1 5 false)).
    vm_compute in Hstable. discriminate.
Qed.

(** The first half of C3 fails whatever [sort.Sort] and [Files.Less] are:
    the call [sort.Sort(dir.Files)] does not see the configuration, so
    for two entries whose apparent sizes and usages are in opposite
    orders one of the two configurations shows them in increasing order
    of its metric. *)
Lemma displayed_order_ignores_configuration :
  ~ (exists ext : Extern,
        sort_permutes (sort_Sort ext)
        /\ non_increasing (map (entrySize (example_ui false true))
                               (displayed ext (example_ui false true) example_crossed))
        /\ non_increasing (map (entrySize (example_ui false false))
                               (displayed ext (example_ui false false) example_crossed))).
Proof.
  intros (ext & Hperm & Hsize & Husage).
  unfold displayed in *.
  pose proof (Hperm (Files_Less ext) (Files example_crossed)) as Hp.
  symmetry in Hp. simpl in Hp. apply Permutation_length_2_inv in Hp.
  simpl in Hsize, Husage.
  destruct Hp as [Hp|Hp]; rewrite Hp in Hsize, Husage.
  - inversion Hsize as [|? ? _ Hhd]; subst. inversion Hhd as [|? ? Hge]; subst.
    vm_compute in Hge. apply Hge. reflexivity.
  - inversion Husage as [|? ? _ Hhd]; subst. inversion Hhd as [|? ? Hge]; subst.
    vm_compute in Hge. apply Hge. reflexivity.
Qed.

(** C3, amended.  Whatever [sort.Sort] does within its contract, the
    entries displayed are the analyzer's entries, rearranged in the order
    of [Files.Less]; the arrangement is the same in every configuration;
    and it is non-increasing in the configured size metric when
    [Files.Less] puts the larger value of that metric first.  Nothing is
    promised about entries that compare equal. *)
Theorem displayed_in_Files_order (ext : Extern) (ui : UI) (d : Dir) :
  sort_permutes (sort_Sort ext) ->
  sort_orders (sort_Sort ext) ->
  Permutation (displayed ext ui d) (Files d)
  /\ (forall ui', displayed ext ui' d = displayed ext ui d)
  /\ (strict_weak_order (Files_Less ext) ->
      StronglySorted (fun a b => Files_Less ext b a = false) (displayed ext ui d))
  /\ ((forall a b, Files_Less ext a b = (entrySize ui b <? entrySize ui a)) ->
      non_increasing (map (entrySize ui) (displayed ext ui d))).
Proof.
  intros Hperm Hord. unfold displayed. repeat split.
  - apply Hperm.
  - intros Hswo. apply Hord, Hswo.
  - intros Hmetric.
    apply sorted_larger_first.
    assert (strict_weak_order (Files_Less ext)) as Hswo
      by (eapply strict_weak_order_ext; [exact Hmetric | apply larger_first_swo]).
    pose proof (Hord (Files_Less ext) (Files d) Hswo) as Hs.
    eapply StronglySorted_ind with (P := fun l =>
      StronglySorted (fun a b => (entrySize ui a <? entrySize ui b) = false) l);
      [constructor | | exact Hs].
    intros a l _ IH Hall. constructor; [exact IH|].
    eapply Forall_impl; [exact Hall|]. intros b Hb. simpl in Hb.
    rewrite Hmetric in Hb. exact Hb.
Qed.

Lemma displayed_in_Files_order_witness :
  sort_permutes (sort_Sort example_ext)
  /\ sort_orders (sort_Sort example_ext)
  /\ (forall a b, Files_Less example_ext a b
                  = (entrySize (example_ui false false) b
                     <? entrySize (example_ui false false) a))
  /\ Permutation (displayed example_ext (example_ui false false) example_crossed)
                 (Files example_crossed)
  /\ non_increasing (map (entrySize (example_ui false false))
                         (displayed example_ext (example_ui false false) example_crossed)).
Proof.
  assert (forall a b, Files_Less example_ext a b
                      = (entrySize (example_ui false false) b
                         <? entrySize (example_ui false false) a)) as Hmetric
    by (intros a b; reflexivity).
  destruct (displayed_in_Files_order example_ext (example_ui false false) example_crossed
              insertionSort_permutes insertionSort_orders) as (Hperm & _ & _ & Hsorted).
  exact (conj insertionSort_permutes
           (conj insertionSort_orders
              (conj Hmetric (conj Hperm (Hsorted Hmetric))))).
Defined.

(** ** float64: conversions of integers *)

Lemma digits2_pos_log2 (p : positive) : Z.pos (digits2_pos p) = Z.log2 (Z.pos p) + 1.
Proof.
  induction p as [p IH|p IH|]; simpl; try reflexivity.
  - rewrite Pos2Z.inj_succ, IH. destruct p; simpl; lia.
  - rewrite Pos2Z.inj_succ, IH. destruct p; simpl; lia.
Qed.

Lemma digits2_pos_bounds (p : positive) :
  2 ^ (Z.pos (digits2_pos p) - 1) <= Z.pos p < 2 ^ Z.pos (digits2_pos p).
Proof.
  rewrite digits2_pos_log2.
  replace (Z.log2 (Z.pos p) + 1 - 1) with (Z.log2 (Z.pos p)) by lia.
  apply Z.log2_spec. lia.
Qed.

Lemma digits2_pos_unique (p : positive) (d : Z) :
  2 ^ (d - 1) <= Z.pos p < 2 ^ d -> Z.pos (digits2_pos p) = d.
Proof.
  intros H. rewrite digits2_pos_log2.
  assert (0 < d).
  { destruct (Z_lt_le_dec 0 d) as [|Hd]; [assumption|].
    assert (2 ^ d <= 2 ^ 0) by (apply Z.pow_le_mono_r; lia). simpl in *. lia. }
  rewrite (Z.log2_unique (Z.pos p) (d - 1)); try lia.
  replace (Z.succ (d - 1)) with d by lia. exact H.
Qed.

Lemma iter_xO_mul (m : positive) (n : positive) :
  Z.pos (Pos.iter xO m n) = Z.pos m * 2 ^ Z.pos n.
Proof.
  rewrite Pos2Nat.inj_iter (* Pos.iter = nat_rect *).
  rewrite <- (positive_nat_Z n).
  induction (Pos.to_nat n) as [|k IH]; simpl nat_rect.
  - simpl. lia.
  - rewrite Nat2Z.inj_succ, Z.pow_succ_r by lia. rewrite Pos2Z.inj_xO, IH. lia.
Qed.

Lemma iter_pos_nat {A : Type} (f : A -> A) (p : positive) (x : A) :
  SpecFloat.iter_pos f p x = Nat.iter (Pos.to_nat p) f x.
Proof.
  revert x. induction p as [p IH|p IH|]; intros x; cbn [SpecFloat.iter_pos].
  - rewrite !IH, Pos2Nat.inj_xI.
    replace (S (2 * Pos.to_nat p)) with (Pos.to_nat p + (Pos.to_nat p + 1))%nat by lia.
    rewrite !Nat.iter_add. simpl. reflexivity.
  - rewrite !IH, Pos2Nat.inj_xO.
    replace (2 * Pos.to_nat p)%nat with (Pos.to_nat p + Pos.to_nat p)%nat by lia.
    rewrite Nat.iter_add. reflexivity.
  - reflexivity.
Qed.



Lemma binary_round_aux_normal (s : bool) (m : positive) (e : Z) :
  Z.pos (digits2_pos m) = 53 -> -1074 <= e <= 971 ->
  binary_round_aux 53 1024 s (Z.pos m) e loc_Exact = S754_finite s m e.
Proof.
  intros Hd He. unfold binary_round_aux, shr_fexp, fexp, emin.
  cbn [Zdigits2 shr_record_of_loc]. rewrite Hd.
  replace (Z.max (53 + e - 53) (3 - 1024 - 53) - e) with 0 by lia.
  cbn [shr loc_of_shr_record shr_m shr_r shr_s round_nearest_even Zdigits2 shr_record_of_loc].
  rewrite Hd.
  replace (Z.max (53 + e - 53) (3 - 1024 - 53) - e) with 0 by lia.
  cbn [shr shr_m].
  replace (e <=? 1024 - 53) with true by (symmetry; apply Z.leb_le; lia).
  reflexivity.
Qed.

Lemma shl_align_small (p : positive) :
  Z.pos (digits2_pos p) <= 53 ->
  exists mz,
    shl_align p 0 (Z.pos (digits2_pos p) - 53) = (mz, Z.pos (digits2_pos p) - 53)
    /\ Z.pos mz = Z.pos p * 2 ^ (53 - Z.pos (digits2_pos p))
    /\ Z.pos (digits2_pos mz) = 53.
Proof.
  intros Hd. pose proof (digits2_pos_bounds p) as Hb.
  set (d := Z.pos (digits2_pos p)) in *.
  unfold shl_align.
  destruct (d - 53 - 0) as [|q|q] eqn:E; try lia.
  - exists p. replace (d - 53) with 0 by lia. replace (53 - d) with 0 by lia.
    repeat split; [simpl; lia | fold d; lia].
  - exists (Pos.iter xO p q).
    assert (Z.pos q = 53 - d) as Hq by lia.
    split; [reflexivity|]. rewrite iter_xO_mul, Hq. split; [reflexivity|].
    apply digits2_pos_unique. rewrite iter_xO_mul, Hq.
    replace (2 ^ (53 - 1)) with (2 ^ (d - 1) * 2 ^ (53 - d))
      by (rewrite <- Z.pow_add_r by lia; f_equal; lia).
    replace (2 ^ 53) with (2 ^ d * 2 ^ (53 - d))
      by (rewrite <- Z.pow_add_r by lia; f_equal; lia).
    assert (0 < 2 ^ (53 - d)) by (apply Z.pow_pos_nonneg; lia).
    nia.
Qed.

(** [float64(z)] is exact when [z] has at most 53 bits. *)
Lemma of_int_pos_exact (p : positive) :
  Z.pos (digits2_pos p) <= 53 ->
  exists m,
    Float64.of_int (Z.pos p) = S754_finite false m (Z.pos (digits2_pos p) - 53)
    /\ Z.pos m = Z.pos p * 2 ^ (53 - Z.pos (digits2_pos p))
    /\ Z.pos (digits2_pos m) = 53.
Proof.
  intros Hd. destruct (shl_align_small p Hd) as (mz & Hal & Hmz & Hdz).
  exists mz. split; [|auto].
  unfold Float64.of_int, Float64.prec, Float64.emax, binary_normalize, binary_round.
  unfold fexp, emin.
  replace (Z.max (Z.pos (digits2_pos p) + 0 - 53) (3 - 1024 - 53))
    with (Z.pos (digits2_pos p) - 53) by lia.
  rewrite Hal. apply binary_round_aux_normal; [exact Hdz|lia].
Qed.

Lemma round_nearest_even_range (m : Z) (l : location) :
  round_nearest_even m l = m \/ round_nearest_even m l = m + 1.
Proof. destruct l as [|[| |]]; simpl; auto. destruct (Z.even m); auto. Qed.



Lemma digits2_pos_le (p : positive) (n : Z) :
  0 <= n -> Z.pos p <= 2 ^ n -> Z.pos (digits2_pos p) <= n + 1.
Proof.
  intros Hn Hp. pose proof (digits2_pos_bounds p) as [Hlo _].
  destruct (Z_le_gt_dec (Z.pos (digits2_pos p)) (n + 1)) as [|Hgt]; [assumption|].
  assert (2 ^ (n + 1) <= 2 ^ (Z.pos (digits2_pos p) - 1)) by (apply Z.pow_le_mono_r; lia).
  rewrite Z.pow_add_r in H by lia. simpl in H.
  assert (0 < 2 ^ n) by (apply Z.pow_pos_nonneg; lia). lia.
Qed.


(** ** Exact rounding *)

Lemma round_half_even_scale (num den c : Z) :
  0 < den -> 0 < c -> round_half_even (num * c) (den * c) = round_half_even num den.
Proof.
  intros Hden Hc. unfold round_half_even.
  rewrite Z.div_mul_cancel_r by lia.
  rewrite Z.mul_mod_distr_r by lia.
  replace (den * c <? 2 * (num mod den * c)) with (den <? 2 * (num mod den)).
  2:{ destruct (den <? 2 * (num mod den)) eqn:E;
        [apply Z.ltb_lt in E | apply Z.ltb_ge in E]; symmetry;
        [apply Z.ltb_lt | apply Z.ltb_ge]; nia. }
  replace (den * c =? 2 * (num mod den * c)) with (den =? 2 * (num mod den)).
  2:{ destruct (den =? 2 * (num mod den)) eqn:E;
        [apply Z.eqb_eq in E | apply Z.eqb_neq in E]; symmetry;
        [apply Z.eqb_eq | apply Z.eqb_neq]; nia. }
  reflexivity.
Qed.

Lemma scaled_round_half_even (m : positive) (e : Z) (digs : nat) :
  e < 0 ->
  Float64.scaled m e digs = round_half_even (Z.pos m * 10 ^ Z.of_nat digs) (2 ^ (- e)).
Proof.
  intros He. unfold Float64.scaled, round_half_even.
  replace (0 <=? e) with false by (symmetry; apply Z.leb_gt; exact He).
  reflexivity.
Qed.

(** The rounding is to a nearest integer. *)
Lemma round_half_even_nearest (num den : Z) :
  0 < den -> Z.abs (num - round_half_even num den * den) * 2 <= den.
Proof.
  intros Hden. unfold round_half_even.
  pose proof (Z.div_mod num den ltac:(lia)) as Hdm.
  pose proof (Z.mod_pos_bound num den Hden) as Hr.
  destruct (den <? 2 * (num mod den)) eqn:E1;
    [apply Z.ltb_lt in E1 | apply Z.ltb_ge in E1].
  - nia.
  - destruct ((den =? 2 * (num mod den)) && Z.odd (num / den)) eqn:E2.
    + apply andb_prop in E2 as [E2 _]. apply Z.eqb_eq in E2. nia.
    + nia.
Qed.

(** ** float64: rounding

    [binary_round_aux], through which [SpecFloat] rounds every result,
    returns the double nearest to the exact value; from this, what
    division, multiplication by 100 and [math.Round] return. *)

Lemma new_location_spec (D k : Z) :
  0 <= k < D -> new_location D k = location_of k D.
Proof.
  intros Hk. unfold new_location, new_location_even, new_location_odd, location_of.
  destruct (Z.even D) eqn:Ev; [reflexivity|].
  destruct (k =? 0); [reflexivity|]. f_equal.
  assert (Z.odd D = true) as Hodd by (rewrite <- Z.negb_even, Ev; reflexivity).
  apply Z.odd_spec in Hodd. destruct Hodd as [h Hh].
  destruct (2 * k + 1 ?= D) eqn:C1; destruct (2 * k ?= D) eqn:C2;
    try reflexivity;
    try apply Z.compare_eq in C1; try apply Z.compare_eq in C2;
    rewrite ?Z.compare_lt_iff, ?Z.compare_gt_iff in *; lia.
Qed.

Lemma shr_1_represents (N D : Z) (mrs : shr_record) :
  0 <= N -> 0 < D -> represents N D mrs -> represents N (D * 2) (shr_1 mrs).
Proof.
  intros HN HD [Hm Hloc].
  pose proof (Z.mod_pos_bound N D HD) as HR.
  pose proof (Z.div_pos N D HN HD) as Hq.
  assert (N / (D * 2) = (N / D) / 2) as Hdiv by (rewrite Z.div_div by lia; reflexivity).
  assert (N mod (D * 2) = N mod D + D * ((N / D) mod 2)) as Hmod
    by (apply Z.rem_mul_r; lia).
  unfold represents. rewrite Hdiv, Hmod, <- Hm.
  destruct mrs as [m r s]. cbn [shr_m] in *.
  unfold location_of in *.
  assert (r || s = negb (N mod D =? 0)) as Hs.
  { destruct (N mod D =? 0); destruct r, s; simpl in *; congruence. }
  destruct m as [|[p|p|]|p]; try lia; cbn [shr_1 shr_m loc_of_shr_record]; rewrite Hs.
  - (* 0 *)
    change (0 mod 2) with 0. rewrite Z.mul_0_r, Z.add_0_r.
    split; [reflexivity|].
    destruct (N mod D =? 0) eqn:E; simpl; [reflexivity|].
    apply Z.eqb_neq in E. f_equal. symmetry. apply Z.compare_lt_iff. lia.
  - (* 2p+1 *)
    assert (Z.pos p~1 mod 2 = 1) as -> by (rewrite Pos2Z.inj_xI, Z.add_comm, Z.mul_comm, Z.mod_add; reflexivity || lia).
    split; [apply Z.div_unique with (r := 1); lia|].
    destruct (N mod D =? 0) eqn:E; simpl.
    + apply Z.eqb_eq in E. rewrite E.
      replace (0 + D * 1 =? 0) with false by (symmetry; apply Z.eqb_neq; lia).
      f_equal. symmetry. apply Z.compare_eq_iff. lia.
    + apply Z.eqb_neq in E.
      replace (N mod D + D * 1 =? 0) with false by (symmetry; apply Z.eqb_neq; lia).
      f_equal. symmetry. apply Z.compare_gt_iff. lia.
  - (* 2p *)
    assert (Z.pos p~0 mod 2 = 0) as -> by (rewrite Pos2Z.inj_xO, Z.mul_comm, Z.mod_mul; lia).
    rewrite Z.mul_0_r, Z.add_0_r.
    split; [apply Z.div_unique with (r := 0); lia|].
    destruct (N mod D =? 0) eqn:E; simpl; [reflexivity|].
    apply Z.eqb_neq in E. f_equal. symmetry. apply Z.compare_lt_iff. lia.
  - (* 1 *)
    change (1 mod 2) with 1.
    split; [reflexivity|].
    destruct (N mod D =? 0) eqn:E; simpl.
    + apply Z.eqb_eq in E. rewrite E.
      replace (0 + D * 1 =? 0) with false by (symmetry; apply Z.eqb_neq; lia).
      f_equal. symmetry. apply Z.compare_eq_iff. lia.
    + apply Z.eqb_neq in E.
      replace (N mod D + D * 1 =? 0) with false by (symmetry; apply Z.eqb_neq; lia).
      f_equal. symmetry. apply Z.compare_gt_iff. lia.
Qed.

Lemma shr_iter_represents (n : nat) (N D : Z) (mrs : shr_record) :
  0 <= N -> 0 < D -> represents N D mrs ->
  represents N (D * 2 ^ Z.of_nat n) (Nat.iter n shr_1 mrs).
Proof.
  intros HN HD Hrep. induction n as [|n IH].
  - simpl. rewrite Z.mul_1_r. exact Hrep.
  - rewrite Nat.iter_succ, Nat2Z.inj_succ, Z.pow_succ_r by lia.
    replace (D * (2 * 2 ^ Z.of_nat n)) with (D * 2 ^ Z.of_nat n * 2) by lia.
    apply shr_1_represents; [exact HN| |exact IH].
    assert (0 < 2 ^ Z.of_nat n) by (apply Z.pow_pos_nonneg; lia). lia.
Qed.

Lemma round_nearest_even_represents (N D : Z) (mrs : shr_record) :
  0 < D -> represents N D mrs ->
  round_nearest_even (shr_m mrs) (loc_of_shr_record mrs) = round_half_even N D.
Proof.
  intros HD [Hm Hloc]. rewrite Hm, Hloc.
  pose proof (Z.mod_pos_bound N D HD) as HR.
  unfold location_of, round_half_even.
  generalize dependent (N mod D). generalize (N / D). clear Hm. intros q R _ HR.
  destruct (R =? 0) eqn:E; [apply Z.eqb_eq in E | apply Z.eqb_neq in E].
  - subst R. cbn [round_nearest_even].
    replace (D <? 2 * 0) with false by (symmetry; apply Z.ltb_ge; lia).
    replace (D =? 2 * 0) with false by (symmetry; apply Z.eqb_neq; lia).
    reflexivity.
  - destruct (Z.compare_spec (2 * R) D); cbn [round_nearest_even];
      destruct (Z.ltb_spec D (2 * R)); try lia; try reflexivity;
      destruct (Z.eqb_spec D (2 * R)); try lia; try reflexivity.
    rewrite <- Z.negb_even. simpl. destruct (Z.even q); reflexivity.
Qed.

Lemma represents_of_loc (N D : Z) :
  represents N D (shr_record_of_loc (N / D) (location_of (N mod D) D)).
Proof.
  unfold represents, location_of.
  destruct (N mod D =? 0); [split; reflexivity|].
  destruct (2 * (N mod D) ?= D); split; reflexivity.
Qed.

(** The first shift of [binary_round_aux]: down to 53 bits. *)
Lemma shr_fexp_shift (m : positive) (e : Z) (l : location) :
  53 <= Z.pos (digits2_pos m) ->
  -1074 <= e + (Z.pos (digits2_pos m) - 53) ->
  shr_fexp 53 1024 (Z.pos m) e l
  = (Nat.iter (Z.to_nat (Z.pos (digits2_pos m) - 53)) shr_1 (shr_record_of_loc (Z.pos m) l),
     e + (Z.pos (digits2_pos m) - 53)).
Proof.
  intros Hd He. unfold shr_fexp, fexp, emin. cbn [Zdigits2].
  set (d := Z.pos (digits2_pos m)) in *.
  replace (Z.max (d + e - 53) (3 - 1024 - 53) - e) with (d - 53) by lia.
  unfold shr. destruct (d - 53) as [|q|q] eqn:E; try lia.
  - simpl. f_equal. lia.
  - rewrite iter_pos_nat. reflexivity.
Qed.

Lemma binary_round_aux_correct (s : bool) (N D e : Z) :
  0 < D -> 2 ^ 52 * D <= N ->
  -1074 <= e + (Z.log2 (N / D) - 52) ->
  e + (Z.log2 (N / D) - 52) + 1 <= 971 ->
  exists m' e',
    binary_round_aux 53 1024 s (N / D) e (location_of (N mod D) D) = S754_finite s m' e'
    /\ 2 ^ 52 <= Z.pos m' < 2 ^ 53
    /\ e + (Z.log2 (N / D) - 52) <= e' <= e + (Z.log2 (N / D) - 52) + 1
    /\ Z.pos m' * 2 ^ (e' - (e + (Z.log2 (N / D) - 52)))
       = round_half_even N (D * 2 ^ (Z.log2 (N / D) - 52)).
Proof.
  intros HD HN Hlo Hhi.
  assert (2 ^ 52 <= N / D) as Hm by (apply Z.div_le_lower_bound; lia).
  assert (0 <= N) as HN0 by (assert (0 < 2 ^ 52) by (simpl; lia); nia).
  destruct (N / D) as [|pm|pm] eqn:Em; try (simpl in Hm; lia).
  pose proof (digits2_pos_log2 pm) as Hdig.
  pose proof (digits2_pos_bounds pm) as Hb.
  set (d := Z.pos (digits2_pos pm)) in *.
  assert (52 <= Z.log2 (Z.pos pm)) as Hl52
    by (apply (Z.log2_le_pow2 (Z.pos pm) 52); lia).
  replace (Z.log2 (Z.pos pm) - 52) with (d - 53) in * by lia.
  assert (0 <= d - 53) as Hn by lia.
  unfold binary_round_aux.
  rewrite shr_fexp_shift by (fold d; lia). fold d.
  set (mrs1 := Nat.iter (Z.to_nat (d - 53)) shr_1 _).
  assert (represents N (D * 2 ^ (d - 53)) mrs1) as Hrep.
  { subst mrs1. rewrite <- (Z2Nat.id (d - 53)) at 1 by lia.
    apply shr_iter_represents; [exact HN0 | exact HD |].
    rewrite <- Em. apply represents_of_loc. }
  assert (0 < 2 ^ (d - 53)) as Hpow by (apply Z.pow_pos_nonneg; lia).
  assert (2 ^ 52 <= shr_m mrs1 < 2 ^ 53) as Hrange.
  { destruct Hrep as [-> _]. rewrite <- Z.div_div by lia. rewrite Em.
    assert (2 ^ (d - 1) = 2 ^ 52 * 2 ^ (d - 53))
      by (rewrite <- Z.pow_add_r by lia; f_equal; lia).
    assert (2 ^ d = 2 ^ 53 * 2 ^ (d - 53))
      by (rewrite <- Z.pow_add_r by lia; f_equal; lia).
    split; [apply Z.div_le_lower_bound; lia | apply Z.div_lt_upper_bound; lia]. }
  assert (0 < D * 2 ^ (d - 53)) as HD' by (apply Z.mul_pos_pos; assumption).
  pose proof (round_nearest_even_represents N _ mrs1 HD' Hrep) as Hrne.
  set (m2 := round_nearest_even (shr_m mrs1) (loc_of_shr_record mrs1)) in *.
  assert (2 ^ 52 <= m2 <= 2 ^ 53) as Hm2
    by (subst m2; destruct (round_nearest_even_range (shr_m mrs1) (loc_of_shr_record mrs1));
        lia).
  rewrite <- Hrne.
  destruct m2 as [|q2|q2] eqn:Em2; try (simpl in Hm2; lia).
  unfold shr_fexp, fexp, emin. cbn [Zdigits2 shr_record_of_loc].
  destruct (Z.eq_dec (Z.pos q2) (2 ^ 53)) as [Hcarry|Hno].
  - assert (Z.pos (digits2_pos q2) = 54) as Hd2
      by (apply digits2_pos_unique; rewrite Hcarry; simpl; lia).
    rewrite Hd2.
    replace (Z.max (54 + (e + (d - 53)) - 53) (3 - 1024 - 53) - (e + (d - 53))) with 1 by lia.
    assert (q2 = 9007199254740992%positive) as -> by (simpl in Hcarry; lia).
    cbn [shr SpecFloat.iter_pos shr_1 shr_m].
    replace (e + (d - 53) + 1 <=? 1024 - 53) with true by (symmetry; apply Z.leb_le; lia).
    eexists _, _. split; [reflexivity|].
    replace (e + (d - 53) + 1 - (e + (d - 53))) with 1 by lia.
    simpl. lia.
  - assert (Z.pos (digits2_pos q2) = 53) as Hd2
      by (apply digits2_pos_unique; simpl; simpl in Hm2; lia).
    rewrite Hd2.
    replace (Z.max (53 + (e + (d - 53)) - 53) (3 - 1024 - 53) - (e + (d - 53))) with 0 by lia.
    cbn [shr shr_m].
    replace (e + (d - 53) <=? 1024 - 53) with true by (symmetry; apply Z.leb_le; lia).
    eexists _, _. split; [reflexivity|].
    replace (e + (d - 53) - (e + (d - 53))) with 0 by lia.
    simpl in *. lia.
Qed.

Lemma IZR_pow2 (k : Z) : 0 <= k -> IZR (2 ^ k) = powerRZ 2 k.
Proof.
  intros Hk. rewrite <- (Z2Nat.id k) by exact Hk.
  rewrite <- pow_IZR, <- pow_powerRZ. reflexivity.
Qed.

Lemma powerRZ_2_pos (e : Z) : (0 < powerRZ 2 e)%R.
Proof. apply powerRZ_lt. lra. Qed.

Lemma powerRZ_2_add (a b : Z) : powerRZ 2 (a + b) = (powerRZ 2 a * powerRZ 2 b)%R.
Proof. apply powerRZ_add. lra. Qed.

Lemma value_pos (m : positive) (e : Z) : (0 < double_value m e)%R.
Proof.
  unfold double_value. apply Rmult_lt_0_compat; [apply IZR_lt; lia | apply powerRZ_2_pos].
Qed.

(** Rounding is within half a unit of the last place, which is at most
    the result over 2^53. *)
Lemma binary_round_aux_value (s : bool) (N D e : Z) :
  0 < D -> 2 ^ 52 * D <= N ->
  -1074 <= e + (Z.log2 (N / D) - 52) ->
  e + (Z.log2 (N / D) - 52) + 1 <= 971 ->
  exists m' e',
    binary_round_aux 53 1024 s (N / D) e (location_of (N mod D) D) = S754_finite s m' e'
    /\ 2 ^ 52 <= Z.pos m' < 2 ^ 53
    /\ e + (Z.log2 (N / D) - 52) <= e' <= e + (Z.log2 (N / D) - 52) + 1
    /\ (double_value m' e' * (1 - / 9007199254740992)
        <= IZR N / IZR D * powerRZ 2 e
        <= double_value m' e' * (1 + / 9007199254740992))%R.
Proof.
  intros HD HN Hlo Hhi.
  destruct (binary_round_aux_correct s N D e HD HN Hlo Hhi)
    as (m' & e' & Heq & Hrange & He' & Ht).
  exists m', e'. split; [exact Heq|]. split; [exact Hrange|]. split; [exact He'|].
  assert (2 ^ 52 <= N / D) as Hm by (apply Z.div_le_lower_bound; lia).
  assert (52 <= Z.log2 (N / D)) as Hl52
    by (apply (Z.log2_le_pow2 (N / D) 52); simpl in *; lia).
  set (n := Z.log2 (N / D) - 52) in *.
  assert (0 <= n) as Hn by lia.
  set (t := round_half_even N (D * 2 ^ n)) in *.
  assert (0 < 2 ^ n) as Hpow by (apply Z.pow_pos_nonneg; lia).
  assert (0 < D * 2 ^ n) as HD2 by (apply Z.mul_pos_pos; assumption).
  pose proof (round_half_even_nearest N (D * 2 ^ n) HD2) as Hnear. fold t in Hnear.
  assert (2 ^ 52 <= t) as Htlo.
  { rewrite <- Ht.
    assert (2 ^ 0 <= 2 ^ (e' - (e + n))) as H1 by (apply Z.pow_le_mono_r; lia).
    change (2 ^ 0) with 1 in H1. nia. }
  (* to the reals *)
  set (P := powerRZ 2 (e + n)).
  assert (0 < P)%R as HP by apply powerRZ_2_pos.
  assert (double_value m' e' = IZR t * P)%R as Hval.
  { unfold double_value, P. rewrite <- Ht, mult_IZR, IZR_pow2 by lia.
    replace e' with ((e' - (e + n)) + (e + n)) at 1 by lia.
    rewrite powerRZ_2_add. ring. }
  assert (powerRZ 2 e = P / IZR (2 ^ n))%R as Hpe.
  { unfold P. rewrite powerRZ_2_add, IZR_pow2 by lia.
    field. apply Rgt_not_eq, powerRZ_2_pos. }
  rewrite Hval, Hpe.
  assert (0 < IZR D)%R as HDr by (apply IZR_lt; exact HD).
  assert (0 < IZR (2 ^ n))%R as Hpr by (apply IZR_lt; exact Hpow).
  assert (IZR (2 ^ 52) <= IZR t)%R as Htr by (apply IZR_le; exact Htlo).
  change (IZR (2 ^ 52)) with 4503599627370496%R in Htr.
  set (q := (IZR N / (IZR D * IZR (2 ^ n)))%R).
  assert (IZR N = q * (IZR D * IZR (2 ^ n)))%R as HNq by (unfold q; field; lra).
  replace (IZR N / IZR D * (P / IZR (2 ^ n)))%R with (q * P)%R by (unfold q; field; lra).
  assert (- (IZR D * IZR (2 ^ n)) <= 2 * (IZR t * (IZR D * IZR (2 ^ n)) - IZR N)
          <= IZR D * IZR (2 ^ n))%R as Hnr.
  { rewrite <- !mult_IZR, <- minus_IZR, <- opp_IZR.
    change 2%R with (IZR 2). rewrite <- mult_IZR.
    split; apply IZR_le; lia. }
  rewrite HNq in Hnr.
  set (Dd := (IZR D * IZR (2 ^ n))%R) in *.
  assert (0 < Dd)%R as HDd by (apply Rmult_lt_0_compat; assumption).
  assert (IZR t - / 2 <= q <= IZR t + / 2)%R as [Hq1 Hq2] by (split; nra).
  split; nra.
Qed.

Lemma of_int_value (p : positive) :
  Z.pos (digits2_pos p) <= 53 ->
  exists m e,
    Float64.of_int (Z.pos p) = S754_finite false m e
    /\ Z.pos (digits2_pos m) = 53
    /\ -52 <= e <= 0
    /\ double_value m e = IZR (Z.pos p).
Proof.
  intros Hd. destruct (of_int_pos_exact p Hd) as (m & Hof & Hm & Hdm).
  exists m, (Z.pos (digits2_pos p) - 53).
  split; [exact Hof|]. split; [exact Hdm|]. split; [lia|].
  unfold double_value. rewrite Hm, mult_IZR, IZR_pow2 by lia.
  rewrite Rmult_assoc, <- powerRZ_2_add.
  replace (53 - Z.pos (digits2_pos p) + (Z.pos (digits2_pos p) - 53)) with 0 by lia.
  simpl. ring.
Qed.

Lemma div_eucl_div_mod (a b : Z) : Z.div_eucl a b = (a / b, a mod b).
Proof. unfold Z.div, Z.modulo. destruct (Z.div_eucl a b). reflexivity. Qed.

Lemma digits2_pos_53 (m : positive) :
  Z.pos (digits2_pos m) = 53 -> 2 ^ 52 <= Z.pos m < 2 ^ 53.
Proof. intros H. pose proof (digits2_pos_bounds m) as Hb. rewrite H in Hb. exact Hb. Qed.

(** The quotient of two normal doubles, away from overflow and
    underflow, is their exact quotient rounded. *)
Lemma div_value (ma mb : positive) (ea eb : Z) :
  Z.pos (digits2_pos ma) = 53 -> Z.pos (digits2_pos mb) = 53 ->
  -400 <= ea <= 400 -> -400 <= eb <= 400 ->
  exists m1 e1,
    Float64.div (S754_finite false ma ea) (S754_finite false mb eb) = S754_finite false m1 e1
    /\ 2 ^ 52 <= Z.pos m1 < 2 ^ 53
    /\ ea - eb - 53 <= e1 <= ea - eb - 51
    /\ (double_value m1 e1 * (1 - / 9007199254740992)
        <= double_value ma ea / double_value mb eb
        <= double_value m1 e1 * (1 + / 9007199254740992))%R.
Proof.
  intros Hda Hdb Hea Heb.
  pose proof (digits2_pos_53 ma Hda) as Hma. pose proof (digits2_pos_53 mb Hdb) as Hmb.
  unfold Float64.div, Float64.prec, Float64.emax, SFdiv, SFdiv_core_binary.
  cbn [Zdigits2 xorb]. rewrite Hda, Hdb. unfold fexp, emin.
  replace (Z.min (Z.max (53 + ea - (53 + eb) - 53) (3 - 1024 - 53)) (ea - eb))
    with (ea - eb - 53) by lia.
  replace (ea - eb - (ea - eb - 53)) with 53 by lia.
  rewrite Z.shiftl_mul_pow2 by lia.
  rewrite div_eucl_div_mod.
  set (N := Z.pos ma * 2 ^ 53). set (D := Z.pos mb).
  assert (0 < D) as HD by (subst D; lia).
  rewrite new_location_spec by (apply Z.mod_pos_bound; exact HD).
  assert (2 ^ 52 * D <= N) as HN by (subst N D; simpl in *; lia).
  assert (2 ^ 52 <= N / D < 2 ^ 54) as Hq.
  { split; [apply Z.div_le_lower_bound; lia|].
    apply Z.div_lt_upper_bound; [lia|]. subst N D. simpl in *. lia. }
  assert (52 <= Z.log2 (N / D) <= 53) as Hlog.
  { split; [apply Z.log2_le_pow2; lia|].
    assert (Z.log2 (N / D) < 54) by (apply Z.log2_lt_pow2; lia). lia. }
  destruct (binary_round_aux_value false N D (ea - eb - 53) HD HN ltac:(lia) ltac:(lia))
    as (m1 & e1 & Heq & Hrange & He1 & Hval).
  exists m1, e1. split; [exact Heq|]. split; [exact Hrange|]. split; [lia|].
  replace (double_value ma ea / double_value mb eb)%R with (IZR N / IZR D * powerRZ 2 (ea - eb - 53))%R;
    [exact Hval|].
  unfold double_value, N, D. rewrite mult_IZR, IZR_pow2 by lia.
  replace (ea - eb - 53) with (ea + (- eb + - 53)) by lia.
  rewrite !powerRZ_2_add.
  pose proof (powerRZ_2_pos eb) as Hpeb. pose proof (powerRZ_2_pos 53) as Hp53.
  assert (powerRZ 2 (- eb) * powerRZ 2 eb = 1)%R as Hinv1
    by (rewrite <- powerRZ_2_add; replace (- eb + eb) with 0 by lia; reflexivity).
  assert (powerRZ 2 (- 53) * powerRZ 2 53 = 1)%R as Hinv2
    by (rewrite <- powerRZ_2_add; reflexivity).
  assert (0 < IZR (Z.pos mb))%R by (apply IZR_lt; lia).
  replace (powerRZ 2 (- eb)) with (/ powerRZ 2 eb)%R
    by (apply Rmult_eq_reg_r with (r := powerRZ 2 eb); [rewrite Hinv1; field; lra | lra]).
  replace (powerRZ 2 (- 53)) with (/ powerRZ 2 53)%R
    by (apply Rmult_eq_reg_r with (r := powerRZ 2 53); [rewrite Hinv2; field; lra | lra]).
  field. repeat split; lra.
Qed.

(** The product of a normal double and 100 is their exact product
    rounded. *)
Lemma mul_100_value (m1 : positive) (e1 : Z) :
  2 ^ 52 <= Z.pos m1 < 2 ^ 53 -> -400 <= e1 <= 400 ->
  exists m2 e2,
    Float64.mul (S754_finite false m1 e1) (Float64.of_int 100) = S754_finite false m2 e2
    /\ 2 ^ 52 <= Z.pos m2 < 2 ^ 53
    /\ e1 <= e2 <= e1 + 9
    /\ (double_value m2 e2 * (1 - / 9007199254740992)
        <= 100 * double_value m1 e1
        <= double_value m2 e2 * (1 + / 9007199254740992))%R.
Proof.
  intros Hm1 He1.
  change (Float64.of_int 100) with (S754_finite false 7036874417766400 (-46)).
  unfold Float64.mul, Float64.prec, Float64.emax, SFmul. cbn [xorb].
  set (N := Z.pos (m1 * 7036874417766400)).
  assert (N = Z.pos m1 * 7036874417766400) as HNeq by (subst N; lia).
  assert (2 ^ 98 <= N < 2 ^ 106) as HN by (rewrite HNeq; simpl in *; lia).
  assert (98 <= Z.log2 N <= 105) as Hlog.
  { split; [apply Z.log2_le_pow2; lia|].
    assert (Z.log2 N < 106) by (apply Z.log2_lt_pow2; lia). lia. }
  pose proof (binary_round_aux_value false N 1 (e1 + -46) ltac:(lia)) as H.
  rewrite Z.div_1_r, Z.mod_1_r in H.
  change (location_of 0 1) with loc_Exact in H.
  destruct H as (m2 & e2 & Heq & Hrange & He2 & Hval); [simpl in *; lia | lia | lia |].
  exists m2, e2. split; [exact Heq|]. split; [exact Hrange|]. split; [lia|].
  replace (100 * double_value m1 e1)%R with (IZR N / 1 * powerRZ 2 (e1 + -46))%R; [exact Hval|].
  unfold double_value. rewrite HNeq, mult_IZR, powerRZ_2_add.
  assert (powerRZ 2 (-46) = / 70368744177664)%R as -> by (simpl; lra).
  field.
Qed.

Lemma append_empty_r (s : string) : (s ++ "")%string = s.
Proof.
  induction s as [|c s IH]; [reflexivity|].
  change (String c (s ++ "") = String c s). rewrite IH. reflexivity.
Qed.

Lemma round_half_even_integer (n : Z) : round_half_even n 1 = n.
Proof.
  unfold round_half_even. rewrite Z.div_1_r, Z.mod_1_r. reflexivity.
Qed.

(** An integer below 2^53, converted to a double, prints as itself. *)
Lemma format_of_int (p : positive) :
  Z.pos (digits2_pos p) <= 53 ->
  Float64.format_f 0 (Float64.of_int (Z.pos p)) = Fmt.itoa (Z.pos p).
Proof.
  intros Hd. destruct (of_int_pos_exact p Hd) as (m & Hof & Hm & Hdm).
  rewrite Hof. cbn [Float64.format_f Float64.sign_string].
  assert (Float64.scaled m (Z.pos (digits2_pos p) - 53) 0 = Z.pos p) as ->.
  { destruct (Z.eq_dec (Z.pos (digits2_pos p)) 53) as [E|E].
    - rewrite E in *. unfold Float64.scaled. simpl. simpl in Hm. lia.
    - rewrite scaled_round_half_even by lia. change (10 ^ Z.of_nat 0) with 1.
      rewrite Z.mul_1_r, Hm.
      replace (- (Z.pos (digits2_pos p) - 53)) with (53 - Z.pos (digits2_pos p)) by lia.
      rewrite <- (Z.mul_1_l (2 ^ (53 - Z.pos (digits2_pos p)))) at 2.
      rewrite round_half_even_scale; [apply round_half_even_integer | lia |].
      apply Z.pow_pos_nonneg; lia. }
  unfold Float64.decimal. change (10 ^ Z.of_nat 0) with 1. rewrite Z.div_1_r.
  apply append_empty_r.
Qed.

(** [math.Round] of a positive double with a negative exponent, printed
    without decimals: the integer [p] within one half of it. *)
Lemma Round_format (m : positive) (e : Z) :
  e < 0 -> Z.pos m < 2 ^ 53 ->
  exists p,
    Float64.format_f 0 (Float64.Round (S754_finite false m e)) = Fmt.itoa p
    /\ (IZR p - / 2 <= double_value m e < IZR p + / 2)%R.
Proof.
  intros He Hm. unfold Float64.Round.
  replace (0 <=? e) with false by (symmetry; apply Z.leb_gt; exact He).
  set (den := 2 ^ (- e)).
  assert (2 <= den) as Hden.
  { subst den. change 2 with (2 ^ 1). apply Z.pow_le_mono_r; lia. }
  pose proof (Z.div_mod (Z.pos m) den ltac:(lia)) as Hdm.
  pose proof (Z.mod_pos_bound (Z.pos m) den ltac:(lia)) as Hr.
  assert (0 <= Z.pos m / den) as Hq0 by (apply Z.div_pos; lia).
  assert (Z.pos m / den < 2 ^ 52) as Hq by (apply Z.div_lt_upper_bound; simpl in *; lia).
  set (q := Z.pos m / den) in *. set (r := Z.pos m mod den) in *.
  set (p := if den <=? 2 * r then q + 1 else q).
  assert (0 <= p <= 2 ^ 52) as Hp by (subst p; destruct (den <=? 2 * r); simpl in *; lia).
  exists p. split.
  - destruct (p =? 0) eqn:E0.
    + apply Z.eqb_eq in E0. rewrite E0. reflexivity.
    + apply Z.eqb_neq in E0. destruct p as [|pp|pp]; try lia.
      change (binary_normalize Float64.prec Float64.emax (Z.pos pp) 0 false)
        with (Float64.of_int (Z.pos pp)).
      apply format_of_int.
      pose proof (digits2_pos_le pp 52). lia.
  - assert (double_value m e = IZR (Z.pos m) / IZR den)%R as ->.
    { unfold double_value, den. rewrite IZR_pow2 by lia.
      assert (powerRZ 2 e * powerRZ 2 (- e) = 1)%R as Hinv
        by (rewrite <- powerRZ_2_add; replace (e + - e) with 0 by lia; reflexivity).
      pose proof (powerRZ_2_pos (- e)).
      apply Rmult_eq_reg_r with (r := powerRZ 2 (- e)); [|lra].
      rewrite Rmult_assoc, Hinv. field. lra. }
    assert (0 < IZR den)%R as Hdr by (apply IZR_lt; lia).
    assert (IZR (Z.pos m) = IZR den * IZR q + IZR r)%R as HmR
      by (rewrite <- mult_IZR, <- plus_IZR; f_equal; exact Hdm).
    assert (0 <= IZR r < IZR den)%R as HrR by (split; [apply IZR_le | apply IZR_lt]; lia).
    rewrite HmR.
    replace ((IZR den * IZR q + IZR r) / IZR den)%R with (IZR q + IZR r / IZR den)%R
      by (field; lra).
    set (f := (IZR r / IZR den)%R).
    assert (IZR r = f * IZR den)%R as Hf by (unfold f; field; lra).
    subst p. destruct (den <=? 2 * r) eqn:E;
      [apply Z.leb_le in E | apply Z.leb_gt in E].
    + assert (IZR den <= 2 * IZR r)%R
        by (change 2%R with (IZR 2); rewrite <- mult_IZR; apply IZR_le; exact E).
      rewrite plus_IZR. split; nra.
    + assert (2 * IZR r < IZR den)%R
        by (change 2%R with (IZR 2); rewrite <- mult_IZR; apply IZR_lt; exact E).
      split; nra.
Qed.

(** ** C4: formatSize *)

Lemma list_ascii_of_string_app (s t : string) :
  list_ascii_of_string (s ++ t) = (list_ascii_of_string s ++ list_ascii_of_string t)%list.
Proof. induction s as [|c s IH]; simpl; [reflexivity|]. f_equal. exact IH. Qed.

(** No text ends in the labels of two different units. *)
Lemma unit_label_unique (u u' : unit_bucket) (text text' : string) :
  text ++ unit_label u = text' ++ unit_label u' -> u = u'.
Proof.
  intros Heq.
  apply (f_equal (fun s => rev (list_ascii_of_string s))) in Heq.
  rewrite !list_ascii_of_string_app, !rev_app_distr in Heq.
  destruct u, u'; simpl in Heq; try reflexivity; discriminate.
Qed.

Lemma formatSize_bucket (ui : UI) (b : Z) :
  formatSize ui b
  = Color.wrap (NoColor ui) (orange ui) (bucket_number b (bucket b)) ++ unit_label (bucket b).
Proof.
  unfold formatSize, bucket.
  destruct (10 ^ 12 <? b); [reflexivity|].
  destruct (10 ^ 9 <? b); [reflexivity|].
  destruct (10 ^ 6 <? b); [reflexivity|].
  destruct (10 ^ 3 <? b); reflexivity.
Qed.

(** *** The number printed

    A byte count below 2^53 is converted to a double exactly, and the
    division by a power of two is exact. *)

Lemma pow2_unit_shift (u : unit_bucket) :
  u <> UnitB ->
  Float64.pow2 (unit_shift u) = S754_finite false 4503599627370496 (unit_shift u - 52).
Proof. destruct u; intros H; try congruence; reflexivity. Qed.

(** Dividing a normal double by a power of two only lowers its exponent. *)
Lemma div_pow2_exact (s : bool) (m : positive) (e k : Z) :
  Z.pos (digits2_pos m) = 53 -> -1000 <= e - k <= 900 ->
  Float64.div (S754_finite s m e) (S754_finite false 4503599627370496 (k - 52))
  = S754_finite s m (e - k).
Proof.
  intros Hd Hek.
  unfold Float64.div, Float64.prec, Float64.emax, SFdiv, SFdiv_core_binary.
  cbn [Zdigits2]. rewrite Hd.
  change (Z.pos (digits2_pos 4503599627370496)) with 53.
  unfold fexp, emin.
  replace (Z.min (Z.max (53 + e - (53 + (k - 52)) - 53) (3 - 1024 - 53)) (e - (k - 52)))
    with (e - k - 1) by lia.
  replace (e - (k - 52) - (e - k - 1)) with 53 by lia.
  rewrite Z.shiftl_mul_pow2 by lia.
  pose proof (Z_div_mod (Z.pos m * 2 ^ 53) (Z.pos 4503599627370496) eq_refl) as Hdm.
  destruct (Z.div_eucl (Z.pos m * 2 ^ 53) (Z.pos 4503599627370496)) as [q r].
  assert (q = Z.pos m~0 /\ r = 0) as [-> ->] by (change (2 ^ 53) with 9007199254740992 in Hdm; lia).
  change (new_location (Z.pos 4503599627370496) 0) with loc_Exact.
  rewrite Bool.xorb_false_r.
  unfold binary_round_aux, shr_fexp, fexp, emin.
  cbn [Zdigits2 digits2_pos shr_record_of_loc]. rewrite Pos2Z.inj_succ, Hd.
  replace (Z.max (Z.succ 53 + (e - k - 1) - 53) (3 - 1024 - 53) - (e - k - 1)) with 1 by lia.
  cbn [shr SpecFloat.iter_pos shr_1 shr_m shr_r shr_s loc_of_shr_record orb
       round_nearest_even Zdigits2 shr_record_of_loc].
  rewrite Hd.
  replace (Z.max (53 + (e - k - 1 + 1) - 53) (3 - 1024 - 53) - (e - k - 1 + 1)) with 0 by lia.
  cbn [shr shr_m].
  replace (e - k - 1 + 1 <=? 1024 - 53) with true by (symmetry; apply Z.leb_le; lia).
  f_equal. lia.
Qed.

(** The number printed for a byte count below 2^53 in a bucket other than
    B is the exact quotient by the bucket's divisor, with one decimal. *)
Lemma bucket_number_exact (b : Z) (u : unit_bucket) :
  u <> UnitB -> 0 < b < 2 ^ 53 ->
  bucket_number b u = one_decimal b (2 ^ unit_shift u).
Proof.
  intros Hu Hb. destruct b as [|p|p]; try lia.
  assert (Z.pos (digits2_pos p) <= 53) as Hd.
  { pose proof (digits2_pos_bounds p) as [Hlo _].
    destruct (Z_le_gt_dec (Z.pos (digits2_pos p)) 53) as [|Hgt]; [assumption|].
    assert (2 ^ 53 <= 2 ^ (Z.pos (digits2_pos p) - 1)) by (apply Z.pow_le_mono_r; lia).
    lia. }
  destruct (of_int_pos_exact p Hd) as (m & Hof & Hm & Hdm).
  set (d := Z.pos (digits2_pos p)) in *.
  assert (0 < d) by (subst d; lia).
  assert (0 <= unit_shift u <= 40 /\ 0 < unit_shift u) as [Hk Hk0] by (destruct u; simpl; try lia; congruence).
  unfold bucket_number, one_decimal.
  replace (match u with UnitB => Fmt.itoa (Z.pos p) | _ =>
             Float64.format_f 1 (Float64.div (Float64.of_int (Z.pos p)) (Float64.pow2 (unit_shift u))) end)
    with (Float64.format_f 1 (Float64.div (Float64.of_int (Z.pos p)) (Float64.pow2 (unit_shift u))))
    by (destruct u; try reflexivity; congruence).
  rewrite Hof, (pow2_unit_shift u Hu), div_pow2_exact by (try exact Hdm; lia).
  cbn [Float64.format_f Float64.sign_string]. 
  rewrite scaled_round_half_even by lia.
  change (10 ^ Z.of_nat 1) with 10. rewrite Hm.
  replace (- (d - 53 - unit_shift u)) with (unit_shift u + (53 - d)) by lia.
  rewrite Z.pow_add_r by lia.
  replace (Z.pos p * 2 ^ (53 - d) * 10) with (10 * Z.pos p * 2 ^ (53 - d)) by lia.
  rewrite round_half_even_scale;
    [reflexivity | apply Z.pow_pos_nonneg; lia | apply Z.pow_pos_nonneg; lia].
Qed.

(** [float64(z)] for an integer [z] of 54 to 63 bits: a double that
    stands for an integer within 512 of [z]. *)
Lemma of_int_large (p : positive) :
  2 ^ 53 <= Z.pos p < 2 ^ 63 ->
  exists m e,
    Float64.of_int (Z.pos p) = S754_finite false m e
    /\ Z.pos (digits2_pos m) = 53
    /\ 1 <= e <= 11
    /\ Z.abs (Z.pos m * 2 ^ e - Z.pos p) <= 512.
Proof.
  intros Hp.
  assert (53 <= Z.log2 (Z.pos p) < 63) as Hlog.
  { split; [apply Z.log2_le_pow2; lia|]. apply Z.log2_lt_pow2; lia. }
  pose proof (digits2_pos_log2 p) as Hd.
  unfold Float64.of_int, Float64.prec, Float64.emax, binary_normalize, binary_round.
  unfold fexp, emin.
  replace (Z.max (Z.pos (digits2_pos p) + 0 - 53) (3 - 1024 - 53))
    with (Z.pos (digits2_pos p) - 53) by lia.
  unfold shl_align.
  destruct (Z.pos (digits2_pos p) - 53 - 0) as [|q|q] eqn:E; try lia.
  pose proof (binary_round_aux_correct false (Z.pos p) 1 0 ltac:(lia)) as H.
  rewrite Z.div_1_r, Z.mod_1_r in H. change (location_of 0 1) with loc_Exact in H.
  destruct H as (m & e & Heq & Hrange & He & Ht); [simpl in *; lia | lia | lia |].
  set (n := Z.log2 (Z.pos p) - 52) in *.
  exists m, e. split; [exact Heq|].
  split; [apply digits2_pos_unique; simpl in *; lia|]. split; [lia|].
  assert (0 < 2 ^ n) as Hpow by (apply Z.pow_pos_nonneg; lia).
  pose proof (round_half_even_nearest (Z.pos p) (1 * 2 ^ n) ltac:(lia)) as Hnear.
  rewrite <- Ht in Hnear.
  assert (Z.pos m * 2 ^ e = Z.pos m * 2 ^ (e - (0 + n)) * (1 * 2 ^ n)) as ->.
  { rewrite Z.mul_1_l, <- Z.mul_assoc, <- Z.pow_add_r by lia. do 2 f_equal. lia. }
  assert (2 ^ n <= 2 ^ 10) as Hn10 by (apply Z.pow_le_mono_r; lia).
  change (2 ^ 10) with 1024 in Hn10. lia.
Qed.

(** For a byte count of 2^53 or more the number printed is the quotient
    of [float64(b)], an integer within 512 of [b], by 2^40, with one
    decimal. *)
Lemma bucket_number_large (b : Z) :
  2 ^ 53 <= b < 2 ^ 63 ->
  exists F,
    Z.abs (F - b) <= 512
    /\ bucket_number b UnitTiB = one_decimal F (2 ^ 40).
Proof.
  intros Hb. destruct b as [|p|p]; try lia.
  destruct (of_int_large p Hb) as (m & e & Hof & Hdm & He & Hnear).
  exists (Z.pos m * 2 ^ e). split; [exact Hnear|].
  unfold bucket_number, one_decimal. rewrite Hof.
  change (Float64.pow2 (unit_shift UnitTiB))
    with (S754_finite false 4503599627370496 (40 - 52)).
  change (unit_shift UnitTiB) with 40.
  rewrite div_pow2_exact by (try exact Hdm; lia).
  cbn [Float64.format_f Float64.sign_string].
  rewrite scaled_round_half_even by lia.
  change (10 ^ Z.of_nat 1) with 10.
  replace (2 ^ 40) with (2 ^ (- (e - 40)) * 2 ^ e)
    by (rewrite <- Z.pow_add_r by lia; f_equal; lia).
  replace (10 * (Z.pos m * 2 ^ e)) with (Z.pos m * 10 * 2 ^ e) by lia.
  rewrite round_half_even_scale;
    [reflexivity | apply Z.pow_pos_nonneg; lia | apply Z.pow_pos_nonneg; lia].
Qed.

Lemma bucket_bounds (b : Z) :
  (bucket b = UnitTiB <-> 10 ^ 12 < b)
  /\ (bucket b = UnitGiB <-> 10 ^ 9 < b <= 10 ^ 12)
  /\ (bucket b = UnitMiB <-> 10 ^ 6 < b <= 10 ^ 9)
  /\ (bucket b = UnitKiB <-> 10 ^ 3 < b <= 10 ^ 6)
  /\ (bucket b = UnitB <-> b <= 10 ^ 3).
Proof.
  unfold bucket.
  destruct (10 ^ 12 <? b) eqn:E12; [apply Z.ltb_lt in E12 | apply Z.ltb_ge in E12];
    [repeat split; intros; try discriminate; try reflexivity; lia|].
  destruct (10 ^ 9 <? b) eqn:E9; [apply Z.ltb_lt in E9 | apply Z.ltb_ge in E9];
    [repeat split; intros; try discriminate; try reflexivity; lia|].
  destruct (10 ^ 6 <? b) eqn:E6; [apply Z.ltb_lt in E6 | apply Z.ltb_ge in E6];
    [repeat split; intros; try discriminate; try reflexivity; lia|].
  destruct (10 ^ 3 <? b) eqn:E3; [apply Z.ltb_lt in E3 | apply Z.ltb_ge in E3];
    repeat split; intros; try discriminate; try reflexivity; lia.
Qed.

Lemma decimal_tenths_text (t : Z) : Float64.decimal 1 t = tenths_text t.
Proof.
  unfold Float64.decimal, tenths_text, Fmt.itoa.
  change (10 ^ Z.of_nat 1) with 10.
  cbn [Fmt.fixed_digits]. unfold Fmt.itoa.
  rewrite Z.mod_mod by lia. reflexivity.
Qed.

Lemma one_decimal_quotient (num den : Z) :
  one_decimal num den = quotient_one_decimal num den.
Proof. apply decimal_tenths_text. Qed.

(** The claim C4 as it is stated fails: it is not for every [int64] byte
    count that the number printed is the quotient by the divisor of the
    bucket with one decimal, whichever way a tie is rounded.  The
    quotient of [example_large_count] by 2^40 is above 8192.05, and the
    text printed is 8192.0 TiB. *)
Lemma formatSize_is_not_the_exact_quotient :
  ~ (forall b, Int64.in_range b -> 10 ^ 12 < b ->
       exists t, formatSize (example_ui false false) b = tenths_text t ++ " TiB"
                 /\ Z.abs (10 * b - t * 2 ^ 40) * 2 <= 2 ^ 40).
Proof.
  intros Hclaim.
  destruct (Hclaim example_large_count) as (t & Htext & Hnear).
  - unfold Int64.in_range, Int64.min_int, Int64.max_int, example_large_count. lia.
  - unfold example_large_count. lia.
  - assert (t = 81921) as -> by (unfold example_large_count in Hnear; lia).
    vm_compute in Htext. discriminate.
Qed.

(** C4, amended.  For every byte count, [formatSize] prints the number of
    the bucket the exclusive decimal bounds select, followed by that
    bucket's unit, and the text it returns ends in the label of no other
    unit; in a bucket other than B the number is the quotient of the byte
    count by the bucket's power of two with one decimal for every byte
    count below 2^53: the nearest tenth of the exact quotient, a tie
    going to the even tenth; from 2^53 on it is the nearest tenth of the
    quotient of [float64(b)], an integer within 512 of the byte count,
    and can be a tenth away from that of the byte count itself, as for
    [example_large_count]; the six boundary inputs select B, B, KiB, MiB,
    GiB and TiB. *)
Theorem formatSize_selects_one_bucket (ui : UI) (b : Z) :
  formatSize ui b
  = Color.wrap (NoColor ui) (orange ui) (bucket_number b (bucket b)) ++ unit_label (bucket b)
  /\ (forall u text, formatSize ui b = text ++ unit_label u -> u = bucket b)
  /\ ((bucket b = UnitTiB <-> 10 ^ 12 < b)
      /\ (bucket b = UnitGiB <-> 10 ^ 9 < b <= 10 ^ 12)
      /\ (bucket b = UnitMiB <-> 10 ^ 6 < b <= 10 ^ 9)
      /\ (bucket b = UnitKiB <-> 10 ^ 3 < b <= 10 ^ 6)
      /\ (bucket b = UnitB <-> b <= 10 ^ 3))
  /\ (bucket b = UnitB ->
      bucket_number b (bucket b) = NilZero.string_of_int (Z.to_int b))
  /\ (bucket b <> UnitB -> b < 2 ^ 53 ->
      bucket_number b (bucket b) = quotient_one_decimal b (2 ^ unit_shift (bucket b))
      /\ Z.abs (10 * b - round_half_even (10 * b) (2 ^ unit_shift (bucket b))
                         * 2 ^ unit_shift (bucket b)) * 2
         <= 2 ^ unit_shift (bucket b))
  /\ (2 ^ 53 <= b <= Int64.max_int ->
      bucket b = UnitTiB
      /\ exists F, Z.abs (F - b) <= 512
                   /\ bucket_number b (bucket b) = quotient_one_decimal F (2 ^ 40))
  /\ map (formatSize (example_ui false false))
         [999; 1000; 1001; 10 ^ 6 + 1; 10 ^ 9 + 1; 10 ^ 12 + 1]
     = ["999 B"; "1000 B"; "1.0 KiB"; "1.0 MiB"; "0.9 GiB"; "0.9 TiB"]
  /\ (formatSize (example_ui false false) example_large_count = "8192.0 TiB"
      /\ quotient_one_decimal example_large_count (2 ^ 40) = "8192.1"
      /\ 2 ^ 40 < Z.abs (10 * example_large_count - 81920 * 2 ^ 40) * 2).
Proof.
  split; [apply formatSize_bucket|].
  split.
  { intros u text Heq. rewrite formatSize_bucket in Heq.
    symmetry. eapply unit_label_unique. exact Heq. }
  split; [apply bucket_bounds|].
  split; [intros ->; reflexivity|].
  split; [|split; [|split; [vm_compute; reflexivity|]]].
  3:{ split; [vm_compute; reflexivity|]. split; [vm_compute; reflexivity|].
      unfold example_large_count. lia. }
  2:{ intros Hb. unfold Int64.max_int in Hb.
      assert (bucket b = UnitTiB) as Hbucket
        by (destruct (bucket_bounds b) as (HT & _); apply HT; simpl in *; lia).
      split; [exact Hbucket|]. rewrite Hbucket.
      destruct (bucket_number_large b ltac:(lia)) as (F & HF & Hnum).
      exists F. split; [exact HF|]. rewrite <- one_decimal_quotient. exact Hnum. }
  intros Hu Hb. split.
  - rewrite <- one_decimal_quotient.
    apply bucket_number_exact; [exact Hu|]. split; [|exact Hb].
    destruct (bucket_bounds b) as (_ & _ & _ & _ & HB).
    destruct (Z_le_gt_dec b (10 ^ 3)) as [Hle|Hgt]; [|lia].
    apply HB in Hle. congruence.
  - apply round_half_even_nearest. apply Z.pow_pos_nonneg; [lia|].
    destruct (bucket b); simpl; lia.
Qed.

(** ** ListDevices *)

Lemma ListDevices_lines (ui : UI) (w : Z) (devices : list Device) (out : list string) :
  fold_left (fun out device => (out ++ [deviceLine ui w device])%list) devices out
  = (out ++ map (deviceLine ui w) devices)%list.
Proof.
  revert out. induction devices as [|d devices IH]; intros out; simpl.
  - symmetry. apply app_nil_r.
  - rewrite IH, <- app_assoc. reflexivity.
Qed.

(** What [ListDevices] writes when the provider returns no error: the
    header, then one line per device, in the provider's order. *)
Lemma ListDevices_output (ui : UI) (devices : list Device) (out : list string) :
  ListDevices ui {| GetDevicesInfo := (devices, None) |} out
  = ((out ++ deviceHeader (maxDeviceNameLenght devices)
          :: map (deviceLine ui (maxDeviceNameLenght devices)) devices)%list, None).
Proof.
  unfold ListDevices; simpl. rewrite ListDevices_lines, <- app_assoc. reflexivity.
Qed.

Lemma wrap64_in_range (z : Z) : Int64.in_range z -> Int64.wrap64 z = z.
Proof.
  unfold Int64.in_range, Int64.wrap64, Int64.min_int, Int64.max_int. intros H.
  rewrite Z.mod_small; lia.
Qed.



(** ** C6: a device of size zero *)




(** ** The percentage printed *)

Lemma powerRZ_2_ge_1 (e : Z) : 0 <= e -> (1 <= powerRZ 2 e)%R.
Proof.
  intros He. rewrite <- IZR_pow2 by exact He. apply IZR_le.
  assert (0 < 2 ^ e) by (apply Z.pow_pos_nonneg; lia). lia.
Qed.

Lemma digits2_pos_lt (p : positive) (n : Z) :
  0 <= n -> Z.pos p < 2 ^ n -> Z.pos (digits2_pos p) <= n.
Proof.
  intros Hn Hp. pose proof (digits2_pos_bounds p) as [Hlo _].
  destruct (Z_le_gt_dec (Z.pos (digits2_pos p)) n) as [|Hgt]; [assumption|].
  assert (2 ^ n <= 2 ^ (Z.pos (digits2_pos p) - 1)) by (apply Z.pow_le_mono_r; lia).
  lia.
Qed.

(** For a device of at most 2^44 bytes of which no more is free than
    there is, the percentage printed is an integer nearest to the exact
    percentage. *)
Lemma usedPercent_nearest (d : Device) :
  0 <= Free d <= Size d -> 0 < Size d < 2 ^ 44 ->
  exists p,
    Float64.format_f 0 (usedPercent d) = Fmt.itoa p
    /\ Z.abs (p * Size d - 100 * (Size d - Free d)) * 2 <= Size d.
Proof.
  intros Hfree Hsize. unfold usedPercent, Int64.sub.
  rewrite wrap64_in_range
    by (unfold Int64.in_range, Int64.min_int, Int64.max_int; simpl in *; lia).
  set (a := Size d - Free d). set (b := Size d) in *.
  assert (0 <= a <= b) as Ha by (subst a; lia).
  destruct b as [|pb|pb] eqn:Eb; try lia.
  assert (Z.pos (digits2_pos pb) <= 53) as Hdb
    by (apply digits2_pos_lt; simpl in *; lia).
  destruct (of_int_value pb Hdb) as (mb & eb & Hofb & Hdmb & Heb & Hvb).
  rewrite Hofb.
  destruct a as [|pa|pa] eqn:Ea; try lia.
  - (* nothing used *)
    exists 0. split; [reflexivity|]. simpl. lia.
  - assert (Z.pos (digits2_pos pa) <= 53) as Hda
      by (apply digits2_pos_lt; simpl in *; lia).
    destruct (of_int_value pa Hda) as (ma & ea & Hofa & Hdma & Hea & Hva).
    rewrite Hofa.
    destruct (div_value ma mb ea eb Hdma Hdmb ltac:(lia) ltac:(lia))
      as (m1 & e1 & Hdiv & Hm1 & He1 & Hv1).
    rewrite Hdiv.
    destruct (mul_100_value m1 e1 Hm1 ltac:(lia)) as (m2 & e2 & Hmul & Hm2 & He2 & Hv2).
    rewrite Hmul.
    rewrite Hva, Hvb in Hv1.
    set (A := IZR (Z.pos pa)) in *. set (B := IZR (Z.pos pb)) in *.
    assert (0 < A)%R as HA by (apply IZR_lt; lia).
    assert (0 < B)%R as HB by (apply IZR_lt; lia).
    assert (A <= B)%R as HAB by (apply IZR_le; lia).
    assert (B < 17592186044416)%R as HB44 by (apply (IZR_lt _ (2 ^ 44)); lia).
    set (v := (A / B)%R) in *.
    assert (A = v * B)%R as HAv by (unfold v; field; lra).
    assert (0 < v <= 1)%R as Hv.
    { split; [apply Rdiv_lt_0_compat; assumption|].
      apply Rmult_le_reg_r with (r := B); [exact HB|]. rewrite <- HAv. lra. }
    pose proof (value_pos m1 e1) as HV1. pose proof (value_pos m2 e2) as HV2.
    set (V1 := double_value m1 e1) in *. set (V2 := double_value m2 e2) in *.
    assert (V2 <= 101)%R as HV2hi by lra.
    assert (e2 < 0) as He2neg.
    { destruct (Z_lt_le_dec e2 0) as [|Hge]; [assumption|exfalso].
      pose proof (powerRZ_2_ge_1 e2 Hge) as Hp1.
      assert (4503599627370496 <= IZR (Z.pos m2))%R as Hm2r
        by (apply (IZR_le (2 ^ 52)); lia).
      unfold V2, double_value in HV2hi. nra. }
    destruct (Round_format m2 e2 He2neg ltac:(lia)) as (p & Hfmt & Hp).
    exists p. split; [exact Hfmt|].
    fold V2 in Hp.
    assert (- / 2 - / 1000000000000000 * 23 <= IZR p - 100 * v
            <= / 2 + / 1000000000000000 * 23)%R as Hpv by lra.
    assert (- (B + 1) < 2 * (IZR p * B - 100 * A) < B + 1)%R as Hfinal.
    { rewrite HAv.
      replace (IZR p * B - 100 * (v * B))%R with ((IZR p - 100 * v) * B)%R by ring.
      split; nra. }
    assert (- (Z.pos pb + 1) < 2 * (p * Z.pos pb - 100 * Z.pos pa) < Z.pos pb + 1) as Hz.
    { unfold A, B in Hfinal. change 100%R with (IZR 100) in Hfinal.
      change 2%R with (IZR 2) in Hfinal. change 1%R with (IZR 1) in Hfinal.
      rewrite <- !mult_IZR, <- minus_IZR, <- mult_IZR, <- plus_IZR, <- opp_IZR in Hfinal.
      destruct Hfinal as [H1 H2]. apply lt_IZR in H1, H2. lia. }
    lia.
Qed.

(** ** C7: the percentage used *)

(** The claim C7 as it is stated fails: 23 of 40 is 57.5 percent, which
    rounds to 58 whichever way halves go, and the cell reads "57%". *)
Lemma usedPercent_is_not_the_exact_rounding :
  ~ (forall d, Size d <> 0 -> Int64.in_range (Size d) -> Int64.in_range (Free d) ->
               usedPercentCell (example_ui false false) d
               = Fmt.itoa (round_half_away (100 * (Size d - Free d)) (Size d)) ++ "%"
               \/ usedPercentCell (example_ui false false) d
                  = Fmt.itoa (round_half_even (100 * (Size d - Free d)) (Size d)) ++ "%").
Proof.
  intros Hclaim.
  assert (Int64.in_range 40 /\ Int64.in_range 17) as [H40 H17]
    by (unfold Int64.in_range, Int64.min_int, Int64.max_int; lia).
  assert (Size example_half_device <> 0) as Hnz by (simpl; lia).
  pose proof (Hclaim example_half_device Hnz H40 H17) as H.
  vm_compute in H. destruct H as [H|H]; discriminate.
Qed.

(** C7, amended.  For a device of nonzero size [ListDevices] prints the
    device's line, and its Used% cell is [math.Round] of the double
    [float64(size - free) / float64(size) * 100], each operation rounded
    to the nearest double, printed without decimals.  When no more is
    free than the size and the size is below 2^44, the cell shows an
    integer nearest to the exact percentage: the exact percentage
    rounded, except that from a value exactly halfway between two
    integers it may go either way.  For the device sda1 of size 1000
    with 400 free the cell reads "60%". *)
Theorem ListDevices_used_percent (ui : UI) (devices : list Device) (out : list string)
    (d : Device) :
  In d devices ->
  Size d <> 0 ->
  (exists lines,
      ListDevices ui {| GetDevicesInfo := (devices, None) |} out
      = ((out ++ deviceHeader (maxDeviceNameLenght devices) :: lines)%list, None)
      /\ In (deviceLine ui (maxDeviceNameLenght devices) d) lines)
  /\ usedPercentCell ui d
     = Color.wrap (NoColor ui) (red ui)
         (Float64.format_f 0
            (Float64.Round
               (Float64.mul
                  (Float64.div (Float64.of_int (Int64.wrap64 (Size d - Free d)))
                               (Float64.of_int (Size d)))
                  (Float64.of_int 100))) ++ "%")
  /\ (0 <= Free d <= Size d -> Size d < 2 ^ 44 ->
      exists p,
        usedPercentCell ui d = Color.wrap (NoColor ui) (red ui) (Fmt.itoa p ++ "%")
        /\ Z.abs (p * Size d - 100 * (Size d - Free d)) * 2 <= Size d)
  /\ usedPercentCell ui example_sda1 = Color.wrap (NoColor ui) (red ui) "60%"
  /\ ListDevices (example_ui false false) {| GetDevicesInfo := ([example_sda1], None) |} []
     = ([" Device      Size      Used      Free Used% Mount point" ++ Fmt.LF;
         "   sda1    1000 B     600 B     400 B   60% /" ++ Fmt.LF], None).
Proof.
  intros Hin Hsize. split; [|split; [|split; [|split]]].
  - eexists. split; [apply ListDevices_output|].
    apply in_map. exact Hin.
  - reflexivity.
  - intros Hfree Hbound.
    destruct (usedPercent_nearest d Hfree ltac:(lia)) as (p & Hfmt & Hnear).
    exists p. split; [|exact Hnear].
    unfold usedPercentCell. rewrite Hfmt. reflexivity.
  - reflexivity.
  - vm_compute. reflexivity.
Qed.

Lemma ListDevices_used_percent_witness :
  In example_half_device [example_sda1; example_half_device]
  /\ Size example_half_device <> 0
  /\ usedPercentCell (example_ui false false) example_half_device = "57%"
  /\ exists p,
       usedPercentCell (example_ui false false) example_half_device = Fmt.itoa p ++ "%"
       /\ Z.abs (p * 40 - 100 * 23) * 2 <= 40.
Proof.
  assert (In example_half_device [example_sda1; example_half_device]) as Hin
    by (right; left; reflexivity).
  assert (Size example_half_device <> 0) as Hsize by (simpl; lia).
  destruct (ListDevices_used_percent (example_ui false false)
              [example_sda1; example_half_device] [] example_half_device Hin Hsize)
    as (_ & Hcell & Hnear & _).
  split; [exact Hin|]. split; [exact Hsize|]. split; [exact Hcell|].
  apply Hnear; simpl; lia.
Defined.

(** ** C8: the width of the name column *)

Lemma maxLength_longest (devices : list Device) (start : Z) :
  0 <= start ->
  fold_left (fun maxLen item => if maxLen <? len (Name item) then len (Name item) else maxLen)
            devices start
  = Z.max start (longest_name devices).
Proof.
  revert start. induction devices as [|d devices IH]; intros start Hstart; simpl.
  - lia.
  - assert (0 <= len (Name d)) by (unfold len; lia).
    destruct (start <? len (Name d)) eqn:E;
      [apply Z.ltb_lt in E | apply Z.ltb_ge in E]; rewrite IH by lia; lia.
Qed.

Lemma longest_name_nonneg (devices : list Device) : 0 <= longest_name devices.
Proof. induction devices as [|d devices IH]; simpl; lia. Qed.

(** C8 (the code departs from it).  The width of the name column is the
    larger of the longest device name and 7, the length of "Devices",
    while the label printed in that column is "Device", of length 6.  For
    the one device sda1 the width is 7, not 6, and the header line starts
    with a space. *)
Theorem name_column_width (devices : list Device) :
  maxDeviceNameLenght devices = Z.max (longest_name devices) 7
  /\ len "Device" = 6
  /\ maxDeviceNameLenght [example_sda1] = 7
  /\ Z.max (longest_name [example_sda1]) (len "Device") = 6
  /\ deviceHeader (maxDeviceNameLenght [example_sda1])
     = " Device      Size      Used      Free Used% Mount point" ++ Fmt.LF.
Proof.
  split; [|repeat split].
  unfold maxDeviceNameLenght, maxLength, maxInt.
  rewrite maxLength_longest by lia.
  pose proof (longest_name_nonneg devices).
  change (len "Devices") with 7.
  destruct (7 <? Z.max 0 (longest_name devices)) eqn:E;
    [apply Z.ltb_lt in E | apply Z.ltb_ge in E]; lia.
Qed.

(* ===================================================================== *)
(** * Part III: further properties of the code *)
(* ===================================================================== *)

(** ** Runes and field widths *)

Lemma String_length_app (s t : string) :
  String.length (s ++ t) = (String.length s + String.length t)%nat.
Proof. induction s as [|c s IH]; simpl; [reflexivity|]. f_equal. exact IH. Qed.

Lemma bytes_of_app (s t : string) :
  Fmt.bytes_of (s ++ t) = (Fmt.bytes_of s ++ Fmt.bytes_of t)%list.
Proof. unfold Fmt.bytes_of. rewrite list_ascii_of_string_app, map_app. reflexivity. Qed.

Lemma bytes_of_length (s : string) : length (Fmt.bytes_of s) = String.length s.
Proof.
  unfold Fmt.bytes_of. rewrite length_map.
  induction s as [|c s IH]; simpl; [reflexivity|]. f_equal. exact IH.
Qed.

(** A rune takes at least one byte and no more bytes than there are. *)
Lemma rune_size_bounds (c : Z) (bs : list Z) :
  (1 <= Fmt.rune_size (c :: bs) <= length (c :: bs))%nat.
Proof.
  unfold Fmt.rune_size.
  destruct (c <? 128); [simpl; lia|].
  destruct (Fmt.lead c) as [[[size lo] hi]|] eqn:El; [|simpl; lia].
  assert (size = 2 \/ size = 3 \/ size = 4)%nat as Hsize.
  { unfold Fmt.lead in El.
    repeat match type of El with
           | (if ?b then _ else _) = _ => destruct b
           end; inversion El; auto. }
  destruct (length (c :: bs) <? size)%nat eqn:Elen; [simpl; lia|].
  apply Nat.ltb_ge in Elen.
  destruct bs as [|c1 bs]; [simpl; lia|].
  destruct (negb _); [simpl; lia|].
  destruct (size =? 2)%nat eqn:E2; [simpl; lia|].
  destruct bs as [|c2 bs]; [simpl; lia|].
  destruct (negb _); [simpl; lia|].
  destruct (size =? 3)%nat eqn:E3; [simpl; lia|].
  destruct bs as [|c3 bs]; [simpl; lia|].
  destruct (negb _); simpl; lia.
Qed.

(** The loop of [RuneCountInString] needs no more iterations than there
    are bytes: more fuel changes nothing, and the count is at most the
    number of bytes. *)
Lemma rune_count_loop_fuel (fuel : nat) (bs : list Z) :
  (length bs <= fuel)%nat ->
  Fmt.rune_count_loop fuel bs = Fmt.rune_count_loop (length bs) bs
  /\ (Fmt.rune_count_loop fuel bs <= length bs)%nat.
Proof.
  revert bs. induction fuel as [fuel IH] using lt_wf_ind. intros bs Hlen.
  destruct bs as [|c bs].
  - destruct fuel; simpl; split; reflexivity || lia.
  - destruct fuel as [|fuel]; [simpl in Hlen; lia|].
    pose proof (rune_size_bounds c bs) as Hsize.
    set (rest := skipn (Fmt.rune_size (c :: bs)) (c :: bs)).
    assert (length rest = length (c :: bs) - Fmt.rune_size (c :: bs))%nat as Hrest
      by (subst rest; apply length_skipn).
    assert (length rest <= length bs)%nat as Hle by (simpl in *; lia).
    change (Fmt.rune_count_loop (S fuel) (c :: bs))
      with (S (Fmt.rune_count_loop fuel rest)).
    change (Fmt.rune_count_loop (length (c :: bs)) (c :: bs))
      with (S (Fmt.rune_count_loop (length bs) rest)).
    destruct (IH fuel ltac:(lia) rest ltac:(simpl in *; lia)) as [H1 H2].
    destruct (Nat.eq_dec (length bs) fuel) as [->|Hne].
    + split; [reflexivity|]. simpl. lia.
    + destruct (IH (length bs) ltac:(simpl in *; lia) rest Hle) as [H3 H4].
      split; [congruence|]. simpl. lia.
Qed.

Lemma RuneCountInString_le (s : string) : (Fmt.RuneCountInString s <= String.length s)%nat.
Proof.
  unfold Fmt.RuneCountInString. rewrite <- bytes_of_length.
  apply rune_count_loop_fuel. reflexivity.
Qed.

(** A leading space is a rune of its own. *)
Lemma RuneCountInString_spaces (n : nat) (s : string) :
  Fmt.RuneCountInString (Fmt.repeat_string n " " ++ s) = (n + Fmt.RuneCountInString s)%nat.
Proof.
  induction n as [|n IH]; [reflexivity|].
  change (Fmt.repeat_string (S n) " " ++ s) with (String " " (Fmt.repeat_string n " " ++ s)).
  unfold Fmt.RuneCountInString in *.
  change (Fmt.bytes_of (String " " (Fmt.repeat_string n " " ++ s)))
    with (32 :: Fmt.bytes_of (Fmt.repeat_string n " " ++ s)).
  set (bs := Fmt.bytes_of (Fmt.repeat_string n " " ++ s)) in *.
  change (Fmt.rune_count_loop (length (32 :: bs)) (32 :: bs))
    with (S (Fmt.rune_count_loop (length bs) bs)).
  rewrite IH. reflexivity.
Qed.

(** [%<w>s] gives a field of [w] runes, or of the width of the operand if
    that is more. *)
Lemma RuneCountInString_pad (w : nat) (s : string) :
  Fmt.RuneCountInString (Fmt.pad w s) = Nat.max w (Fmt.RuneCountInString s).
Proof. unfold Fmt.pad. rewrite RuneCountInString_spaces. lia. Qed.

(** ** The device table *)

Lemma maxLength_loop (keyGetter : Device -> string) (list : list Device) (start : Z) :
  let result := fold_left (fun maxLen item => if maxLen <? len (keyGetter item)
                                               then len (keyGetter item) else maxLen)
                          list start in
  start <= result
  /\ (forall item, In item list -> len (keyGetter item) <= result)
  /\ (result = start \/ exists item, In item list /\ result = len (keyGetter item)).
Proof.
  revert start. induction list as [|d list IH]; intros start; simpl.
  - split; [lia|]. split; [tauto|]. left; reflexivity.
  - destruct (start <? len (keyGetter d)) eqn:E;
      [apply Z.ltb_lt in E | apply Z.ltb_ge in E].
    + destruct (IH (len (keyGetter d))) as (H1 & H2 & H3).
      split; [lia|]. split.
      * intros item [<-|Hin]; [exact H1 | apply H2, Hin].
      * right. destruct H3 as [H3|(item & Hin & H3)]; [exists d | exists item]; auto.
    + destruct (IH start) as (H1 & H2 & H3).
      split; [lia|]. split.
      * intros item [<-|Hin]; [lia | apply H2, Hin].
      * destruct H3 as [H3|(item & Hin & H3)]; [left; exact H3 | right; exists item; auto].
Qed.

(** X1.  [maxLength] returns 0 for an empty list; for any list and any key,
    no key is longer than the result, and for a non-empty list the result
    is the length of the key of one of the items. *)
Theorem maxLength_is_longest_key (list : list Device) (keyGetter : Device -> string) :
  maxLength [] keyGetter = 0
  /\ (forall item, In item list -> len (keyGetter item) <= maxLength list keyGetter)
  /\ (list <> [] -> exists item, In item list /\ maxLength list keyGetter = len (keyGetter item)).
Proof.
  split; [reflexivity|].
  pose proof (maxLength_loop keyGetter list 0) as H.
  change (0 <= maxLength list keyGetter
          /\ (forall item, In item list -> len (keyGetter item) <= maxLength list keyGetter)
          /\ (maxLength list keyGetter = 0
              \/ exists item, In item list /\ maxLength list keyGetter = len (keyGetter item)))
    in H.
  destruct H as (H1 & H2 & H3).
  split; [exact H2|].
  intros Hne. destruct H3 as [H3|H3]; [|exact H3].
  destruct list as [|d list]; [congruence|].
  exists d. split; [left; reflexivity|].
  specialize (H2 d (or_introl eq_refl)).
  unfold len in *. lia.
Qed.

Lemma maxInt_max (x y : Z) : maxInt x y = Z.max x y.
Proof. unfold maxInt. destruct (y <? x) eqn:E; [apply Z.ltb_lt in E | apply Z.ltb_ge in E]; lia. Qed.

(** X2.  The name column is as wide in every row as in the header: no
    device name has more bytes than the width, so [%<w>s] pads each name,
    and the label "Device", to exactly [w] runes. *)
Theorem name_column_aligned (devices : list Device) (d : Device) :
  In d devices ->
  len (Name d) <= maxDeviceNameLenght devices
  /\ Fmt.RuneCountInString (Fmt.pad (Z.to_nat (maxDeviceNameLenght devices)) (Name d))
     = Z.to_nat (maxDeviceNameLenght devices)
  /\ Fmt.RuneCountInString (Fmt.pad (Z.to_nat (maxDeviceNameLenght devices)) "Device")
     = Z.to_nat (maxDeviceNameLenght devices).
Proof.
  intros Hin.
  pose proof (maxLength_loop Name devices 0) as H.
  change (0 <= maxLength devices Name
          /\ (forall item, In item devices -> len (Name item) <= maxLength devices Name)
          /\ (maxLength devices Name = 0
              \/ exists item, In item devices /\ maxLength devices Name = len (Name item)))
    in H.
  destruct H as (_ & Hall & _).
  specialize (Hall d Hin).
  unfold maxDeviceNameLenght. rewrite maxInt_max.
  change (len "Devices") with 7.
  set (m := maxLength devices Name) in *.
  split; [lia|].
  rewrite !RuneCountInString_pad.
  pose proof (RuneCountInString_le (Name d)) as Hle.
  change (Fmt.RuneCountInString "Device") with 6%nat.
  unfold len in Hall. split; lia.
Qed.

Lemma name_column_aligned_witness :
  In example_half_device [example_sda1; example_half_device]
  /\ Fmt.RuneCountInString
       (Fmt.pad (Z.to_nat (maxDeviceNameLenght [example_sda1; example_half_device]))
                (Name example_half_device))
     = 7%nat.
Proof.
  assert (In example_half_device [example_sda1; example_half_device]) as Hin
    by (right; left; reflexivity).
  split; [exact Hin|].
  destruct (name_column_aligned [example_sda1; example_half_device] example_half_device Hin)
    as (_ & H & _).
  exact H.
Defined.

Lemma String_app_assoc (s t u : string) : (s ++ t) ++ u = s ++ (t ++ u).
Proof.
  induction s as [|c s IH]; [reflexivity|].
  change (String c ((s ++ t) ++ u) = String c (s ++ (t ++ u))). rewrite IH. reflexivity.
Qed.

Lemma ends_with_newline_app (s t : string) :
  ends_with_newline t -> ends_with_newline (s ++ t).
Proof. intros [u ->]. exists (s ++ u). symmetry. apply String_app_assoc. Qed.

Lemma deviceHeader_newline (w : Z) : ends_with_newline (deviceHeader w).
Proof.
  unfold deviceHeader. repeat apply ends_with_newline_app.
  exists EmptyString. reflexivity.
Qed.

Lemma deviceLine_newline (ui : UI) (w : Z) (d : Device) : ends_with_newline (deviceLine ui w d).
Proof.
  unfold deviceLine. repeat apply ends_with_newline_app.
  exists EmptyString. reflexivity.
Qed.

(** X3.  [ListDevices] returns the error of the provider, if any, and then
    writes nothing; otherwise it returns nil, keeps what was written
    before and adds the header and one write per device, each ending in
    a newline. *)
Theorem ListDevices_writes (ui : UI) (getter : DevicesInfoGetter) (out : list string) :
  snd (ListDevices ui getter out) = snd (GetDevicesInfo getter)
  /\ exists new,
       fst (ListDevices ui getter out) = (out ++ new)%list
       /\ (forall t, In t new -> ends_with_newline t)
       /\ length new = match snd (GetDevicesInfo getter) with
                       | Some _ => 0%nat
                       | None => S (length (fst (GetDevicesInfo getter)))
                       end.
Proof.
  destruct getter as [[devices [e|]]].
  - split; [reflexivity|]. exists []. simpl. rewrite app_nil_r. repeat split. tauto.
  - rewrite ListDevices_output. split; [reflexivity|].
    eexists. split; [reflexivity|]. split.
    + intros t [<-|Hin]; [apply deviceHeader_newline|].
      apply in_map_iff in Hin as (d & <- & _). apply deviceLine_newline.
    + simpl. rewrite length_map. reflexivity.
Qed.

(** ** The widths of the cells *)

Lemma all_below_spec (n : Z) (P : Z -> bool) :
  all_below n P = true -> forall z, 0 <= z < n -> P z = true.
Proof.
  unfold all_below. rewrite forallb_forall. intros H z Hz.
  rewrite <- (Z2Nat.id z) by lia. apply H. apply in_seq. lia.
Qed.

Lemma itoa_length_3 (z : Z) : 0 <= z < 1000 -> (String.length (Fmt.itoa z) <= 3)%nat.
Proof.
  intros Hz.
  apply Nat.leb_le.
  apply (all_below_spec 1000 (fun z => (String.length (Fmt.itoa z) <=? 3)%nat));
    [vm_compute; reflexivity | lia].
Qed.

Lemma decimal_length_5 (t : Z) :
  0 <= t < 10000 -> (String.length (Float64.decimal 1 t) <= 5)%nat.
Proof.
  intros Ht.
  apply Nat.leb_le.
  apply (all_below_spec 10000 (fun t => (String.length (Float64.decimal 1 t) <=? 5)%nat));
    [vm_compute; reflexivity | lia].
Qed.

(** The tenths printed for a byte count above 1000 and up to 10^15. *)
Lemma bucket_number_tenths (b : Z) :
  10 ^ 3 < b <= 10 ^ 15 ->
  exists t, bucket_number b (bucket b) = Float64.decimal 1 t /\ 9 <= t <= 9766.
Proof.
  intros Hb.
  assert (bucket b <> UnitB) as Hu.
  { destruct (bucket_bounds b) as (_ & _ & _ & _ & HB). intros H. apply HB in H. lia. }
  rewrite bucket_number_exact by (try exact Hu; lia).
  unfold one_decimal. eexists. split; [reflexivity|].
  pose proof (round_half_even_nearest (10 * b) (2 ^ unit_shift (bucket b))) as Hnear.
  destruct (bucket_bounds b) as (HT & HG & HM & HK & _).
  destruct (bucket b) eqn:E; try congruence;
    [ destruct HK as [HK _] | destruct HM as [HM _] | destruct HG as [HG _]
    | destruct HT as [HT _] ];
    match goal with H : _ = _ -> _ |- _ => specialize (H eq_refl) end;
    cbn [unit_shift] in *;
    match type of Hnear with context [2 ^ ?k] =>
      let v := eval compute in (2 ^ k) in change (2 ^ k) with v in *
    end;
    specialize (Hnear ltac:(lia)); lia.
Qed.

Lemma wrap_length (nc : bool) (c : Color.Color) (s : string) :
  String.length (Color.wrap nc c s)
  = if nc then String.length s
    else (String.length (Color.format c) + String.length s + 4)%nat.
Proof.
  unfold Color.wrap. destruct nc; [reflexivity|].
  rewrite !String_length_app. change (String.length Color.unformat) with 4%nat. lia.
Qed.

(** The number and the unit together take at most nine bytes. *)
Lemma plain_size_length (b : Z) :
  0 <= b <= 10 ^ 15 ->
  (String.length (bucket_number b (bucket b) ++ unit_label (bucket b)) <= 9)%nat.
Proof.
  intros Hb. rewrite String_length_app.
  destruct (Z_le_gt_dec b (10 ^ 3)) as [Hsmall|Hbig].
  - destruct (bucket_bounds b) as (_ & _ & _ & _ & HB).
    destruct HB as [_ HB]. rewrite (HB Hsmall). simpl.
    destruct (Z.eq_dec b 1000) as [->|Hne]; [vm_compute; lia|].
    pose proof (itoa_length_3 b ltac:(lia)). lia.
  - destruct (bucket_number_tenths b ltac:(lia)) as (t & -> & Ht).
    pose proof (decimal_length_5 t ltac:(lia)).
    assert (String.length (unit_label (bucket b)) <= 4)%nat
      by (destruct (bucket b); simpl; lia).
    lia.
Qed.

(** X4.  For a UI made by [CreateStdoutUI] and a byte count from 0 to
    10^15, the text of [formatSize] has no more bytes than the width of
    the size column (9, or 20 with colours), so [%<w>s] pads it to exactly
    that many runes: the size columns of [ListDevices] and of the listing
    of [AnalyzePath] are aligned.  At 2^50 bytes the text has ten bytes
    and no longer fits nine. *)
Theorem size_column_aligned (an : Analyzer) (stat : string -> option error)
    (NoColor0 useColors showProgress showApparentSize : bool) (b : Z) :
  0 <= b <= 10 ^ 15 ->
  (String.length
     (formatSize (CreateStdoutUI an stat NoColor0 useColors showProgress showApparentSize) b)
   <= sizeLength (CreateStdoutUI an stat NoColor0 useColors showProgress showApparentSize))%nat
  /\ Fmt.RuneCountInString
       (Fmt.pad (sizeLength (CreateStdoutUI an stat NoColor0 useColors showProgress
                                            showApparentSize))
                (formatSize (CreateStdoutUI an stat NoColor0 useColors showProgress
                                            showApparentSize) b))
     = sizeLength (CreateStdoutUI an stat NoColor0 useColors showProgress showApparentSize)
  /\ formatSize (CreateStdoutUI an stat NoColor0 false showProgress showApparentSize) (2 ^ 50)
     = "1024.0 TiB".
Proof.
  intros Hb.
  set (ui := CreateStdoutUI an stat NoColor0 useColors showProgress showApparentSize).
  assert (String.length (formatSize ui b) <= sizeLength ui)%nat as Hlen.
  { rewrite formatSize_bucket, String_length_app, wrap_length.
    pose proof (plain_size_length b Hb) as Hplain.
    rewrite String_length_app in Hplain.
    unfold sizeLength. subst ui. simpl.
    destruct useColors, NoColor0; simpl; lia. }
  split; [exact Hlen|]. split; [|vm_compute; reflexivity].
  rewrite RuneCountInString_pad.
  pose proof (RuneCountInString_le (formatSize ui b)). lia.
Qed.

Lemma size_column_aligned_witness :
  Fmt.pad (sizeLength (CreateStdoutUI example_analyzer (fun _ => None) false false false false))
          (formatSize (CreateStdoutUI example_analyzer (fun _ => None) false false false false)
                      123456)
  = "120.6 KiB"
  /\ Fmt.RuneCountInString
       (Fmt.pad (sizeLength (CreateStdoutUI example_analyzer (fun _ => None) false false
                                            false false))
                (formatSize (CreateStdoutUI example_analyzer (fun _ => None) false false
                                            false false) 123456))
     = 9%nat.
Proof.
  split; [vm_compute; reflexivity|].
  destruct (size_column_aligned example_analyzer (fun _ => None) false false false false
              123456 ltac:(lia)) as (_ & H & _).
  exact H.
Defined.

(** X5.  For a device with [0 <= free <= size] and [0 < size < 2^44], the
    Used% cell is an integer from 0 to 100 followed by a percent sign:
    100 when nothing is free and 0 when everything is. *)
Theorem usedPercent_between_0_and_100 (ui : UI) (d : Device) :
  0 <= Free d <= Size d -> 0 < Size d < 2 ^ 44 ->
  exists p,
    usedPercentCell ui d = Color.wrap (NoColor ui) (red ui) (Fmt.itoa p ++ "%")
    /\ 0 <= p <= 100
    /\ (Free d = 0 -> p = 100)
    /\ (Free d = Size d -> p = 0).
Proof.
  intros Hfree Hsize.
  destruct (usedPercent_nearest d Hfree Hsize) as (p & Hfmt & Hnear).
  exists p. unfold usedPercentCell. rewrite Hfmt.
  split; [reflexivity|].
  set (size := Size d) in *. set (free := Free d) in *.
  assert (- size <= 2 * (p * size - 100 * (size - free)) <= size) as Hp by lia.
  clear Hnear Hfmt.
  assert (p <= -1 -> p * size <= - size) as Hneg by nia.
  assert (101 <= p -> 101 * size <= p * size) as Hbig by nia.
  assert (0 <= p <= 100) as Hrange by lia.
  split; [exact Hrange|]. split; intros Heq; rewrite Heq in Hp.
  - assert (p <= 99 -> p * size <= 99 * size) by nia. lia.
  - assert (1 <= p -> size <= p * size) by nia. lia.
Qed.

Lemma usedPercent_between_0_and_100_witness :
  exists p,
    usedPercentCell (example_ui false false) example_sda1 = Fmt.itoa p ++ "%"
    /\ 0 <= p <= 100.
Proof.
  destruct (usedPercent_between_0_and_100 (example_ui false false) example_sda1)
    as (p & Hcell & Hrange & _); [simpl; lia | simpl; lia |].
  exists p. split; [exact Hcell | exact Hrange].
Defined.

(** X6.  For a UI made by [CreateStdoutUI] and a device with
    [0 <= free <= size] and [0 < size < 2^44], the Used% cell has no
    more bytes than the width of its column (5, or 16 with colours), so
    [%<w>s] pads it to exactly that many runes. *)
Theorem percent_column_aligned (an : Analyzer) (stat : string -> option error)
    (NoColor0 useColors showProgress showApparentSize : bool) (d : Device) :
  0 <= Free d <= Size d -> 0 < Size d < 2 ^ 44 ->
  (String.length
     (usedPercentCell (CreateStdoutUI an stat NoColor0 useColors showProgress
                                      showApparentSize) d)
   <= percentLength (CreateStdoutUI an stat NoColor0 useColors showProgress
                                    showApparentSize))%nat
  /\ Fmt.RuneCountInString
       (Fmt.pad (percentLength (CreateStdoutUI an stat NoColor0 useColors showProgress
                                               showApparentSize))
                (usedPercentCell (CreateStdoutUI an stat NoColor0 useColors showProgress
                                                 showApparentSize) d))
     = percentLength (CreateStdoutUI an stat NoColor0 useColors showProgress
                                     showApparentSize).
Proof.
  intros Hfree Hsize.
  set (ui := CreateStdoutUI an stat NoColor0 useColors showProgress showApparentSize).
  assert (String.length (usedPercentCell ui d) <= percentLength ui)%nat as Hlen.
  { destruct (usedPercent_between_0_and_100 ui d Hfree Hsize) as (p & -> & Hp & _).
    rewrite wrap_length, String_length_app.
    pose proof (itoa_length_3 p ltac:(lia)) as Hitoa.
    unfold percentLength. subst ui. simpl.
    destruct useColors, NoColor0; simpl; lia. }
  split; [exact Hlen|].
  rewrite RuneCountInString_pad.
  pose proof (RuneCountInString_le (usedPercentCell ui d)). lia.
Qed.

Lemma percent_column_aligned_witness :
  Fmt.pad (percentLength (CreateStdoutUI example_analyzer (fun _ => None) false false
                                         false false))
          (usedPercentCell (CreateStdoutUI example_analyzer (fun _ => None) false false
                                           false false) example_sda1)
  = "  60%"
  /\ Fmt.RuneCountInString
       (Fmt.pad (percentLength (CreateStdoutUI example_analyzer (fun _ => None) false false
                                               false false))
                (usedPercentCell (CreateStdoutUI example_analyzer (fun _ => None) false
                                                 false false false) example_sda1))
     = 5%nat.
Proof.
  split; [vm_compute; reflexivity|].
  apply (percent_column_aligned example_analyzer (fun _ => None) false false false false
           example_sda1); simpl; lia.
Defined.

(** ** The ignore set: what a call of SetIgnoreDirPaths keeps of its argument *)

(** X7.  A UI fresh from [CreateStdoutUI] ignores no path, and so does a
    UI after [SetIgnoreDirPaths] with no paths; two lists with the same
    elements, in any order and with any repetitions, set the same map. *)
Theorem SetIgnoreDirPaths_order_and_duplicates (ui : UI) (paths1 paths2 : list string) :
  (forall an stat nc colors progress apparent p,
     ShouldDirBeIgnored (CreateStdoutUI an stat nc colors progress apparent) p = false)
  /\ (forall p, ShouldDirBeIgnored (SetIgnoreDirPaths ui []) p = false)
  /\ ((forall p, In p paths1 <-> In p paths2) ->
      SetIgnoreDirPaths ui paths1 = SetIgnoreDirPaths ui paths2).
Proof.
  split; [|split].
  - intros. unfold ShouldDirBeIgnored, CreateStdoutUI; simpl.
    rewrite lookup_empty. reflexivity.
  - intros p. unfold ShouldDirBeIgnored, SetIgnoreDirPaths; simpl.
    rewrite lookup_empty. reflexivity.
  - intros Hsame. unfold SetIgnoreDirPaths. f_equal.
    apply map_eq. intros p.
    pose proof (insert_all_lookup paths1 ∅ p) as H1.
    pose proof (insert_all_lookup paths2 ∅ p) as H2.
    rewrite lookup_empty in H1, H2. specialize (Hsame p).
    destruct (fold_left _ paths1 ∅ !! p) as [[]|] eqn:E1,
             (fold_left _ paths2 ∅ !! p) as [[]|] eqn:E2; try reflexivity; exfalso.
    + destruct H1 as [H1 _]. destruct (H1 eq_refl) as [Hin|]; [|discriminate].
      destruct H2 as [_ H2]. specialize (H2 (or_introl (proj1 Hsame Hin))). discriminate.
    + destruct H2 as [H2 _]. destruct (H2 eq_refl) as [Hin|]; [|discriminate].
      destruct H1 as [_ H1]. specialize (H1 (or_introl (proj2 Hsame Hin))). discriminate.
Qed.

(** ** The listing *)

(** X8.  When [sort.Sort] only rearranges, the listing of [AnalyzePath]
    has one line for every entry of the tree: its lines are a
    rearrangement of the lines of [dir.Files], none dropped, none
    repeated. *)
Theorem listing_one_line_per_entry (ext : Extern) (ui : UI) (d : Dir) :
  sort_permutes (sort_Sort ext) ->
  Permutation (listing ext ui d) (map (entryLine ext ui) (Files d))
  /\ length (listing ext ui d) = length (Files d).
Proof.
  intros Hperm. unfold listing, displayed.
  specialize (Hperm (Files_Less ext) (Files d)).
  split.
  - apply Permutation_map. exact Hperm.
  - rewrite length_map. apply Permutation_length. exact Hperm.
Qed.

Lemma listing_one_line_per_entry_witness :
  Permutation (listing example_ext (example_ui false false) example_crossed)
              (map (entryLine example_ext (example_ui false false)) (Files example_crossed))
  /\ length (listing example_ext (example_ui false false) example_crossed) = 2%nat.
Proof.
  exact (listing_one_line_per_entry example_ext (example_ui false false) example_crossed
           insertionSort_permutes).
Defined.

(** ** The bucket B is exact *)

Lemma to_int_not_nil (z : Z) :
  Z.to_int z <> Decimal.Pos Decimal.Nil /\ Z.to_int z <> Decimal.Neg Decimal.Nil.
Proof.
  assert (Decimal.norm (Z.to_int z) = Z.to_int z) as Hnorm
    by (rewrite <- DecimalZ.to_of, DecimalZ.of_to; reflexivity).
  split; intros H; rewrite H in Hnorm; discriminate.
Qed.

Lemma itoa_inj (a b : Z) : Fmt.itoa a = Fmt.itoa b -> a = b.
Proof.
  unfold Fmt.itoa. intros H.
  apply (f_equal NilZero.int_of_string) in H.
  destruct (to_int_not_nil a), (to_int_not_nil b).
  rewrite !NilZero.isi in H by assumption.
  injection H as H. apply DecimalZ.to_int_inj. exact H.
Qed.

Lemma String_app_inv_head (s t u : string) : s ++ t = s ++ u -> t = u.
Proof.
  induction s as [|c s IH]; intros H; [exact H|].
  apply IH. change (String c (s ++ t) = String c (s ++ u)) in H. congruence.
Qed.

Lemma String_app_inv_tail (s t u : string) : s ++ u = t ++ u -> s = t.
Proof.
  intros H.
  apply (f_equal list_ascii_of_string) in H.
  rewrite !list_ascii_of_string_app in H.
  apply app_inv_tail in H.
  rewrite <- (string_of_list_ascii_of_string s), <- (string_of_list_ascii_of_string t).
  congruence.
Qed.

Lemma wrap_inj (nc : bool) (c : Color.Color) (s t : string) :
  Color.wrap nc c s = Color.wrap nc c t -> s = t.
Proof.
  unfold Color.wrap. destruct nc; [tauto|]. intros H.
  apply String_app_inv_head in H. apply String_app_inv_tail in H. exact H.
Qed.

(** X9.  Up to 1000 bytes [formatSize] loses nothing: two different
    byte counts in the bucket B print different texts.  From 1001 on it
    does: 1001 and 1002 bytes print the same text. *)
Theorem formatSize_bytes_are_exact (ui : UI) (b1 b2 : Z) :
  b1 <= 1000 -> b2 <= 1000 -> b1 <> b2 ->
  formatSize ui b1 <> formatSize ui b2
  /\ formatSize ui 1001 = formatSize ui 1002.
Proof.
  intros H1 H2 Hne. split.
  - intros Heq. apply Hne.
    destruct (bucket_bounds b1) as (_ & _ & _ & _ & [_ HB1]).
    destruct (bucket_bounds b2) as (_ & _ & _ & _ & [_ HB2]).
    rewrite !formatSize_bucket, (HB1 H1), (HB2 H2) in Heq. simpl in Heq.
    apply String_app_inv_tail, wrap_inj, itoa_inj in Heq. exact Heq.
  - rewrite !formatSize_bucket.
    change (bucket 1001) with UnitKiB. change (bucket 1002) with UnitKiB.
    replace (bucket_number 1002 UnitKiB) with (bucket_number 1001 UnitKiB)
      by (vm_compute; reflexivity).
    reflexivity.
Qed.

Lemma formatSize_bytes_are_exact_witness :
  formatSize (example_ui false false) 999 <> formatSize (example_ui false false) 1000.
Proof.
  apply (formatSize_bytes_are_exact (example_ui false false) 999 1000); lia.
Defined.

Lemma has_escape_app (s t : string) :
  has_escape (s ++ t) = has_escape s || has_escape t.
Proof. unfold has_escape. rewrite list_ascii_of_string_app. apply existsb_app. Qed.

Lemma has_escape_spaces (n : nat) : has_escape (Fmt.repeat_string n " ") = false.
Proof.
  induction n as [|n IH]; [reflexivity|].
  change (Fmt.repeat_string (S n) " ") with (" " ++ Fmt.repeat_string n " ").
  rewrite has_escape_app, IH. reflexivity.
Qed.

Lemma has_escape_pad (w : nat) (s : string) : has_escape (Fmt.pad w s) = has_escape s.
Proof. unfold Fmt.pad. rewrite has_escape_app, has_escape_spaces. reflexivity. Qed.

Lemma has_escape_uint (d : Decimal.uint) : has_escape (NilEmpty.string_of_uint d) = false.
Proof. induction d; simpl; try reflexivity; exact IHd. Qed.

Lemma has_escape_itoa (z : Z) : has_escape (Fmt.itoa z) = false.
Proof.
  unfold Fmt.itoa. destruct (Z.to_int z) as [d|d]; simpl.
  - destruct d; try reflexivity; apply (has_escape_uint (_ d)).
  - unfold has_escape. simpl. fold (has_escape (NilZero.string_of_uint d)).
    destruct d; try reflexivity; apply (has_escape_uint (_ d)).
Qed.

Lemma has_escape_fixed_digits (count : nat) (n : Z) :
  has_escape (Fmt.fixed_digits count n) = false.
Proof.
  revert n. induction count as [|count IH]; intros n; [reflexivity|].
  cbn [Fmt.fixed_digits]. rewrite has_escape_app, IH, has_escape_itoa. reflexivity.
Qed.

Lemma has_escape_decimal (digs : nat) (n : Z) : has_escape (Float64.decimal digs n) = false.
Proof.
  unfold Float64.decimal. rewrite has_escape_app, has_escape_itoa.
  destruct digs; [reflexivity|].
  rewrite has_escape_app, has_escape_fixed_digits. reflexivity.
Qed.

Lemma has_escape_format_f (digs : nat) (x : Float64.float64) :
  has_escape (Float64.format_f digs x) = false.
Proof.
  destruct x as [s|s| |s m e]; cbn [Float64.format_f].
  - rewrite has_escape_app, has_escape_decimal. destruct s; reflexivity.
  - destruct s; reflexivity.
  - reflexivity.
  - rewrite has_escape_app, has_escape_decimal. destruct s; reflexivity.
Qed.

Lemma has_escape_formatSize (ui : UI) (size : Z) :
  NoColor ui = true -> has_escape (formatSize ui size) = false.
Proof.
  intros Hnc. rewrite formatSize_bucket, Hnc. unfold Color.wrap.
  rewrite has_escape_app.
  replace (has_escape (unit_label (bucket size))) with false
    by (destruct (bucket size); reflexivity).
  unfold bucket_number. destruct (bucket size);
    rewrite ?has_escape_itoa, ?has_escape_format_f; reflexivity.
Qed.

(** X10.  With [useColors] false, [CreateStdoutUI] switches colours off
    for good: no text of [formatSize], no Used% cell and no status line
    of the poller contains the byte ESC, the header of the device table
    contains none, and a line of the table contains one only if the name
    or the mount point of the device does. *)
Theorem no_colors_no_escape (an : Analyzer) (stat : string -> option error)
    (NoColor0 showProgress showApparentSize : bool) (w : Z) (d : Device)
    (progress : CurrentProgress) (size : Z) :
  has_escape (formatSize (CreateStdoutUI an stat NoColor0 false showProgress
                                         showApparentSize) size) = false
  /\ has_escape (usedPercentCell (CreateStdoutUI an stat NoColor0 false showProgress
                                                 showApparentSize) d) = false
  /\ has_escape (statusText (CreateStdoutUI an stat NoColor0 false showProgress
                                            showApparentSize) progress) = false
  /\ has_escape (deviceHeader w) = false
  /\ has_escape (deviceLine (CreateStdoutUI an stat NoColor0 false showProgress
                                            showApparentSize) w d)
     = has_escape (Name d) || has_escape (MountPoint d).
Proof.
  set (ui := CreateStdoutUI an stat NoColor0 false showProgress showApparentSize).
  assert (NoColor ui = true) as Hnc by reflexivity.
  assert (has_escape (usedPercentCell ui d) = false) as Hcell.
  { unfold usedPercentCell. rewrite Hnc. unfold Color.wrap.
    rewrite has_escape_app, has_escape_format_f. reflexivity. }
  split; [apply has_escape_formatSize; exact Hnc|].
  split; [exact Hcell|].
  split; [|split].
  - unfold statusText. rewrite Hnc. unfold Color.wrap.
    rewrite !has_escape_app, has_escape_itoa, has_escape_formatSize by exact Hnc.
    reflexivity.
  - unfold deviceHeader. rewrite !has_escape_app, !has_escape_pad. reflexivity.
  - unfold deviceLine.
    rewrite !has_escape_app, !has_escape_pad, Hcell, !has_escape_formatSize by exact Hnc.
    change (has_escape " ") with false. change (has_escape Fmt.LF) with false.
    rewrite !orb_false_r. reflexivity.
Qed.

(** ** Plain text and what is seen of a cell *)

Lemma is_ascii_app (s t : string) : is_ascii (s ++ t) = is_ascii s && is_ascii t.
Proof. unfold is_ascii. rewrite bytes_of_app. apply forallb_app. Qed.

Lemma RuneCountInString_ascii (s : string) :
  is_ascii s = true -> Fmt.RuneCountInString s = String.length s.
Proof.
  unfold is_ascii, Fmt.RuneCountInString. rewrite <- (bytes_of_length s).
  induction (Fmt.bytes_of s) as [|c bs IH]; [reflexivity|].
  cbn [forallb]. intros H. apply andb_prop in H as [Hc Hbs].
  cbn [length Fmt.rune_count_loop Fmt.rune_size]. rewrite Hc.
  cbn [skipn]. change (drop 0 bs) with bs. rewrite (IH Hbs). reflexivity.
Qed.

Lemma is_ascii_cons (c : ascii) (s : string) :
  is_ascii (String c s) = (Z.of_nat (nat_of_ascii c) <? 0x80) && is_ascii s.
Proof. reflexivity. Qed.

Lemma is_ascii_uint (d : Decimal.uint) : is_ascii (NilEmpty.string_of_uint d) = true.
Proof.
  induction d; [reflexivity | cbn [NilEmpty.string_of_uint]; rewrite is_ascii_cons, IHd;
                              reflexivity ..].
Qed.

Lemma is_ascii_itoa (z : Z) : is_ascii (Fmt.itoa z) = true.
Proof.
  unfold Fmt.itoa, NilZero.string_of_int.
  assert (forall d, is_ascii (NilZero.string_of_uint d) = true) as Huint
    by (intros d; destruct d; try reflexivity; apply (is_ascii_uint (_ d))).
  destruct (Z.to_int z) as [d|d]; [apply Huint|].
  rewrite is_ascii_cons, Huint. reflexivity.
Qed.

Lemma is_ascii_fixed_digits (count : nat) (n : Z) :
  is_ascii (Fmt.fixed_digits count n) = true.
Proof.
  revert n. induction count as [|count IH]; intros n; [reflexivity|].
  cbn [Fmt.fixed_digits]. rewrite is_ascii_app, IH, is_ascii_itoa. reflexivity.
Qed.

Lemma is_ascii_decimal (digs : nat) (n : Z) : is_ascii (Float64.decimal digs n) = true.
Proof.
  unfold Float64.decimal. rewrite is_ascii_app, is_ascii_itoa.
  destruct digs; [reflexivity|].
  rewrite is_ascii_app, is_ascii_fixed_digits. reflexivity.
Qed.

Lemma is_ascii_format_f (digs : nat) (x : Float64.float64) :
  is_ascii (Float64.format_f digs x) = true.
Proof.
  destruct x as [s|s| |s m e]; cbn [Float64.format_f].
  - rewrite is_ascii_app, is_ascii_decimal. destruct s; reflexivity.
  - destruct s; reflexivity.
  - reflexivity.
  - rewrite is_ascii_app, is_ascii_decimal. destruct s; reflexivity.
Qed.

(** The text of [formatSize] without colours: the number and the unit. *)
Lemma is_ascii_plain_size (size : Z) :
  is_ascii (bucket_number size (bucket size) ++ unit_label (bucket size)) = true.
Proof.
  rewrite is_ascii_app.
  replace (is_ascii (unit_label (bucket size))) with true
    by (destruct (bucket size); reflexivity).
  unfold bucket_number. destruct (bucket size);
    rewrite ?is_ascii_itoa, ?is_ascii_format_f; reflexivity.
Qed.

(** The constructor only ever switches [color.NoColor] on: after any
    calls of it the variable is on if it was on before or if one of the
    calls was made without colours. *)
Lemma NoColor_after_calls (NoColor0 : bool) (constructed : list bool) :
  NoColor_after NoColor0 constructed = NoColor0 || existsb negb constructed.
Proof.
  unfold NoColor_after. revert NoColor0.
  induction constructed as [|colors constructed IH]; intros NoColor0; simpl.
  - rewrite orb_false_r. reflexivity.
  - rewrite IH. unfold NoColor_after_CreateStdoutUI.
    destruct colors, NoColor0; reflexivity.
Qed.

(** The text of [formatSize] is ASCII, with its escape sequences or
    without. *)
Lemma is_ascii_formatSize (ui : UI) (size : Z) :
  orange ui = Color.Add (Color.New Color.FgYellow) Color.Bold ->
  is_ascii (formatSize ui size) = true.
Proof.
  intros Horange. rewrite formatSize_bucket, Horange.
  pose proof (is_ascii_plain_size size) as Hplain.
  rewrite is_ascii_app in Hplain. apply andb_prop in Hplain as [Hn Hu].
  unfold Color.wrap. destruct (NoColor ui).
  - rewrite is_ascii_app, Hn, Hu. reflexivity.
  - rewrite !is_ascii_app, Hn, Hu. reflexivity.
Qed.

(** X11.  What is seen of a size cell.  Take a UI made by
    [CreateStdoutUI], a byte count from 0 to 10^15, and the value [nc]
    that [color.NoColor], a variable of the colour package and not of
    the UI, has when the cell is formatted.  The spaces [%<w>s] puts
    before the cell and the runes of the number and its unit, which is
    all the cell shows when its escape sequences are taken as invisible,
    add up to 9, the width of the labels of the header, when [useColors]
    is set and [nc] is off, and when [useColors] is not set and [nc] is
    on.  When [useColors] is set and [nc] is on, the cell is plain text
    padded to 20.  When [useColors] is not set and [nc] is off, the
    coloured text is longer than the field of 9 and gets no padding.
    After calls of [CreateStdoutUI] alone, [nc] is on if it was on
    before the UI was made, if the UI was made without colours, or if a
    UI was made without colours since: so a UI made with colours prints
    cells of 20 once another UI has been made without them. *)
Theorem size_cell_visible_width (an : Analyzer) (stat : string -> option error)
    (NoColor0 colors showProgress showApparentSize : bool) (later : list bool)
    (nc : bool) (b : Z) :
  0 <= b <= 10 ^ 15 ->
  formatSize (with_NoColor (CreateStdoutUI an stat NoColor0 colors showProgress
                                           showApparentSize) nc) b
  = Color.wrap nc (Color.Add (Color.New Color.FgYellow) Color.Bold)
               (bucket_number b (bucket b)) ++ unit_label (bucket b)
  /\ (padding (sizeLength (with_NoColor (CreateStdoutUI an stat NoColor0 colors showProgress
                                                        showApparentSize) nc))
              (formatSize (with_NoColor (CreateStdoutUI an stat NoColor0 colors showProgress
                                                        showApparentSize) nc) b)
      + Fmt.RuneCountInString (bucket_number b (bucket b) ++ unit_label (bucket b))
      = if nc then (if colors then 20 else 9)
        else if colors then 9
        else Fmt.RuneCountInString (bucket_number b (bucket b) ++ unit_label (bucket b)))%nat
  /\ NoColor_after NoColor0 (colors :: later) = NoColor0 || negb colors || existsb negb later
  /\ (padding (sizeLength (with_NoColor (CreateStdoutUI an stat NoColor0 colors showProgress
                                                        showApparentSize)
                                        (NoColor_after NoColor0 (colors :: later))))
              (formatSize (with_NoColor (CreateStdoutUI an stat NoColor0 colors showProgress
                                                        showApparentSize)
                                        (NoColor_after NoColor0 (colors :: later))) b)
      + Fmt.RuneCountInString (bucket_number b (bucket b) ++ unit_label (bucket b))
      = if colors && (NoColor0 || existsb negb later) then 20 else 9)%nat
  /\ Fmt.RuneCountInString (Fmt.pad 9 "Size") = 9%nat.
Proof.
  intros Hb.
  set (ui0 := CreateStdoutUI an stat NoColor0 colors showProgress showApparentSize).
  assert (forall nc',
            (padding (sizeLength (with_NoColor ui0 nc')) (formatSize (with_NoColor ui0 nc') b)
             + Fmt.RuneCountInString (bucket_number b (bucket b) ++ unit_label (bucket b))
             = if nc' then (if colors then 20 else 9)
               else if colors then 9
               else Fmt.RuneCountInString
                      (bucket_number b (bucket b) ++ unit_label (bucket b)))%nat)
    as Hwidth.
  { intros nc'.
    pose proof (plain_size_length b Hb) as Hlen.
    pose proof (is_ascii_plain_size b) as Hplain.
    rewrite (RuneCountInString_ascii _ Hplain).
    unfold padding.
    rewrite (RuneCountInString_ascii _ (is_ascii_formatSize (with_NoColor ui0 nc') b eq_refl)).
    rewrite formatSize_bucket, !String_length_app, wrap_length.
    rewrite String_length_app in Hlen.
    unfold sizeLength. subst ui0. cbn [NoColor orange useColors with_NoColor
                                       CreateStdoutUI].
    destruct colors, nc';
      try change (String.length (Color.format _)) with 7%nat; lia. }
  assert (NoColor_after NoColor0 (colors :: later)
          = NoColor0 || negb colors || existsb negb later) as Hafter
    by (rewrite NoColor_after_calls; cbn [existsb]; rewrite orb_assoc; reflexivity).
  split; [apply formatSize_bucket|]. split; [apply Hwidth|].
  split; [exact Hafter|]. split; [|reflexivity].
  rewrite Hwidth, Hafter.
  destruct colors, NoColor0, (existsb negb later); reflexivity.
Qed.

Lemma size_cell_visible_width_witness :
  NoColor_after false [true; false] = true
  /\ (padding (sizeLength (with_NoColor (CreateStdoutUI example_analyzer (fun _ => None)
                                                        false true false false)
                                        (NoColor_after false [true; false])))
              (formatSize (with_NoColor (CreateStdoutUI example_analyzer (fun _ => None)
                                                        false true false false)
                                        (NoColor_after false [true; false])) 123456)
      + Fmt.RuneCountInString "120.6 KiB" = 20)%nat
  /\ (padding (sizeLength (with_NoColor (CreateStdoutUI example_analyzer (fun _ => None)
                                                        false true false false) false))
              (formatSize (with_NoColor (CreateStdoutUI example_analyzer (fun _ => None)
                                                        false true false false) false) 123456)
      + Fmt.RuneCountInString "120.6 KiB" = 9)%nat.
Proof.
  pose proof (size_cell_visible_width example_analyzer (fun _ => None)
                false true false false [false] false 123456 ltac:(lia))
    as (_ & Hnow & Hafter & Hlater & _).
  split; [exact Hafter|]. split; [exact Hlater | exact Hnow].
Defined.

(** ** updateProgress *)

Lemma frames_snoc (ui : UI) (k : Z) (snapshots : list CurrentProgress)
    (progress : CurrentProgress) :
  frames ui k (snapshots ++ [progress])
  = (frames ui k snapshots
     ++ [emptyRow; spinnerText ((k + Z.of_nat (length snapshots)) mod 10);
         statusText ui progress])%list.
Proof.
  revert k. induction snapshots as [|p snapshots IH]; intros k.
  - simpl. rewrite Z.add_0_r. reflexivity.
  - replace (k + Z.of_nat (length (p :: snapshots)))
      with (k + 1 + Z.of_nat (length snapshots)) by (cbn [length]; lia).
    cbn [frames app]. rewrite IH. reflexivity.
Qed.

Lemma run_history_invariant (ext : Extern) (ui : UI) (path : string)
    (P : list action -> state -> Prop) :
  (forall history a s s', P history s -> step ext ui path a s = Some s' ->
                          P (history ++ [a])%list s') ->
  forall sched history s s',
    P history s -> run ext ui path sched s = Some s' -> P (history ++ sched)%list s'.
Proof.
  intros Hstep. induction sched as [|a sched IH]; intros history s s' HP Hrun; simpl in Hrun.
  - injection Hrun as <-. rewrite app_nil_r. exact HP.
  - destruct (step ext ui path a s) as [s1|] eqn:E; [|discriminate].
    replace (history ++ a :: sched)%list with ((history ++ [a]) ++ sched)%list
      by (rewrite <- app_assoc; reflexivity).
    eapply IH; [|exact Hrun]. eapply Hstep; eauto.
Qed.

Lemma offered_snoc (history : list action) (a : action) :
  offered (history ++ [a])
  = (offered history ++ match a with AnalyzerOffers progress => [progress] | _ => [] end)%list.
Proof. unfold offered. rewrite flat_map_app. simpl. rewrite app_nil_r. reflexivity. Qed.

Lemma snapshots_inv_step (ext : Extern) (ui : UI) (path : string) (history : list action)
    (a : action) (s s' : state) :
  spawn_inv s -> snapshots_inv ui history s -> step ext ui path a s = Some s' ->
  snapshots_inv ui (history ++ [a]) s'.
Proof.
  unfold snapshots_inv. intros Hspawn (snaps & Hw & Hi & Hsub) Hstep.
  rewrite offered_snoc.
  destruct a; simpl in Hstep; rewrite ?app_nil_r.
  - unfold main_step in Hstep.
    destruct (main s) eqn:Em; try discriminate.
    + destruct (pathChecker ui _); injection Hstep as <-; exists snaps; simpl;
        autorewrite with written; auto.
    + destruct (showProgress ui) eqn:Ep; injection Hstep as <-; simpl;
        autorewrite with written; [|exists snaps; auto].
      unfold spawn_inv in Hspawn. rewrite Em in Hspawn.
      destruct (poll s); simpl in *; try (exfalso; apply Hspawn; reflexivity).
      exists snaps. split; [exact Hw|]. split; [rewrite Hi; reflexivity | exact Hsub].
    + injection Hstep as <-; exists snaps; simpl; autorewrite with written; auto.
    + destruct (wait s =? 0); [|discriminate].
      injection Hstep as <-; exists snaps; simpl; autorewrite with written; auto.
    + destruct (dir s); injection Hstep as <-; exists snaps; simpl;
        autorewrite with written; rewrite ?written_by_write_other by reflexivity; auto.
  - unfold scan_step in Hstep.
    destruct (scan s); try discriminate; injection Hstep as <-; exists snaps; simpl;
      autorewrite with written; auto.
  - unfold poller_step in Hstep.
    destruct (poll s) eqn:Ep; try discriminate; injection Hstep as <-; simpl in *;
      autorewrite with written; rewrite Hw.
    + exists snaps. rewrite app_nil_r. auto.
    + exists snaps. rewrite <- app_assoc. auto.
    + exists (snaps ++ [progress])%list. rewrite frames_snoc, <- app_assoc, app_nil_r.
      rewrite length_app, Nat2Z.inj_add. cbn [length]. rewrite Z.add_0_l, <- Hi.
      split; [reflexivity|]. split; [split; [lia|]; rewrite Hi; f_equal; lia|].
      rewrite <- app_assoc. exact Hsub.
    + exists snaps. split; [reflexivity|]. split; [|exact Hsub]. destruct Hi as [Hn ->].
      rewrite Z.add_mod_idemp_l by lia. f_equal. lia.
    + exists snaps. auto.
  - unfold poller_takes_progress in Hstep.
    destruct (poll s) eqn:Ep; try discriminate.
    destruct (progressChan s) eqn:Ec; try discriminate.
    injection Hstep as <-; exists snaps; simpl in *; autorewrite with written.
    auto.
  - unfold poller_takes_done in Hstep.
    destruct (poll s) eqn:Ep; try discriminate.
    destruct (doneChan s); try discriminate.
    injection Hstep as <-; exists snaps; simpl in *; autorewrite with written.
    rewrite Hw, <- app_assoc. auto.
  - injection Hstep as <-; exists snaps; simpl; autorewrite with written.
    split; [exact Hw|]. split; [exact Hi|].
    rewrite !app_assoc. apply sublist_app; [|reflexivity].
    etransitivity; [|exact Hsub].
    apply sublist_app; [reflexivity|]. apply sublist_inserts_r. reflexivity.
  - injection Hstep as <-; exists snaps; simpl; autorewrite with written; auto.
Qed.

Lemma snapshots_inv_run (ext : Extern) (ui : UI) (path : string) (arg : option Dir)
    (sched : list action) (s : state) :
  run ext ui path sched (AnalyzePath_init ui path arg) = Some s ->
  snapshots_inv ui sched s.
Proof.
  intros Hrun.
  enough (spawn_inv s /\ snapshots_inv ui sched s) as [_ H] by exact H.
  apply (run_history_invariant ext ui path
           (fun history s => spawn_inv s /\ snapshots_inv ui history s)
           ltac:(intros history a s1 s2 [Hspawn Hinv] Hstep; split;
                 [eapply spawn_inv_step; eauto | eapply snapshots_inv_step; eauto])
           sched [] (AnalyzePath_init ui path arg) s); [|exact Hrun].
  split; [unfold spawn_inv; simpl; discriminate|].
  exists []. repeat split. simpl. reflexivity.
Qed.

(** X12.  What [updateProgress] has written is, for each snapshot it has
    drawn, in order, the erasing row, the glyph [progressRunes[k mod 10]]
    of iteration [k] and the status line of that snapshot, followed by
    the writes of the iteration it is in: once it has returned, one more
    erasing row and a carriage return.  It draws only snapshots the
    analyzer offered, each at most once and in the order they were
    offered: the snapshots drawn, then the one in hand, then the one
    ready on the channel, form a subsequence of those offered so far. *)
Theorem updateProgress_draws_offered_snapshots (ext : Extern) (ui : UI) (path : string)
    (arg : option Dir) (sched : list action) (s : state) :
  run ext ui path sched (AnalyzePath_init ui path arg) = Some s ->
  exists snapshots,
    written_by ByPoller s = (frames ui 0 snapshots ++ pending_frame (poll s))%list
    /\ sublist (snapshots ++ in_hand (poll s) ++ ready (progressChan s))%list (offered sched).
Proof.
  intros Hrun.
  destruct (snapshots_inv_run ext ui path arg sched s Hrun) as (snaps & Hw & _ & Hsub).
  exists snaps. auto.
Qed.

Lemma updateProgress_draws_offered_snapshots_witness :
  exists s snapshots,
    run example_ext (example_ui true false) "/data" example_schedule
        (AnalyzePath_init (example_ui true false) "/data" None) = Some s
    /\ written_by ByPoller s
       = (frames (example_ui true false) 0 snapshots ++ pending_frame (poll s))%list
    /\ sublist (snapshots ++ in_hand (poll s) ++ ready (progressChan s))%list [example_progress].
Proof.
  destruct (run example_ext (example_ui true false) "/data" example_schedule
              (AnalyzePath_init (example_ui true false) "/data" None)) as [s|] eqn:Hrun;
    [|vm_compute in Hrun; discriminate].
  destruct (updateProgress_draws_offered_snapshots example_ext (example_ui true false)
              "/data" None example_schedule s Hrun) as (snaps & Hw & Hsub).
  exists s, snaps. split; [reflexivity|]. split; [exact Hw | exact Hsub].
Defined.

(** X13.  The index [i] of [updateProgress] stays from 0 to 9 in every
    state of an execution, so [progressRunes[i]] is always one of the ten
    glyphs and the index expression never goes out of range. *)
Theorem updateProgress_index_in_range (ext : Extern) (ui : UI) (path : string)
    (arg : option Dir) (s : state) (i : Z) :
  reachable ext ui path arg s ->
  poll_index (poll s) = Some i ->
  0 <= i < 10
  /\ exists glyph, nth_error progressRunes (Z.to_nat i) = Some glyph
                   /\ spinnerText i = Fmt.CR ++ " " ++ glyph ++ " ".
Proof.
  intros [sched Hrun] Hidx.
  destruct (snapshots_inv_run ext ui path arg sched s Hrun) as (snaps & _ & Hi & _).
  assert (0 <= i < 10) as Hrange.
  { pose proof (Z.mod_pos_bound (Z.of_nat (length snaps)) 10 ltac:(lia)).
    pose proof (Z.mod_pos_bound (Z.of_nat (length snaps) - 1) 10 ltac:(lia)).
    destruct (poll s); simpl in *; try discriminate; injection Hidx as <-; lia. }
  split; [exact Hrange|].
  destruct (nth_error progressRunes (Z.to_nat i)) as [glyph|] eqn:E.
  - exists glyph. split; [reflexivity|]. unfold spinnerText.
    rewrite (nth_error_nth _ _ _ E). reflexivity.
  - apply nth_error_None in E. simpl in E. lia.
Qed.

Lemma updateProgress_index_in_range_witness :
  exists s,
    reachable example_ext (example_ui true false) "/data" None s
    /\ poll_index (poll s) = Some 1
    /\ exists glyph, nth_error progressRunes (Z.to_nat 1) = Some glyph
                     /\ spinnerText 1 = Fmt.CR ++ " " ++ glyph ++ " ".
Proof.
  destruct (run example_ext (example_ui true false) "/data"
              (firstn 10 example_schedule)
              (AnalyzePath_init (example_ui true false) "/data" None)) as [s|] eqn:Hrun;
    [|vm_compute in Hrun; discriminate].
  exists s.
  assert (reachable example_ext (example_ui true false) "/data" None s) as Hreach
    by (exists (firstn 10 example_schedule); exact Hrun).
  assert (poll_index (poll s) = Some 1) as Hidx
    by (vm_compute in Hrun; injection Hrun as <-; reflexivity).
  split; [exact Hreach|]. split; [exact Hidx|].
  exact (proj2 (updateProgress_index_in_range example_ext (example_ui true false) "/data"
                  None s 1 Hreach Hidx)).
Defined.

(** ** The two writers *)

Lemma poller_first_step (ext : Extern) (ui : UI) (path : string) (a : action)
    (s s' : state) :
  barrier_inv ext ui path s -> poller_first s -> step ext ui path a s = Some s' ->
  poller_first s'.
Proof.
  unfold poller_first. intros (Hwait & _ & _ & _ & Hmain) Hout Hstep.
  assert (poll_active (poll s) = 1 -> written_by ByMain s = []) as Hnone.
  { intros Hact. destruct (main s) as [| | | | |[e|]|]; try tauto.
    destruct Hmain as [Hw _]. destruct (scan s); simpl in *; lia. }
  assert (forall t, written_by ByMain s = [] ->
            (output s ++ [(ByPoller, t)])%list
            = (map (fun t => (ByPoller, t)) (written_by ByPoller s ++ [t])
               ++ map (fun t => (ByMain, t)) [])%list) as Hadd.
  { intros t Hm. rewrite Hout, Hm, map_app. simpl. rewrite !app_nil_r. reflexivity. }
  destruct a; simpl in Hstep.
  - unfold main_step in Hstep.
    destruct (main s) eqn:Em; try discriminate.
    + destruct (pathChecker ui _); injection Hstep as <-; exact Hout.
    + destruct (showProgress ui); injection Hstep as <-; exact Hout.
    + injection Hstep as <-; exact Hout.
    + destruct (wait s =? 0); [|discriminate]. injection Hstep as <-; exact Hout.
    + destruct (dir s); injection Hstep as <-; [|exact Hout].
      simpl. autorewrite with written. rewrite written_by_write_other by reflexivity.
      rewrite Hout at 1. rewrite map_app, app_assoc. reflexivity.
  - unfold scan_step in Hstep.
    destruct (scan s); try discriminate; injection Hstep as <-; exact Hout.
  - unfold poller_step in Hstep.
    destruct (poll s) eqn:Ep; try discriminate; injection Hstep as <-; simpl;
      autorewrite with written; rewrite ?written_by_write_other by reflexivity;
      try exact Hout; rewrite (Hnone eq_refl); apply Hadd; apply Hnone; reflexivity.
  - unfold poller_takes_progress in Hstep.
    destruct (poll s) eqn:Ep; try discriminate.
    destruct (progressChan s); try discriminate.
    injection Hstep as <-; exact Hout.
  - unfold poller_takes_done in Hstep.
    destruct (poll s) eqn:Ep; try discriminate.
    destruct (doneChan s); try discriminate.
    injection Hstep as <-; simpl.
    autorewrite with written; rewrite ?written_by_write_other by reflexivity.
    autorewrite with written.
    rewrite (Hnone eq_refl); apply Hadd; apply Hnone; reflexivity.
  - injection Hstep as <-; exact Hout.
  - injection Hstep as <-; exact Hout.
Qed.

Lemma poller_first_reachable (ext : Extern) (ui : UI) (path : string)
    (arg : option Dir) (s : state) :
  pathChecker ui (filepath_Abs ext path) = None ->
  reachable ext ui path arg s -> poller_first s.
Proof.
  intros Hok Hreach.
  enough (barrier_inv ext ui path s /\ poller_first s) as [_ H] by exact H.
  eapply reachable_invariant
    with (P := fun s => barrier_inv ext ui path s /\ poller_first s);
    [| | exact Hreach].
  - split; [apply barrier_inv_init | reflexivity].
  - intros a s1 s2 [Hbar Hfirst] Hstep. split.
    + eapply barrier_inv_step; eauto.
    + eapply poller_first_step; eauto.
Qed.

(** X14.  The two writers never interleave: in every state of an execution
    of [AnalyzePath] the sink holds everything [updateProgress] has
    written, followed by everything the caller has written. *)
Theorem AnalyzePath_writers_do_not_interleave (ext : Extern) (ui : UI) (path : string)
    (arg : option Dir) (s : state) :
  reachable ext ui path arg s ->
  output s = (map (fun t => (ByPoller, t)) (written_by ByPoller s)
              ++ map (fun t => (ByMain, t)) (written_by ByMain s))%list.
Proof.
  intros Hreach.
  destruct (pathChecker ui (filepath_Abs ext path)) as [err|] eqn:Hcheck.
  - (* the path check fails: nothing is ever written *)
    assert (failed_inv err s) as (_ & _ & _ & _ & _ & Hout).
    { eapply reachable_invariant; [| apply failed_inv_step; exact Hcheck | exact Hreach].
      unfold failed_inv; simpl. tauto. }
    unfold written_by. rewrite Hout. reflexivity.
  - (* it succeeds: the poller writes only before the barrier opens *)
    exact (poller_first_reachable ext ui path arg s Hcheck Hreach).
Qed.

Lemma AnalyzePath_writers_do_not_interleave_witness :
  exists s,
    reachable example_ext (example_ui true false) "/data" None s
    /\ main s = MainReturned None
    /\ output s = (map (fun t => (ByPoller, t)) (written_by ByPoller s)
                   ++ map (fun t => (ByMain, t)) (written_by ByMain s))%list.
Proof.
  destruct (run example_ext (example_ui true false) "/data" example_schedule
              (AnalyzePath_init (example_ui true false) "/data" None)) as [s|] eqn:Hrun;
    [|vm_compute in Hrun; discriminate].
  exists s.
  assert (reachable example_ext (example_ui true false) "/data" None s) as Hreach
    by (exists example_schedule; exact Hrun).
  split; [exact Hreach|].
  split; [vm_compute in Hrun; injection Hrun as <-; reflexivity|].
  exact (AnalyzePath_writers_do_not_interleave example_ext (example_ui true false) "/data"
           None s Hreach).
Defined.

Lemma run_cons (ext : Extern) (ui : UI) (path : string) (a : action)
    (rest : list action) (s s1 : state) :
  step ext ui path a s = Some s1 ->
  run ext ui path (a :: rest) s = run ext ui path rest s1.
Proof. intros H. simpl. rewrite H. reflexivity. Qed.

(** Runs the first action of the schedule on a state that is written out. *)
Ltac run_one :=
  erewrite run_cons;
  [| cbv [step main_step scan_step poller_step poller_takes_done
          set_main set_poll set_scan set_wait set_dir set_doneChan write
          main scan poll wait dir doneChan output progressChan];
     try match goal with H : pathChecker _ _ = _ |- _ => rewrite H end;
     try match goal with H : showProgress _ = _ |- _ => rewrite H end;
     reflexivity ].

(** X15.  Whenever the path check succeeds, [AnalyzePath] can return: the
    shortest schedule runs to the end, the call returns nil, and the sink
    then holds the listing of the scanned tree, after one erasing row and
    a carriage return when the poller ran. *)
Theorem AnalyzePath_can_return (ext : Extern) (ui : UI) (path : string) (arg : option Dir) :
  pathChecker ui (filepath_Abs ext path) = None ->
  exists s,
    run ext ui path (shortest_schedule ui) (AnalyzePath_init ui path arg) = Some s
    /\ main s = MainReturned None
    /\ output s
       = ((if showProgress ui then [(ByPoller, emptyRow); (ByPoller, Fmt.CR)] else [])
          ++ map (fun t => (ByMain, t)) (listing ext ui (scanned ext ui path)))%list.
Proof.
  intros Hok. unfold shortest_schedule, AnalyzePath_init.
  destruct (showProgress ui) eqn:Ep.
  - do 9 run_one.
    change (0 + 1 + 1 - 1 - 1) with 0.
    do 2 run_one.
    eexists. split; [reflexivity|]. split; reflexivity.
  - do 5 run_one.
    change (0 + 1 - 1) with 0.
    do 2 run_one.
    eexists. split; [reflexivity|]. split; reflexivity.
Qed.

Lemma AnalyzePath_can_return_witness :
  exists s,
    run example_ext (example_ui false true) "/data" (shortest_schedule (example_ui false true))
        (AnalyzePath_init (example_ui false true) "/data" None) = Some s
    /\ output s = [(ByMain, "      300 B /b" ++ Fmt.LF); (ByMain, "      100 B a" ++ Fmt.LF)].
Proof.
  destruct (AnalyzePath_can_return example_ext (example_ui false true) "/data" None eq_refl)
    as (s & Hrun & _ & Hout).
  exists s. split; [exact Hrun|]. rewrite Hout. vm_compute. reflexivity.
Defined.

(** ** Without the completion signal *)

Lemma no_done_step (ext : Extern) (ui : UI) (path : string) (a : action) (s s' : state) :
  is_done_signal a = false ->
  doneChan s = false /\ ~ poller_returned s ->
  step ext ui path a s = Some s' ->
  doneChan s' = false /\ ~ poller_returned s'.
Proof.
  unfold poller_returned. intros Ha [Hdone Hpoll] Hstep.
  destruct a; try discriminate; simpl in Hstep.
  - unfold main_step in Hstep.
    destruct (main s) eqn:Em; try discriminate.
    + destruct (pathChecker ui _); injection Hstep as <-; simpl; auto.
    + destruct (showProgress ui); injection Hstep as <-; simpl; auto.
      split; [exact Hdone|]. intros [H|H]; discriminate.
    + injection Hstep as <-; simpl; auto.
    + destruct (wait s =? 0); [|discriminate]. injection Hstep as <-; simpl; auto.
    + destruct (dir s); injection Hstep as <-; simpl; auto.
  - unfold scan_step in Hstep.
    destruct (scan s); try discriminate; injection Hstep as <-; simpl; auto.
  - unfold poller_step in Hstep.
    destruct (poll s) eqn:Ep; try discriminate; injection Hstep as <-; simpl;
      try (split; [exact Hdone|]; intros [H|H]; discriminate).
    exfalso. apply Hpoll. left; reflexivity.
  - unfold poller_takes_progress in Hstep.
    destruct (poll s) eqn:Ep; try discriminate.
    destruct (progressChan s); try discriminate.
    injection Hstep as <-; simpl. split; [exact Hdone|]. intros [H|H]; discriminate.
  - unfold poller_takes_done in Hstep.
    destruct (poll s) eqn:Ep; try discriminate.
    rewrite Hdone in Hstep. discriminate.
  - injection Hstep as <-; simpl; auto.
Qed.

(** X16.  With [showProgress] set, [AnalyzePath] returns only after the
    analyzer has made its completion signal ready: along a schedule in
    which it never does, [updateProgress] never returns, and the caller
    neither passes [wait.Wait()] nor returns nor writes anything. *)
Theorem AnalyzePath_waits_for_completion (ext : Extern) (ui : UI) (path : string)
    (arg : option Dir) (sched : list action) (s : state) :
  showProgress ui = true ->
  pathChecker ui (filepath_Abs ext path) = None ->
  existsb is_done_signal sched = false ->
  run ext ui path sched (AnalyzePath_init ui path arg) = Some s ->
  ~ poller_returned s
  /\ main s <> MainRender
  /\ (forall err, main s <> MainReturned err)
  /\ written_by ByMain s = [].
Proof.
  intros Hshow Hok Hsched Hrun.
  assert (barrier_inv ext ui path s) as (Hwait & Hpoll & _ & _ & Hmain)
    by (apply (barrier_inv_reachable ext ui path arg s Hok); exists sched; exact Hrun).
  assert (doneChan s = false /\ ~ poller_returned s) as [_ Hnot].
  { assert (doneChan (AnalyzePath_init ui path arg) = false
            /\ ~ poller_returned (AnalyzePath_init ui path arg)) as Hinit
      by (split; [reflexivity | intros [H|H]; discriminate]).
    revert Hsched Hrun Hinit. generalize (AnalyzePath_init ui path arg).
    induction sched as [|a sched IH]; intros s0 Hsched Hrun Hinit; simpl in *.
    - injection Hrun as <-. exact Hinit.
    - apply orb_false_elim in Hsched as [Ha Hsched].
      destruct (step ext ui path a s0) as [s1|] eqn:Hstep; [|discriminate].
      apply (IH s1 Hsched Hrun). eapply no_done_step; eauto. }
  rewrite Hshow in Hpoll.
  assert (forall pc, main s = pc ->
            match pc with MainRender | MainReturned None => False | _ => True end) as Hpc.
  { intros pc <-. destruct (main s) as [| | | | |[e|]|]; try exact I.
    - destruct Hmain as [Hw _]. unfold poller_returned in Hnot.
      destruct (poll s); simpl in *; try discriminate; try tauto;
        destruct (scan s); simpl in *; lia.
    - destruct Hmain as [Hw _]. unfold poller_returned in Hnot.
      destruct (poll s); simpl in *; try discriminate; try tauto;
        destruct (scan s); simpl in *; lia. }
  split; [exact Hnot|]. split; [|split].
  - intros Hm. exact (Hpc _ Hm).
  - intros [e|] Hm; [rewrite Hm in Hmain; exact Hmain | exact (Hpc _ Hm)].
  - destruct (main s) as [| | | | |[e|]|] eqn:Em; try tauto.
    exfalso. exact (Hpc _ eq_refl).
Qed.

Lemma AnalyzePath_waits_for_completion_witness :
  exists s,
    run example_ext (example_ui true false) "/data" (firstn 11 example_schedule)
        (AnalyzePath_init (example_ui true false) "/data" None) = Some s
    /\ scan s = ScanAssigned
    /\ main s = MainWait
    /\ ~ poller_returned s.
Proof.
  destruct (run example_ext (example_ui true false) "/data" (firstn 11 example_schedule)
              (AnalyzePath_init (example_ui true false) "/data" None)) as [s|] eqn:Hrun;
    [|vm_compute in Hrun; discriminate].
  exists s. split; [reflexivity|].
  destruct (AnalyzePath_waits_for_completion example_ext (example_ui true false) "/data"
              None (firstn 11 example_schedule) s eq_refl eq_refl eq_refl Hrun)
    as (Hnot & _).
  vm_compute in Hrun. injection Hrun as <-.
  split; [reflexivity|]. split; [reflexivity | exact Hnot].
Defined.

(** X17.  The counter of the WaitGroup is, in every state of an execution
    of [AnalyzePath], the number of goroutines started and not yet done:
    it is never negative, so no [wait.Done()] panics, and never above 2,
    or above 1 without [showProgress]. *)
Theorem AnalyzePath_waitgroup_counter (ext : Extern) (ui : UI) (path : string)
    (arg : option Dir) (s : state) :
  reachable ext ui path arg s ->
  wait s = scan_active (scan s) + poll_active (poll s)
  /\ 0 <= wait s <= (if showProgress ui then 2 else 1).
Proof.
  intros Hreach.
  destruct (pathChecker ui (filepath_Abs ext path)) as [err|] eqn:Hcheck.
  - assert (failed_inv err s) as (_ & -> & -> & -> & _).
    { eapply reachable_invariant; [| apply failed_inv_step; exact Hcheck | exact Hreach].
      unfold failed_inv; simpl. tauto. }
    simpl. destruct (showProgress ui); lia.
  - destruct (barrier_inv_reachable ext ui path arg s Hcheck Hreach)
      as (Hwait & Hpoll & _).
    split; [exact Hwait|]. rewrite Hwait.
    destruct (showProgress ui).
    + destruct (scan s), (poll s); simpl; lia.
    + assert (poll s = PollNotStarted) as ->.
      { destruct (poll s); simpl in Hpoll; try reflexivity;
          destruct (main s); discriminate. }
      destruct (scan s); simpl; lia.
Qed.

Lemma AnalyzePath_waitgroup_counter_witness :
  exists s,
    reachable example_ext (example_ui true false) "/data" None s
    /\ main s = MainWait
    /\ wait s = scan_active (scan s) + poll_active (poll s)
    /\ 0 <= wait s <= 2.
Proof.
  destruct (run example_ext (example_ui true false) "/data" (firstn 8 example_schedule)
              (AnalyzePath_init (example_ui true false) "/data" None)) as [s|] eqn:Hrun;
    [|vm_compute in Hrun; discriminate].
  exists s.
  assert (reachable example_ext (example_ui true false) "/data" None s) as Hreach
    by (exists (firstn 8 example_schedule); exact Hrun).
  split; [exact Hreach|].
  split; [vm_compute in Hrun; injection Hrun as <-; reflexivity|].
  exact (AnalyzePath_waitgroup_counter example_ext (example_ui true false) "/data" None s
           Hreach).
Defined.

Lemma run_app (ext : Extern) (ui : UI) (path : string) (l1 l2 : list action) (s : state) :
  run ext ui path (l1 ++ l2) s
  = match run ext ui path l1 s with
    | Some s1 => run ext ui path l2 s1
    | None => None
    end.
Proof.
  revert s. induction l1 as [|a l1 IH]; intros s; simpl; [reflexivity|].
  destruct (step ext ui path a s); [apply IH | reflexivity].
Qed.

Lemma finish_poller_runs (ext : Extern) (ui : UI) (path : string) (s : state) :
  exists s',
    run ext ui path (finish_poller (poll s)) s = Some s'
    /\ poll_active (poll s') = 0
    /\ main s' = main s
    /\ scan s' = scan s.
Proof.
  destruct (poll s) eqn:Ep; unfold finish_poller.
  all: repeat (erewrite run_cons;
               [| cbv [step poller_step poller_takes_done];
                  cbn [set_poll set_wait set_doneChan write poll doneChan];
                  try rewrite Ep;
                  cbn [set_poll set_wait set_doneChan write poll doneChan]; reflexivity]).
  all: eexists; split; [reflexivity|]; cbn; try rewrite Ep; auto.
Qed.

Lemma finish_scan_runs (ext : Extern) (ui : UI) (path : string) (s : state) :
  exists s',
    run ext ui path (finish_scan (scan s)) s = Some s'
    /\ scan_active (scan s') = 0
    /\ main s' = main s
    /\ poll s' = poll s.
Proof.
  destruct (scan s) eqn:Es; unfold finish_scan.
  all: repeat (erewrite run_cons;
               [| cbv [step scan_step]; cbn [set_scan set_wait set_dir scan];
                  try rewrite Es;
                  cbn [set_scan set_wait set_dir scan]; reflexivity]).
  all: eexists; split; [reflexivity|]; cbn; try rewrite Es; auto.
Qed.

Lemma barrier_inv_run (ext : Extern) (ui : UI) (path : string) (sched : list action)
    (s s' : state) :
  pathChecker ui (filepath_Abs ext path) = None ->
  barrier_inv ext ui path s -> run ext ui path sched s = Some s' ->
  barrier_inv ext ui path s'.
Proof.
  intros Hok Hinv Hrun.
  eapply run_invariant; [apply barrier_inv_step; exact Hok | exact Hinv | exact Hrun].
Qed.

(** From the barrier on: both goroutines finish, the caller passes
    [wait.Wait()] and prints. *)
Lemma can_return_from_wait (ext : Extern) (ui : UI) (path : string) (s : state) :
  pathChecker ui (filepath_Abs ext path) = None ->
  barrier_inv ext ui path s -> main s = MainWait ->
  exists sched s', run ext ui path sched s = Some s' /\ main s' = MainReturned None.
Proof.
  intros Hok Hinv Hmain.
  destruct (finish_poller_runs ext ui path s) as (s1 & Hrun1 & Hpoll1 & Hmain1 & Hscan1).
  destruct (finish_scan_runs ext ui path s1) as (s2 & Hrun2 & Hscan2 & Hmain2 & Hpoll2).
  assert (barrier_inv ext ui path s2) as (Hwait & _ & Hstarted & Hdir & _).
  { eapply barrier_inv_run; [exact Hok | | exact Hrun2].
    eapply barrier_inv_run; [exact Hok | exact Hinv | exact Hrun1]. }
  rewrite Hmain2, Hmain1, Hmain in Hstarted.
  rewrite Hpoll2, Hpoll1, Hscan2 in Hwait.
  assert (scan s2 = ScanDone) as Hdone
    by (destruct (scan s2); simpl in *; try discriminate; reflexivity).
  rewrite Hdone in Hdir.
  exists (finish_poller (poll s) ++ finish_scan (scan s1) ++ [MainStep; MainStep])%list.
  eexists. rewrite run_app, Hrun1, run_app, Hrun2.
  split.
  - erewrite run_cons;
      [| cbv [step main_step]; rewrite Hmain2, Hmain1, Hmain, Hwait; reflexivity].
    erewrite run_cons; [| cbv [step main_step]; cbn [set_main main dir]; rewrite Hdir;
                          reflexivity].
    reflexivity.
  - reflexivity.
Qed.

Lemma can_return_after_step (ext : Extern) (ui : UI) (path : string) (a : action)
    (s s1 : state) :
  step ext ui path a s = Some s1 ->
  (exists sched s', run ext ui path sched s1 = Some s' /\ main s' = MainReturned None) ->
  exists sched s', run ext ui path sched s = Some s' /\ main s' = MainReturned None.
Proof.
  intros Hstep (sched & s' & Hrun & Hmain).
  exists (a :: sched), s'. split; [|exact Hmain].
  rewrite (run_cons _ _ _ _ _ _ _ Hstep). exact Hrun.
Qed.

(** X18.  No state of an execution of [AnalyzePath] whose path check
    succeeded is a dead end: from every one of them some continuation, in
    which the analyzer signals completion, lets the call return nil with
    the listing of the scanned tree written. *)
Theorem AnalyzePath_is_never_stuck (ext : Extern) (ui : UI) (path : string)
    (arg : option Dir) (s : state) :
  pathChecker ui (filepath_Abs ext path) = None ->
  reachable ext ui path arg s ->
  exists sched s',
    run ext ui path sched s = Some s'
    /\ main s' = MainReturned None
    /\ written_by ByMain s' = listing ext ui (scanned ext ui path).
Proof.
  intros Hok Hreach.
  pose proof (barrier_inv_reachable ext ui path arg s Hok Hreach) as Hinv.
  enough (exists sched s', run ext ui path sched s = Some s' /\ main s' = MainReturned None)
    as (sched & s' & Hrun & Hmain).
  { exists sched, s'. split; [exact Hrun|]. split; [exact Hmain|].
    pose proof (barrier_inv_run ext ui path sched s s' Hok Hinv Hrun)
      as (_ & _ & _ & _ & Hm).
    rewrite Hmain in Hm. apply Hm. }
  assert (forall s, barrier_inv ext ui path s -> main s = MainScan ->
            exists sched s', run ext ui path sched s = Some s'
                             /\ main s' = MainReturned None) as Hscan.
  { intros s0 Hinv0 Hm.
    eapply can_return_after_step with (a := MainStep);
      [cbv [step main_step]; rewrite Hm; reflexivity|].
    apply can_return_from_wait; [exact Hok | | reflexivity].
    eapply (barrier_inv_step ext ui path Hok MainStep); [exact Hinv0|].
    cbv [step main_step]. rewrite Hm. reflexivity. }
  assert (forall s, barrier_inv ext ui path s -> main s = MainProgress ->
            exists sched s', run ext ui path sched s = Some s'
                             /\ main s' = MainReturned None) as Hprogress.
  { intros s0 Hinv0 Hm.
    destruct (step ext ui path MainStep s0) as [s1|] eqn:Hstep.
    2:{ cbv [step main_step] in Hstep. rewrite Hm in Hstep.
        destruct (showProgress ui); discriminate. }
    eapply can_return_after_step; [exact Hstep|].
    apply Hscan; [eapply barrier_inv_step; eauto|].
    cbv [step main_step] in Hstep. rewrite Hm in Hstep.
    destruct (showProgress ui); injection Hstep as <-; reflexivity. }
  destruct (main s) as [| | | | |[e|]|] eqn:Hm.
  - eapply can_return_after_step with (a := MainStep);
      [cbv [step main_step]; rewrite Hm, Hok; reflexivity|].
    apply Hprogress; [|reflexivity].
    eapply (barrier_inv_step ext ui path Hok MainStep); [exact Hinv|].
    cbv [step main_step]. rewrite Hm, Hok. reflexivity.
  - apply Hprogress; assumption.
  - apply Hscan; assumption.
  - apply can_return_from_wait; assumption.
  - destruct Hinv as (Hwait & _ & Hstarted & Hdir & Hlast).
    rewrite Hm in Hstarted, Hlast. destruct Hlast as [Hw _].
    assert (scan s = ScanDone) as Hdone.
    { destruct (scan s), (poll s); simpl in *; try discriminate; try lia; reflexivity. }
    rewrite Hdone in Hdir.
    exists [MainStep]. eexists. split.
    + erewrite run_cons; [| cbv [step main_step]; rewrite Hm, Hdir; reflexivity].
      reflexivity.
    + reflexivity.
  - destruct Hinv as (_ & _ & _ & _ & Hfalse). rewrite Hm in Hfalse. contradiction.
  - exists [], s. split; [reflexivity | exact Hm].
  - destruct Hinv as (_ & _ & _ & _ & Hfalse). rewrite Hm in Hfalse. contradiction.
Qed.

Lemma AnalyzePath_is_never_stuck_witness :
  exists s sched s',
    reachable example_ext (example_ui true false) "/data" None s
    /\ main s = MainWait
    /\ run example_ext (example_ui true false) "/data" sched s = Some s'
    /\ main s' = MainReturned None.
Proof.
  destruct (run example_ext (example_ui true false) "/data" (firstn 8 example_schedule)
              (AnalyzePath_init (example_ui true false) "/data" None)) as [s|] eqn:Hrun;
    [|vm_compute in Hrun; discriminate].
  assert (reachable example_ext (example_ui true false) "/data" None s) as Hreach
    by (exists (firstn 8 example_schedule); exact Hrun).
  destruct (AnalyzePath_is_never_stuck example_ext (example_ui true false) "/data" None s
              eq_refl Hreach) as (sched & s' & Hcont & Hmain & _).
  exists s, sched, s'. split; [exact Hreach|].
  split; [vm_compute in Hrun; injection Hrun as <-; reflexivity|].
  split; [exact Hcont | exact Hmain].
Defined.

(** ** The sink when AnalyzePath has returned *)

(** X19.  When [AnalyzePath] has returned nil, the sink holds, in this
    order: with [showProgress], the frames of snapshots the analyzer
    offered, in the order offered, one erasing row and a carriage return;
    then, with or without it, the listing of the scanned tree. *)
Theorem AnalyzePath_final_output (ext : Extern) (ui : UI) (path : string)
    (arg : option Dir) (sched : list action) (s : state) :
  pathChecker ui (filepath_Abs ext path) = None ->
  run ext ui path sched (AnalyzePath_init ui path arg) = Some s ->
  main s = MainReturned None ->
  exists snapshots,
    sublist snapshots (offered sched)
    /\ map snd (output s)
       = ((if showProgress ui then frames ui 0 snapshots ++ [emptyRow; Fmt.CR] else [])
          ++ listing ext ui (scanned ext ui path))%list.
Proof.
  intros Hok Hrun Hmain.
  assert (reachable ext ui path arg s) as Hreach by (exists sched; exact Hrun).
  pose proof (poller_first_reachable ext ui path arg s Hok Hreach) as Hout.
  destruct (barrier_inv_reachable ext ui path arg s Hok Hreach)
    as (Hwait & Hstarted & _ & _ & Hlast).
  rewrite Hmain in Hstarted, Hlast. destruct Hlast as [Hzero Hlisting].
  destruct (snapshots_inv_run ext ui path arg sched s Hrun) as (snaps & Hw & Hi & Hsub).
  assert (poll s = if showProgress ui then PollDone else PollNotStarted) as Hpoll.
  { destruct (showProgress ui), (poll s); simpl in *; try discriminate; try reflexivity;
      destruct (scan s); simpl in *; lia. }
  unfold poller_first in Hout.
  rewrite Hout, map_app, !map_map, !map_id, Hw, Hlisting, Hpoll.
  destruct (showProgress ui).
  - exists snaps. split; [|reflexivity].
    rewrite Hpoll in Hsub. simpl in Hsub.
    etransitivity; [|exact Hsub]. apply sublist_inserts_r. reflexivity.
  - exists []. split; [apply sublist_nil_l|].
    rewrite Hpoll in Hi. simpl in Hi.
    destruct snaps; [reflexivity | simpl in Hi; lia].
Qed.

Lemma AnalyzePath_final_output_witness :
  exists s snapshots,
    run example_ext (example_ui true false) "/data" example_schedule
        (AnalyzePath_init (example_ui true false) "/data" None) = Some s
    /\ sublist snapshots [example_progress]
    /\ map snd (output s)
       = (frames (example_ui true false) 0 snapshots ++ [emptyRow; Fmt.CR]
          ++ [("      300 B /b" ++ Fmt.LF)%string; ("      100 B a" ++ Fmt.LF)%string])%list.
Proof.
  destruct (run example_ext (example_ui true false) "/data" example_schedule
              (AnalyzePath_init (example_ui true false) "/data" None)) as [s|] eqn:Hrun;
    [|vm_compute in Hrun; discriminate].
  assert (main s = MainReturned None) as Hmain
    by (vm_compute in Hrun; injection Hrun as <-; reflexivity).
  destruct (AnalyzePath_final_output example_ext (example_ui true false) "/data" None
              example_schedule s eq_refl Hrun Hmain) as (snaps & Hsub & Hout).
  exists s, snaps. split; [reflexivity|]. split; [exact Hsub|].
  rewrite Hout. change (showProgress (example_ui true false)) with true. cbv iota.
  rewrite <- app_assoc. reflexivity.
Defined.
